(** * The Swift backend of the schema compiler (src/idl_gen_swift.cpp)

    A shallow embedding of [flatbuffers::swift::SwiftGenerator], of
    [GenerateSwift] and of [SwiftMakeRule], and the properties of the
    generated interface that the specification states about them.

    Conventions of the embedding.
    - A C++ [const] method that returns [std::string] is a function into
      [Res string]: it returns, or it stops in [abort()].
    - A [void] method that writes to the code writers is a computation in
      the [Gen] monad: a state transformer on the generator object that
      either returns or stops, and in both cases tells the state reached.
    - Pointers to struct definitions are indices into the parser's own
      vector of struct definitions, which owns every one of them. *)

From stdpp Require Import base option list gmap strings sorting.
From Stdlib Require Import Ascii String NArith ZArith Lia OrdersEx.
From Stdlib Require SpecFloat.

Local Open Scope string_scope.

(** ** Characters and strings *)

(** The double quote character, as a one-character string. *)
Definition dq : string := String (ascii_of_nat 34) EmptyString.

(** [::toupper] and [::tolower] of the C library, in the C locale. *)
Definition ToUpper (c : ascii) : ascii :=
  let n := N_of_ascii c in
  if ((97 <=? n) && (n <=? 122))%N then ascii_of_N (n - 32) else c.

Definition ToLower (c : ascii) : ascii :=
  let n := N_of_ascii c in
  if ((65 <=? n) && (n <=? 90))%N then ascii_of_N (n + 32) else c.

(** [s[0]] read on a [std::string]: the terminating zero when [s] is empty. *)
Definition front (s : string) : ascii :=
  match s with
  | String c _ => c
  | EmptyString => zero
  end.

(** [s[0] = c]. On the empty string the only value that may be stored is the
    terminating zero, which is what the callers below store there. *)
Definition set_front (c : ascii) (s : string) : string :=
  match s with
  | String _ rest => String c rest
  | EmptyString => EmptyString
  end.

(** [std::transform(s.begin(), s.end(), s.begin(), f)]. *)
Fixpoint transform (f : ascii -> ascii) (s : string) : string :=
  match s with
  | EmptyString => EmptyString
  | String c rest => String (f c) (transform f rest)
  end.

(** [s.erase(std::remove_if(s.begin(), s.end(), p), s.end())]. *)
Fixpoint remove_if (p : ascii -> bool) (s : string) : string :=
  match s with
  | EmptyString => EmptyString
  | String c rest => if p c then remove_if p rest else String c (remove_if p rest)
  end.

(** [s1 < s2] on [std::string]: lexicographic on the bytes, unsigned. *)
Definition string_lt (s1 s2 : string) : bool := String.ltb s1 s2.

(** ** The schema model (flatbuffers/idl.h) as this backend reads it *)

(** [enum BaseType]. The enumerators are the ones the backend names; a value
    of the underlying integer type outside them is [BASE_TYPE_unlisted], which
    is what reaches the [default:] label of a [switch]. *)
Inductive BaseType : Set :=
  | BASE_TYPE_NONE
  | BASE_TYPE_UTYPE
  | BASE_TYPE_BOOL
  | BASE_TYPE_CHAR
  | BASE_TYPE_UCHAR
  | BASE_TYPE_SHORT
  | BASE_TYPE_USHORT
  | BASE_TYPE_INT
  | BASE_TYPE_UINT
  | BASE_TYPE_LONG
  | BASE_TYPE_ULONG
  | BASE_TYPE_FLOAT
  | BASE_TYPE_DOUBLE
  | BASE_TYPE_STRING
  | BASE_TYPE_VECTOR
  | BASE_TYPE_STRUCT
  | BASE_TYPE_UNION
  | BASE_TYPE_ARRAY
  | BASE_TYPE_unlisted (raw : nat).

#[global] Instance BaseType_eq_dec : EqDecision BaseType.
Proof. solve_decision. Defined.

(** A [StructDef *]: [None] is the null pointer, [Some i] points to the
    struct definition at index [i] of [parser.structs_.vec]. *)
Definition StructRef := option nat.

(** [struct Type]. The enum definition pointer is never read by this backend
    and is left out. *)
Record FbType : Set := mkType {
  base_type : BaseType;
  element : BaseType;
  struct_def : StructRef
}.

#[global] Instance FbType_eq_dec : EqDecision FbType.
Proof. solve_decision. Defined.

(** [Type::VectorType()]: [Type(element, struct_def)], whose own [element]
    is [BASE_TYPE_NONE]. *)
Definition VectorType (t : FbType) : FbType :=
  mkType (element t) BASE_TYPE_NONE (struct_def t).

Record Namespace : Set := mkNamespace {
  components : list string
}.

(** [struct Value]: only the type is read here. *)
Record Value : Set := mkValue {
  type : FbType
}.

(** [struct Definition], the base of fields and struct definitions (the name is a
    reserved word here, hence the suffix). *)
Record DefinitionT : Set := mkDefinition {
  name : string;
  doc_comment : list string;
  generated : bool;
  defined_namespace : Namespace
}.

Record FieldDef : Set := mkFieldDef {
  field_base : DefinitionT;
  value : Value;
  deprecated : bool;
  required : bool;
  key : bool
}.

Record StructDef : Set := mkStructDef {
  struct_base : DefinitionT;
  fields : list FieldDef;
  fixed : bool;
  has_key : bool
}.

(** The derived-to-base conversions of C++. *)
Coercion field_base : FieldDef >-> DefinitionT.
Coercion struct_base : StructDef >-> DefinitionT.

#[global] Instance Namespace_eq_dec : EqDecision Namespace.
Proof. solve_decision. Defined.
#[global] Instance Value_eq_dec : EqDecision Value.
Proof. solve_decision. Defined.
#[global] Instance DefinitionT_eq_dec : EqDecision DefinitionT.
Proof. solve_decision. Defined.
#[global] Instance FieldDef_eq_dec : EqDecision FieldDef.
Proof. solve_decision. Defined.
#[global] Instance StructDef_eq_dec : EqDecision StructDef.
Proof. solve_decision. Defined.

(** [class Parser], the parts this file reads: the struct definitions in
    declaration order ([structs_.vec]), the root type and the namespace in
    force at the end of the schema. *)
Record Parser : Set := mkParser {
  structs_ : list StructDef;
  root_struct_def_ : StructRef;
  current_namespace_ : Namespace
}.

(** ** Results of methods that may call [abort()] *)

Inductive Failure : Set :=
  | AbortCalled        (* abort() was reached *)
  | NullDereference.   (* a null StructDef pointer was dereferenced *)

Inductive Res (A : Type) : Type :=
  | Ok (a : A)
  | Fail (why : Failure).
Arguments Ok {A} a.
Arguments Fail {A} why.

#[global] Instance Res_ret : MRet Res := fun _ a => Ok a.
#[global] Instance Res_bind : MBind Res := fun _ _ f m =>
  match m with
  | Ok a => f a
  | Fail why => Fail why
  end.

Definition abort {A} : Res A := Fail AbortCalled.

(** [*r] for a struct pointer [r]. *)
Definition deref (p : Parser) (r : StructRef) : Res StructDef :=
  match r with
  | None => Fail NullDereference
  | Some i =>
      match structs_ p !! i with
      | Some sd => Ok sd
      | None => Fail NullDereference
      end
  end.

(** ** The code writers (flatbuffers/code_generators.h)

    [class CodeWriter] is not among the sources at hand. A writer is
    represented by the calls made on it since it was constructed, oldest
    first; what [ToString] makes of them is left to the writer. *)
Inductive WriterCall : Set :=
  | WClear                          (* w.Clear()          *)
  | WSetValue (k v : string)        (* w.SetValue(k, v)   *)
  | WAppend (text : string).        (* w += text          *)

#[global] Instance WriterCall_eq_dec : EqDecision WriterCall.
Proof. solve_decision. Defined.

Definition CodeWriter := list WriterCall.

(** ** What the backend calls outside this file

    Functions of the repository that this file calls and that are declared
    in headers outside it: the name qualification of [BaseGenerator], the
    comment renderer, the banner text, the character class of util.h, the
    rendering of a writer, the file writer and the path helpers. The
    development is parametric in them. *)
Class Externals : Type := {
  (* BaseGenerator::WrapInNameSpace(const Definition &) *)
  WrapInNameSpace_def : Parser -> DefinitionT -> string;
  (* BaseGenerator::WrapInNameSpace(const Namespace *, const std::string &) *)
  WrapInNameSpace : Parser -> Namespace -> string -> string;
  (* ::flatbuffers::GenComment(dc, &text, nullptr, prefix), on an empty text *)
  GenComment_text : list string -> string -> string;
  FlatBuffersGeneratedWarning : string;
  is_alnum : ascii -> bool;
  (* CodeWriter::ToString() *)
  ToString : CodeWriter -> string;
  (* the files on disk, and SaveFile(name, buf, binary) *)
  FileSystem : Type;
  SaveFile : string -> string -> bool -> FileSystem -> bool * FileSystem;
  StripPath : string -> string;
  StripExtension : string -> string;
  (* Parser::GetIncludedFilesRecursive(file_name) *)
  GetIncludedFilesRecursive : Parser -> string -> list string
}.

(** ** The generator object *)

Record SwiftGenerator : Set := mkSwiftGenerator {
  (* members of BaseGenerator *)
  parser_ : Parser;
  path_ : string;
  file_name_ : string;
  (* members of SwiftGenerator *)
  code_h_ : CodeWriter;
  code_mm_ : CodeWriter;
  code_swift_ : CodeWriter;
  keywords_ : gset string
}.

Definition keywords : list string :=
  [ "alignas"; "alignof"; "and"; "and_eq"; "asm"; "atomic_cancel";
    "atomic_commit"; "atomic_noexcept"; "auto"; "bitand"; "bitor"; "bool";
    "break"; "case"; "catch"; "char"; "char16_t"; "char32_t"; "class";
    "compl"; "concept"; "const"; "constexpr"; "const_cast"; "continue";
    "co_await"; "co_return"; "co_yield"; "decltype"; "default"; "delete";
    "do"; "double"; "dynamic_cast"; "else"; "enum"; "explicit"; "export";
    "extern"; "false"; "float"; "for"; "friend"; "goto"; "if"; "import";
    "inline"; "int"; "long"; "module"; "mutable"; "namespace"; "new";
    "noexcept"; "not"; "not_eq"; "nullptr"; "operator"; "or"; "or_eq";
    "private"; "protected"; "public"; "register"; "reinterpret_cast";
    "requires"; "return"; "short"; "signed"; "sizeof"; "static";
    "static_assert"; "static_cast"; "struct"; "switch"; "synchronized";
    "template"; "this"; "thread_local"; "throw"; "true"; "try"; "typedef";
    "typeid"; "typename"; "union"; "unsigned"; "using"; "virtual"; "void";
    "volatile"; "wchar_t"; "while"; "xor"; "xor_eq" ].

(** The constructor: empty writers, and the keyword table inserted word by
    word into the set. *)
Definition SwiftGenerator_new (parser : Parser) (path file_name : string)
  : SwiftGenerator :=
  {| parser_ := parser; path_ := path; file_name_ := file_name;
     code_h_ := []; code_mm_ := []; code_swift_ := [];
     keywords_ := foldl (fun acc kw => {[ kw ]} ∪ acc) ∅ keywords |}.

Definition GeneratedFileName (path file_name suffix : string) : string :=
  path +:+ file_name +:+ "_" +:+ suffix.

(** ** Names *)

Section Names.
Context `{Externals}.
Variable self : SwiftGenerator.

Definition EscapeKeyword (name : string) : string :=
  if bool_decide (name ∈ keywords_ self) then name +:+ "_" else name.

Definition Name (def : DefinitionT) : string :=
  EscapeKeyword (name def).

Definition SelectorComponentName (name : string) (first : bool) : string :=
  let result := EscapeKeyword name in
  set_front (if first then ToUpper (front name) else ToLower (front result))
            result.

Definition SelectorArgumentName (name : string) : string :=
  let result := EscapeKeyword name in
  set_front (ToLower (front result)) result.

Definition TemporaryArgumentName (name : string) : string :=
  SelectorArgumentName name +:+ "__".

(** *** The type-rendering dispatch functions

    Each overload on [const Definition &] carries the suffix [_def], the
    one on [const StructDef &] the suffix [_struct]. The recursive ones
    descend through [VectorType()], which never nests deeper than twice;
    they are defined by recursion on a depth, and their unfolding lemmas
    below state them as the source does. The three that read no member of
    the object ([GenTypeForKey], [GenTypeCastGet], [GenTypeCastKey]) take
    no [self]. *)

Definition GenTypeInternal_def (def : DefinitionT) : string :=
  EscapeKeyword (name def).

Fixpoint GenTypeInternal_rec (depth : nat) (t : FbType) : Res string :=
  match depth with
  | O => Fail NullDereference
  | S depth =>
      match base_type t with
      | BASE_TYPE_NONE => Ok "FlatBufferUInt8"
      | BASE_TYPE_UTYPE => Ok "FlatBufferUInt8"
      | BASE_TYPE_BOOL => Ok "FlatBufferBool"
      | BASE_TYPE_CHAR => Ok "FlatBufferInt8"
      | BASE_TYPE_UCHAR => Ok "FlatBufferUInt8"
      | BASE_TYPE_SHORT => Ok "FlatBufferInt16"
      | BASE_TYPE_USHORT => Ok "FlatBufferUInt16"
      | BASE_TYPE_INT => Ok "FlatBufferInt32"
      | BASE_TYPE_UINT => Ok "FlatBufferUInt32"
      | BASE_TYPE_LONG => Ok "FlatBufferInt64"
      | BASE_TYPE_ULONG => Ok "FlatBufferUInt64"
      | BASE_TYPE_FLOAT => Ok "FlatBufferFloat"
      | BASE_TYPE_DOUBLE => Ok "FlatBufferDouble"
      | BASE_TYPE_STRING => Ok "FlatBufferString"
      | BASE_TYPE_VECTOR =>
          s ← GenTypeInternal_rec depth (VectorType t); Ok (s +:+ "Array")
      | BASE_TYPE_STRUCT =>
          sd ← deref (parser_ self) (struct_def t);
          Ok (GenTypeInternal_def (struct_base sd))
      | BASE_TYPE_UNION => abort
      | BASE_TYPE_ARRAY => abort
      | BASE_TYPE_unlisted _ => abort
      end
  end.

Definition GenTypeInternal (t : FbType) : Res string :=
  GenTypeInternal_rec 3 t.

Definition GenTypeFlatbuffers_def (def : DefinitionT) : string :=
  WrapInNameSpace_def (parser_ self) def.

Definition GenTypeFlatbuffersOffset_def (def : DefinitionT) : string :=
  "flatbuffers::Offset<" +:+ GenTypeFlatbuffers_def def +:+ ">".

Fixpoint GenTypeFlatbuffers_rec (depth : nat) (t : FbType) : Res string :=
  match depth with
  | O => Fail NullDereference
  | S depth =>
      match base_type t with
      | BASE_TYPE_NONE => Ok "uint8_t"
      | BASE_TYPE_UTYPE => Ok "uint8_t"
      | BASE_TYPE_BOOL => Ok "bool"
      | BASE_TYPE_CHAR => Ok "int8_t"
      | BASE_TYPE_UCHAR => Ok "uint8_t"
      | BASE_TYPE_SHORT => Ok "int16_t"
      | BASE_TYPE_USHORT => Ok "uint16_t"
      | BASE_TYPE_INT => Ok "int32_t"
      | BASE_TYPE_UINT => Ok "uint32_t"
      | BASE_TYPE_LONG => Ok "int64_t"
      | BASE_TYPE_ULONG => Ok "uint64_t"
      | BASE_TYPE_FLOAT => Ok "float"
      | BASE_TYPE_DOUBLE => Ok "double"
      | BASE_TYPE_STRING => Ok "flatbuffers::String"
      | BASE_TYPE_VECTOR =>
          s ← GenTypeFlatbuffersOffset_rec depth (VectorType t);
          Ok ("flatbuffers::Vector<" +:+ s +:+ ">")
      | BASE_TYPE_STRUCT =>
          sd ← deref (parser_ self) (struct_def t);
          Ok (GenTypeFlatbuffers_def (struct_base sd))
      | BASE_TYPE_UNION => abort
      | BASE_TYPE_ARRAY => abort
      | BASE_TYPE_unlisted _ => abort
      end
  end
with GenTypeFlatbuffersOffset_rec (depth : nat) (t : FbType) : Res string :=
  match depth with
  | O => Fail NullDereference
  | S depth =>
      match base_type t with
      | BASE_TYPE_NONE | BASE_TYPE_UTYPE | BASE_TYPE_BOOL | BASE_TYPE_CHAR
      | BASE_TYPE_UCHAR | BASE_TYPE_SHORT | BASE_TYPE_USHORT | BASE_TYPE_INT
      | BASE_TYPE_UINT | BASE_TYPE_LONG | BASE_TYPE_ULONG | BASE_TYPE_FLOAT
      | BASE_TYPE_DOUBLE =>
          GenTypeFlatbuffers_rec depth t
      | BASE_TYPE_STRING | BASE_TYPE_VECTOR =>
          s ← GenTypeFlatbuffers_rec depth t;
          Ok ("flatbuffers::Offset<" +:+ s +:+ ">")
      | BASE_TYPE_STRUCT =>
          sd ← deref (parser_ self) (struct_def t);
          Ok (GenTypeFlatbuffersOffset_def (struct_base sd))
      | BASE_TYPE_UNION => abort
      | BASE_TYPE_ARRAY => abort
      | BASE_TYPE_unlisted _ => abort
      end
  end.

Definition GenTypeFlatbuffers (t : FbType) : Res string :=
  GenTypeFlatbuffers_rec 6 t.

Definition GenTypeFlatbuffersOffset (t : FbType) : Res string :=
  GenTypeFlatbuffersOffset_rec 6 t.

Definition GenTypeOffset_def (def : DefinitionT) : string :=
  GenTypeInternal_def def +:+ "Offset".

Definition GenTypeOffset (t : FbType) : Res string :=
  match base_type t with
  | BASE_TYPE_NONE | BASE_TYPE_UTYPE | BASE_TYPE_BOOL | BASE_TYPE_CHAR
  | BASE_TYPE_UCHAR | BASE_TYPE_SHORT | BASE_TYPE_USHORT | BASE_TYPE_INT
  | BASE_TYPE_UINT | BASE_TYPE_LONG | BASE_TYPE_ULONG | BASE_TYPE_FLOAT
  | BASE_TYPE_DOUBLE =>
      abort
  | BASE_TYPE_STRING | BASE_TYPE_VECTOR | BASE_TYPE_STRUCT =>
      s ← GenTypeInternal t; Ok (s +:+ "Offset")
  | BASE_TYPE_UNION => abort
  | BASE_TYPE_ARRAY => abort
  | BASE_TYPE_unlisted _ => abort
  end.

Definition GenTypeRef_def (def : DefinitionT) : string :=
  GenTypeInternal_def def +:+ "Ref".

Definition GenTypeRef (t : FbType) : Res string :=
  match base_type t with
  | BASE_TYPE_NONE | BASE_TYPE_UTYPE | BASE_TYPE_BOOL | BASE_TYPE_CHAR
  | BASE_TYPE_UCHAR | BASE_TYPE_SHORT | BASE_TYPE_USHORT | BASE_TYPE_INT
  | BASE_TYPE_UINT | BASE_TYPE_LONG | BASE_TYPE_ULONG | BASE_TYPE_FLOAT
  | BASE_TYPE_DOUBLE =>
      abort
  | BASE_TYPE_STRING | BASE_TYPE_VECTOR | BASE_TYPE_STRUCT =>
      s ← GenTypeInternal t; Ok (s +:+ "Ref")
  | BASE_TYPE_UNION => abort
  | BASE_TYPE_ARRAY => abort
  | BASE_TYPE_unlisted _ => abort
  end.

Definition GenTypeForGet_def (def : DefinitionT) : string :=
  GenTypeRef_def def.

Definition GenTypeForGet (t : FbType) : Res string :=
  match base_type t with
  | BASE_TYPE_NONE => Ok "uint8_t"
  | BASE_TYPE_UTYPE => Ok "uint8_t"
  | BASE_TYPE_BOOL => Ok "bool"
  | BASE_TYPE_CHAR => Ok "int8_t"
  | BASE_TYPE_UCHAR => Ok "uint8_t"
  | BASE_TYPE_SHORT => Ok "int16_t"
  | BASE_TYPE_USHORT => Ok "uint16_t"
  | BASE_TYPE_INT => Ok "int32_t"
  | BASE_TYPE_UINT => Ok "uint32_t"
  | BASE_TYPE_LONG => Ok "int64_t"
  | BASE_TYPE_ULONG => Ok "uint64_t"
  | BASE_TYPE_FLOAT => Ok "float"
  | BASE_TYPE_DOUBLE => Ok "double"
  | BASE_TYPE_STRING => Ok "NSString *"
  | BASE_TYPE_VECTOR => GenTypeRef t
  | BASE_TYPE_STRUCT =>
      sd ← deref (parser_ self) (struct_def (VectorType t));
      Ok (GenTypeForGet_def (struct_base sd))
  | BASE_TYPE_UNION => abort
  | BASE_TYPE_ARRAY => abort
  | BASE_TYPE_unlisted _ => abort
  end.

Definition GenTypeForSet_def (def : DefinitionT) : string :=
  GenTypeOffset_def def.

Definition GenTypeForSet_struct (def : StructDef) : string :=
  if fixed def
  then "const " +:+ GenTypeInternal_def def +:+ " *"
  else GenTypeOffset_def def.

Definition GenTypeForSet (t : FbType) : Res string :=
  match base_type t with
  | BASE_TYPE_NONE => Ok "uint8_t"
  | BASE_TYPE_UTYPE => Ok "uint8_t"
  | BASE_TYPE_BOOL => Ok "bool"
  | BASE_TYPE_CHAR => Ok "int8_t"
  | BASE_TYPE_UCHAR => Ok "uint8_t"
  | BASE_TYPE_SHORT => Ok "int16_t"
  | BASE_TYPE_USHORT => Ok "uint16_t"
  | BASE_TYPE_INT => Ok "int32_t"
  | BASE_TYPE_UINT => Ok "uint32_t"
  | BASE_TYPE_LONG => Ok "int64_t"
  | BASE_TYPE_ULONG => Ok "uint64_t"
  | BASE_TYPE_FLOAT => Ok "float"
  | BASE_TYPE_DOUBLE => Ok "double"
  | BASE_TYPE_STRING => Ok "FlatBufferStringOffset"
  | BASE_TYPE_VECTOR => GenTypeOffset t
  | BASE_TYPE_STRUCT =>
      sd ← deref (parser_ self) (struct_def (VectorType t));
      Ok (GenTypeForSet_struct sd)
  | BASE_TYPE_UNION => abort
  | BASE_TYPE_ARRAY => abort
  | BASE_TYPE_unlisted _ => abort
  end.

Definition GenTypeForKey (t : FbType) : Res string :=
  match base_type t with
  | BASE_TYPE_NONE => Ok "uint8_t"
  | BASE_TYPE_UTYPE => Ok "uint8_t"
  | BASE_TYPE_BOOL => Ok "bool"
  | BASE_TYPE_CHAR => Ok "int8_t"
  | BASE_TYPE_UCHAR => Ok "uint8_t"
  | BASE_TYPE_SHORT => Ok "int16_t"
  | BASE_TYPE_USHORT => Ok "uint16_t"
  | BASE_TYPE_INT => Ok "int32_t"
  | BASE_TYPE_UINT => Ok "uint32_t"
  | BASE_TYPE_LONG => Ok "int64_t"
  | BASE_TYPE_ULONG => Ok "uint64_t"
  | BASE_TYPE_FLOAT => Ok "float"
  | BASE_TYPE_DOUBLE => Ok "double"
  | BASE_TYPE_STRING => Ok "NSString *"
  | BASE_TYPE_VECTOR => abort
  | BASE_TYPE_STRUCT => abort
  | BASE_TYPE_UNION => abort
  | BASE_TYPE_ARRAY => abort
  | BASE_TYPE_unlisted _ => abort
  end.

Definition GenTypeCastGet (t : FbType) : Res string :=
  match base_type t with
  | BASE_TYPE_NONE | BASE_TYPE_UTYPE | BASE_TYPE_BOOL | BASE_TYPE_CHAR
  | BASE_TYPE_UCHAR | BASE_TYPE_SHORT | BASE_TYPE_USHORT | BASE_TYPE_INT
  | BASE_TYPE_UINT | BASE_TYPE_LONG | BASE_TYPE_ULONG | BASE_TYPE_FLOAT
  | BASE_TYPE_DOUBLE =>
      Ok "value"
  | BASE_TYPE_STRING =>
      Ok "[[NSString alloc] initWithBytesNoCopy:const_cast<char *>(value->c_str()) length:value->Length() encoding:NSUTF8StringEncoding freeWhenDone:NO]"
  | BASE_TYPE_VECTOR | BASE_TYPE_STRUCT =>
      Ok "{ .buf = value }"
  | BASE_TYPE_UNION => abort
  | BASE_TYPE_ARRAY => abort
  | BASE_TYPE_unlisted _ => abort
  end.

Definition GenTypeCastKey (t : FbType) : Res string :=
  match base_type t with
  | BASE_TYPE_NONE | BASE_TYPE_UTYPE | BASE_TYPE_BOOL | BASE_TYPE_CHAR
  | BASE_TYPE_UCHAR | BASE_TYPE_SHORT | BASE_TYPE_USHORT | BASE_TYPE_INT
  | BASE_TYPE_UINT | BASE_TYPE_LONG | BASE_TYPE_ULONG | BASE_TYPE_FLOAT
  | BASE_TYPE_DOUBLE =>
      Ok "key"
  | BASE_TYPE_STRING =>
      Ok ("key.UTF8String ?: " +:+ dq +:+ dq)
  | BASE_TYPE_VECTOR => abort
  | BASE_TYPE_STRUCT => abort
  | BASE_TYPE_UNION => abort
  | BASE_TYPE_ARRAY => abort
  | BASE_TYPE_unlisted _ => abort
  end.

Definition GenTypeCastSet (t : FbType) (name : string) : Res string :=
  match base_type t with
  | BASE_TYPE_NONE | BASE_TYPE_UTYPE | BASE_TYPE_BOOL | BASE_TYPE_CHAR
  | BASE_TYPE_UCHAR | BASE_TYPE_SHORT | BASE_TYPE_USHORT | BASE_TYPE_INT
  | BASE_TYPE_UINT | BASE_TYPE_LONG | BASE_TYPE_ULONG | BASE_TYPE_FLOAT
  | BASE_TYPE_DOUBLE =>
      Ok (EscapeKeyword name)
  | BASE_TYPE_STRING | BASE_TYPE_VECTOR =>
      Ok ("{ " +:+ EscapeKeyword name +:+ ".offset }")
  | BASE_TYPE_STRUCT =>
      sd ← deref (parser_ self) (struct_def t);
      if fixed sd
      then Ok (SelectorArgumentName name +:+ " ? &" +:+
               TemporaryArgumentName name +:+ " : nullptr")
      else Ok ("{ " +:+ EscapeKeyword name +:+ ".offset }")
  | BASE_TYPE_UNION => abort
  | BASE_TYPE_ARRAY => abort
  | BASE_TYPE_unlisted _ => abort
  end.

End Names.

(** ** The monad of the generating methods *)

(** How a call on the generator object ends: it returns a value, or the
    process stops; either way [s] is the state of the object at that point. *)
Inductive Outcome (A : Type) : Type :=
  | Returned (a : A) (s : SwiftGenerator)
  | Stopped (why : Failure) (s : SwiftGenerator).
Arguments Returned {A} a s.
Arguments Stopped {A} why s.

Definition Gen (A : Type) : Type := SwiftGenerator -> Outcome A.

#[global] Instance Gen_ret : MRet Gen := fun _ a s => Returned a s.
#[global] Instance Gen_bind : MBind Gen := fun _ _ f m s =>
  match m s with
  | Returned a s' => f a s'
  | Stopped why s' => Stopped why s'
  end.

Definition state_of {A} (o : Outcome A) : SwiftGenerator :=
  match o with
  | Returned _ s => s
  | Stopped _ s => s
  end.

(** A call of a [const] method, which reads the object and may stop. *)
Definition call {A} (f : SwiftGenerator -> Res A) : Gen A := fun s =>
  match f s with
  | Ok a => Returned a s
  | Fail why => Stopped why s
  end.

(** A read of the object. *)
Definition read {A} (f : SwiftGenerator -> A) : Gen A := fun s =>
  Returned (f s) s.

(** Calls on the header writer [code_h_]. *)
Definition on_h (c : WriterCall) : Gen unit := fun s =>
  Returned tt
    {| parser_ := parser_ s; path_ := path_ s; file_name_ := file_name_ s;
       code_h_ := (code_h_ s ++ [c])%list; code_mm_ := code_mm_ s;
       code_swift_ := code_swift_ s; keywords_ := keywords_ s |}.

(** Calls on the implementation writer [code_mm_]. *)
Definition on_mm (c : WriterCall) : Gen unit := fun s =>
  Returned tt
    {| parser_ := parser_ s; path_ := path_ s; file_name_ := file_name_ s;
       code_h_ := code_h_ s; code_mm_ := (code_mm_ s ++ [c])%list;
       code_swift_ := code_swift_ s; keywords_ := keywords_ s |}.

(** [code_h_ += text] and [code_mm_ += text]. *)
Definition code_h_append (text : string) : Gen unit := on_h (WAppend text).
Definition code_mm_append (text : string) : Gen unit := on_mm (WAppend text).

Definition code_h_SetValue (k v : string) : Gen unit := on_h (WSetValue k v).
Definition code_mm_SetValue (k v : string) : Gen unit := on_mm (WSetValue k v).
Definition code_h_Clear : Gen unit := on_h WClear.
Definition code_mm_Clear : Gen unit := on_mm WClear.

(** A [for] loop over a vector from [begin()] to [end()], without [break]. *)
Fixpoint for_each {A} (l : list A) (body : A -> Gen unit) : Gen unit :=
  match l with
  | [] => mret tt
  | x :: rest => body x ;; for_each rest body
  end.

(** [if (c) body;] *)
Definition when (c : bool) (body : Gen unit) : Gen unit :=
  if c then body else mret tt.

(** A [for] loop whose body may [break]: the body answers [true] when it
    breaks out of the loop. *)
Fixpoint for_each_until {A} (l : list A) (body : A -> Gen bool) : Gen unit :=
  match l with
  | [] => mret tt
  | x :: rest =>
      stop ← body x;
      if (stop : bool) then mret tt else for_each_until rest body
  end.

(** A loop that updates a local variable [acc] and may stop in [abort()]. *)
Fixpoint for_acc {A S} (l : list A) (body : A -> S -> Res S) (acc : S) : Res S :=
  match l with
  | [] => Ok acc
  | x :: rest => acc' ← body x acc; for_acc rest body acc'
  end.

(** ** [std::map<std::string, Type>]

    The map is kept as the list of its entries in increasing key order,
    which is the order in which an iterator visits them. *)
Definition Arrays := list (string * FbType).

(** [m[k] = v]. *)
Fixpoint map_assign (k : string) (v : FbType) (m : Arrays) : Arrays :=
  match m with
  | [] => [(k, v)]
  | (k', v') :: rest =>
      if string_lt k k' then (k, v) :: (k', v') :: rest
      else if string_lt k' k then (k', v') :: map_assign k v rest
      else (k', v) :: rest
  end.

(** The line feed, as a one-character string. *)
Definition nl : string := String (ascii_of_nat 10) EmptyString.

(** ** The methods of [SwiftGenerator] that only read the object *)

Section ConstMethods.
Context `{Externals}.
Variable self : SwiftGenerator.

Definition GenIncludeGuard : string :=
  let guard := file_name_ self in
  let guard := remove_if (fun c => negb (is_alnum c)) guard in
  let guard := "FLATBUFFERS_GENERATED_SWIFT_" +:+ guard in
  let guard := guard +:+ "_" in
  let name_space := current_namespace_ (parser_ self) in
  let guard :=
    foldl (fun guard it => guard +:+ (it +:+ "_")) guard
          (components name_space) in
  let guard := guard +:+ "H_" in
  transform ToUpper guard.

Fixpoint GenTemporaryStruct_loop (name : string)
    (fs : list FieldDef) (first : bool) (result : string) : string :=
  match fs with
  | [] => result
  | field :: rest =>
      if negb (deprecated field) then
        let result := if negb first then result +:+ ", " else result in
        let result := result +:+ (name +:+ "->" +:+ Name self field) in
        GenTemporaryStruct_loop name rest false result
      else GenTemporaryStruct_loop name rest first result
  end.

Definition GenTemporaryStruct (struct_def : StructDef) (name : string)
  : string :=
  let result :=
    "auto " +:+ TemporaryArgumentName self name +:+ " = " +:+
    SelectorArgumentName self name +:+ " ? " +:+
    GenTypeFlatbuffers_def self struct_def +:+ "(" in
  let result :=
    GenTemporaryStruct_loop name (fields struct_def) true result in
  result +:+ (") : " +:+ GenTypeFlatbuffers_def self struct_def +:+ "();").

Definition GenTemporaryString (name : string) (shared : bool) : string :=
  let createString :=
    if shared then "CreateSharedString" else "SharedString" in
  "auto " +:+ TemporaryArgumentName self name +:+ " = " +:+
  EscapeKeyword self name +:+ " ? _fbb->" +:+ createString +:+ "(" +:+
  EscapeKeyword self name +:+ ".UTF8String) : 0;".

Definition GenParamSwift (field : FieldDef) (first : bool) : Res string :=
  t ← GenTypeForSet self (type (value field));
  Ok (SelectorComponentName self (name field) first +:+ ":(" +:+
      t +:+ ")" +:+ SelectorArgumentName self (name field)).

Fixpoint GenCreateSelector_loop (fs : list FieldDef) (first : bool)
    (result : string) : Res string :=
  match fs with
  | [] => Ok result
  | field :: rest =>
      if negb (deprecated field) then
        let result := if negb first then result +:+ " " else result in
        param ← GenParamSwift field first;
        GenCreateSelector_loop rest false (result +:+ param)
      else GenCreateSelector_loop rest first result
  end.

Definition GenCreateSelector (struct_def : StructDef) : Res string :=
  let result := "make" +:+ GenTypeInternal_def self struct_def +:+ "With" in
  GenCreateSelector_loop (fields struct_def) true result.

(** [*field.value.type.struct_def] *)
Definition field_struct (field : FieldDef) : Res StructDef :=
  deref (parser_ self) (struct_def (type (value field))).

(** [t.VectorType().base_type == BASE_TYPE_STRUCT &&
     t.VectorType().struct_def->has_key] *)
Definition element_has_key (t : FbType) : Res bool :=
  if bool_decide (base_type (VectorType t) = BASE_TYPE_STRUCT) then
    sd ← deref (parser_ self) (struct_def (VectorType t));
    Ok (has_key sd)
  else Ok false.

End ConstMethods.

(** ** The methods of [SwiftGenerator] that write code *)

Section Generator.
Context `{Externals}.

Definition GenComment (dc : list string) (prefix : string) : Gen unit :=
  let text := GenComment_text dc prefix in
  code_h_append (text +:+ "\").

Definition GenBuilders (struct_def : StructDef) : Gen unit :=
  v ← read (fun self => GenTypeOffset_def self struct_def);
  code_h_SetValue "OFFSET_NAME" v ;;
  v ← read (fun self => GenTypeOffset_def self struct_def);
  code_mm_SetValue "OFFSET_NAME" v ;;
  v ← read (fun self =>
         WrapInNameSpace (parser_ self) (defined_namespace struct_def)
           ("Create" +:+ Name self struct_def));
  code_mm_SetValue "CREATE_NAME" v ;;

  v ← call (fun self => GenCreateSelector self struct_def);
  code_h_SetValue "SELECTOR_DECL" v ;;
  code_h_append "- ({{OFFSET_NAME}}){{SELECTOR_DECL}};" ;;

  v ← call (fun self => GenCreateSelector self struct_def);
  code_mm_SetValue "SELECTOR_DECL" v ;;
  code_mm_append "- ({{OFFSET_NAME}}){{SELECTOR_DECL}} {" ;;
  for_each (fields struct_def) (fun field =>
    if negb (deprecated field) &&
       bool_decide (base_type (type (value field)) = BASE_TYPE_STRUCT)
    then
      sd ← call (fun self => field_struct self field);
      when (fixed sd) (
        text ← read (fun self => GenTemporaryStruct self sd (name field));
        code_mm_append ("  " +:+ text))
    else mret tt) ;;
  code_mm_append "  return { .offset = {{CREATE_NAME}}(*_fbb" ;;
  for_each (fields struct_def) (fun field =>
    when (negb (deprecated field)) (
      v ← call (fun self =>
             GenTypeCastSet self (type (value field)) (name field));
      code_mm_SetValue "FIELD_CAST" v ;;
      code_mm_append "    , {{FIELD_CAST}}")) ;;
  code_mm_append "  ).o };" ;;
  code_mm_append "}" ;;
  code_mm_append "".

Definition GenArrayBuilders (t : FbType) : Gen unit :=
  v ← call (fun self => GenTypeOffset self t);
  code_h_SetValue "OFFSET_NAME" v ;;
  v ← call (fun self => GenTypeInternal self (VectorType t));
  code_h_SetValue "ELEMENT_NAME" v ;;
  v ← call (fun self => GenTypeOffset self (VectorType t));
  code_h_SetValue "ELEMENT_OFFSET" v ;;
  v ← call (fun self => GenTypeOffset self t);
  code_mm_SetValue "OFFSET_NAME" v ;;
  v ← call (fun self => GenTypeInternal self (VectorType t));
  code_mm_SetValue "ELEMENT_NAME" v ;;
  v ← call (fun self => GenTypeOffset self (VectorType t));
  code_mm_SetValue "ELEMENT_OFFSET" v ;;
  v ← call (fun self => GenTypeFlatbuffersOffset self (VectorType t));
  code_mm_SetValue "ELEMENT_FLATBUF" v ;;

  code_h_append "- ({{OFFSET_NAME}})make{{ELEMENT_NAME}}Array:(const {{ELEMENT_OFFSET}} *)elements count:(NSInteger)count;" ;;

  code_mm_append "- ({{OFFSET_NAME}})make{{ELEMENT_NAME}}Array:(const {{ELEMENT_OFFSET}} *)elements count:(NSInteger)count {" ;;
  code_mm_append "  return { .offset = _fbb->CreateVector(reinterpret_cast<const {{ELEMENT_FLATBUF}} *>(elements), count).o };" ;;
  code_mm_append "}" ;;
  code_mm_append "" ;;

  keyed ← call (fun self => element_has_key self t);
  when keyed (
    code_h_append "- ({{OFFSET_NAME}})make{{ELEMENT_NAME}}SortedArray:({{ELEMENT_OFFSET}} *)elements count:(NSInteger)count;" ;;

    code_mm_append "- ({{OFFSET_NAME}})make{{ELEMENT_NAME}}SortedArray:({{ELEMENT_OFFSET}} *)elements count:(NSInteger)count {" ;;
    code_mm_append "  return { .offset = _fbb->CreateVectorOfSortedTables(reinterpret_cast<{{ELEMENT_FLATBUF}} *>(elements), count).o };" ;;
    code_mm_append "}" ;;
    code_mm_append "").

Definition GenStructDecl (struct_def : StructDef) : Gen unit :=
  GenComment (doc_comment struct_def) "" ;;
  v ← read (fun self => GenTypeRef_def self struct_def);
  code_h_SetValue "REF_NAME" v ;;
  v ← read (fun self => GenTypeOffset_def self struct_def);
  code_h_SetValue "OFFSET_NAME" v ;;

  when (fixed struct_def) (
    v ← read (fun self => GenTypeInternal_def self struct_def);
    code_h_SetValue "STRUCT_NAME" v ;;
    code_h_append "typedef struct {{STRUCT_NAME}} {" ;;
    for_each (fields struct_def) (fun field =>
      v ← read (fun self => Name self field);
      code_h_SetValue "FIELD_NAME" v ;;
      v ← call (fun self => GenTypeForGet self (type (value field)));
      code_h_SetValue "FIELD_TYPE" v ;;
      GenComment (doc_comment field) "  " ;;
      code_h_append "  {{FIELD_TYPE}} {{FIELD_NAME}};") ;;
    code_h_append "} {{STRUCT_NAME}};" ;;
    code_h_append "") ;;

  code_h_append "typedef struct {{REF_NAME}} { const void *buf; } {{REF_NAME}};" ;;
  code_h_append "typedef struct {{OFFSET_NAME}} { const uint32_t offset; } {{OFFSET_NAME}};" ;;
  code_h_append "".

Definition GenStructFields (struct_def : StructDef) : Gen unit :=
  v ← read (fun self => GenTypeRef_def self struct_def);
  code_h_SetValue "REF_NAME" v ;;
  v ← read (fun self => GenTypeRef_def self struct_def);
  code_mm_SetValue "REF_NAME" v ;;
  v ← read (fun self => GenTypeFlatbuffers_def self struct_def);
  code_mm_SetValue "FLATBUF_NAME" v ;;

  for_each (fields struct_def) (fun field =>
    v ← read (fun self => Name self field);
    code_h_SetValue "FIELD_NAME" v ;;
    v ← call (fun self => GenTypeForGet self (type (value field)));
    code_h_SetValue "FIELD_TYPE" v ;;
    v ← read (fun self => Name self field);
    code_mm_SetValue "FIELD_NAME" v ;;
    v ← call (fun self => GenTypeForGet self (type (value field)));
    code_mm_SetValue "FIELD_TYPE" v ;;
    v ← call (fun _ => GenTypeCastGet (type (value field)));
    code_mm_SetValue "FIELD_CAST" v ;;

    GenComment (doc_comment field) "  " ;;
    code_h_append "{{FIELD_TYPE}} {{REF_NAME}}_{{FIELD_NAME}}({{REF_NAME}} self_) NS_SWIFT_NAME(getter:{{REF_NAME}}.{{FIELD_NAME}}(self:));" ;;

    code_mm_append "{{FIELD_TYPE}} {{REF_NAME}}_{{FIELD_NAME}}({{REF_NAME}} self_) {" ;;
    code_mm_append "  auto value = reinterpret_cast<const {{FLATBUF_NAME}} *>(self_.buf)->{{FIELD_NAME}}();" ;;
    code_mm_append "  return {{FIELD_CAST}};" ;;
    code_mm_append "}" ;;
    code_mm_append "") ;;

  code_h_append "".

Definition GenArrayDecl (t : FbType) : Gen unit :=
  v ← call (fun self => GenTypeRef self t);
  code_h_SetValue "REF_NAME" v ;;
  v ← call (fun self => GenTypeOffset self t);
  code_h_SetValue "OFFSET_NAME" v ;;

  code_h_append "typedef struct {{REF_NAME}} { const void *buf; } {{REF_NAME}};" ;;
  code_h_append "typedef struct {{OFFSET_NAME}} { const uint32_t offset; } {{OFFSET_NAME}};" ;;
  code_h_append "".

Definition GenArrayFields (t : FbType) : Gen unit :=
  v ← call (fun self => GenTypeRef self t);
  code_h_SetValue "REF_NAME" v ;;
  v ← call (fun self => GenTypeOffset self t);
  code_h_SetValue "OFFSET_NAME" v ;;
  v ← call (fun self => GenTypeRef self (VectorType t));
  code_h_SetValue "ELEMENT_NAME" v ;;
  v ← call (fun self => GenTypeRef self t);
  code_mm_SetValue "REF_NAME" v ;;
  v ← call (fun self => GenTypeForGet self (VectorType t));
  code_mm_SetValue "ELEMENT_NAME" v ;;
  v ← call (fun self =>
         sd ← deref (parser_ self) (struct_def (VectorType t));
         Ok (GenTypeFlatbuffers_def self (struct_base sd)));
  code_mm_SetValue "ELEMENT_FLATBUF" v ;;

  code_h_append "NSInteger {{REF_NAME}}_count({{REF_NAME}} self_) NS_SWIFT_NAME(getter:{{REF_NAME}}.count(self:));" ;;
  code_h_append "{{ELEMENT_NAME}} {{REF_NAME}}_subscript({{REF_NAME}} self_, NSInteger index) NS_SWIFT_NAME(getter:{{REF_NAME}}.subscript(self:_:));" ;;

  code_mm_append "NSInteger {{REF_NAME}}_count({{REF_NAME}} self_) {" ;;
  code_mm_append "  auto value = reinterpret_cast<const flatbuffers::Vector<flatbuffers::Offset<{{ELEMENT_FLATBUF}}>> *>(self_.buf)->Length();" ;;
  code_mm_append "  return static_cast<NSInteger>(value);" ;;
  code_mm_append "}" ;;
  code_mm_append "" ;;
  code_mm_append "{{ELEMENT_NAME}} {{REF_NAME}}_subscript({{REF_NAME}} self_, NSInteger index) {" ;;
  code_mm_append "  auto value = reinterpret_cast<const flatbuffers::Vector<flatbuffers::Offset<{{ELEMENT_FLATBUF}}>> *>(self_.buf)->Get(static_cast<flatbuffers::uoffset_t>(index));" ;;
  code_mm_append "  return { .buf = value };" ;;
  code_mm_append "}" ;;
  code_mm_append "" ;;

  keyed ← call (fun self => element_has_key self t);
  when keyed (
    v ← call (fun _ => GenTypeCastGet (VectorType t));
    code_mm_SetValue "FIELD_CAST" v ;;

    sd ← call (fun self => deref (parser_ self) (struct_def (VectorType t)));
    for_each_until (fields sd) (fun field =>
      if key field then
        v ← call (fun _ => GenTypeForKey (type (value field)));
        code_h_SetValue "KEY_TYPE" v ;;
        v ← call (fun _ => GenTypeForKey (type (value field)));
        code_mm_SetValue "KEY_TYPE" v ;;
        v ← call (fun _ => GenTypeCastKey (type (value field)));
        code_mm_SetValue "KEY_CAST" v ;;
        mret true
      else mret false) ;;

    code_h_append "{{ELEMENT_NAME}} {{REF_NAME}}_lookupByKey({{REF_NAME}} self_, {{KEY_TYPE}} key) NS_SWIFT_NAME({{REF_NAME}}.lookup(self:by:));" ;;

    code_mm_append "{{ELEMENT_NAME}} {{REF_NAME}}_lookupByKey({{REF_NAME}} self_, {{KEY_TYPE}} key) {" ;;
    code_mm_append "  auto value = reinterpret_cast<const flatbuffers::Vector<flatbuffers::Offset<{{ELEMENT_FLATBUF}}>> *>(self_.buf)->LookupByKey({{KEY_CAST}});" ;;
    code_mm_append "  return {{FIELD_CAST}};" ;;
    code_mm_append "}" ;;
    code_mm_append "") ;;

  code_h_append "".

Definition GenFinish (struct_def : StructDef) : Gen unit :=
  v ← read (fun self => GenTypeRef_def self struct_def);
  code_h_SetValue "REF_NAME" v ;;
  v ← read (fun self => GenTypeInternal_def self struct_def);
  code_h_SetValue "INTERNAL_NAME" v ;;
  v ← read (fun self => GenTypeOffset_def self struct_def);
  code_h_SetValue "OFFSET_NAME" v ;;
  v ← read (fun self => GenTypeRef_def self struct_def);
  code_mm_SetValue "REF_NAME" v ;;
  v ← read (fun self => GenTypeInternal_def self struct_def);
  code_mm_SetValue "INTERNAL_NAME" v ;;
  v ← read (fun self => GenTypeOffset_def self struct_def);
  code_mm_SetValue "OFFSET_NAME" v ;;
  v ← read (fun self => GenTypeFlatbuffers_def self struct_def);
  code_mm_SetValue "FLATBUF_NAME" v ;;

  code_h_append "- (void)finishWith{{INTERNAL_NAME}}:({{OFFSET_NAME}})offset;" ;;

  code_mm_append "- (void)finishWith{{INTERNAL_NAME}}:({{OFFSET_NAME}})offset {" ;;
  code_mm_append "  _fbb->Finish(flatbuffers::Offset<{{FLATBUF_NAME}}>(offset.offset));" ;;
  code_mm_append "}" ;;
  code_mm_append "".

End Generator.

(** ** [generate], [GenerateSwift] and [SwiftMakeRule] *)

Section Generate.
Context `{Externals}.

Section Collect.
Variable self : SwiftGenerator.

(** The innermost loop of the collection of vector types:
    [for (auto type = field.value.type; type.base_type == BASE_TYPE_VECTOR;
          type = type.VectorType())]. It runs at most twice, since
    [VectorType()] of a vector type has no element type of its own. *)
Fixpoint collect_type (depth : nat)
    (field_type t : FbType) (arrays : Arrays) : Res Arrays :=
  match depth with
  | O => Fail NullDereference
  | S depth =>
      if bool_decide (base_type t = BASE_TYPE_VECTOR) then
        arrays ←
          (if bool_decide (base_type (VectorType t) = BASE_TYPE_VECTOR) ||
              bool_decide (base_type (VectorType t) = BASE_TYPE_STRUCT) ||
              bool_decide (base_type (VectorType t) = BASE_TYPE_UNION)
           then
             k ← GenTypeInternal self field_type;
             Ok (map_assign k field_type arrays)
           else Ok arrays);
        collect_type depth field_type (VectorType t) arrays
      else Ok arrays
  end.

Definition collect_field (field : FieldDef)
    (arrays : Arrays) : Res Arrays :=
  collect_type 3 (type (value field)) (type (value field)) arrays.

Definition collect_struct (struct_def : StructDef)
    (arrays : Arrays) : Res Arrays :=
  for_acc (fields struct_def) collect_field arrays.

(** The first loop nest of [generate], which fills the local [arrays]. *)
Definition collect_arrays : Res Arrays :=
  for_acc (structs_ (parser_ self)) collect_struct [].

End Collect.

(** [a && b] where both operands write files: [b] runs only when [a]
    answered [true]. *)
Definition and_also (a : bool * FileSystem)
    (b : FileSystem -> bool * FileSystem) : bool * FileSystem :=
  if fst a then b (snd a) else a.

Definition generate (disk : FileSystem) : Gen (bool * FileSystem) :=
  code_h_Clear ;;
  code_h_append ("// " +:+ FlatBuffersGeneratedWarning +:+ nl +:+ nl) ;;

  include_guard ← read GenIncludeGuard;
  code_h_append ("#ifndef " +:+ include_guard) ;;
  code_h_append ("#define " +:+ include_guard) ;;
  code_h_append "" ;;
  code_h_append ("#import " +:+ dq +:+ "flatbuffers_swift.h" +:+ dq) ;;
  code_h_append "" ;;

  code_mm_Clear ;;
  code_mm_append ("// " +:+ FlatBuffersGeneratedWarning +:+ nl +:+ nl) ;;
  file_name ← read file_name_;
  code_mm_append ("#import " +:+ dq +:+ file_name +:+ "_generated.h" +:+ dq) ;;
  code_mm_append
    ("#import " +:+ dq +:+ file_name +:+ "_swift_generated.h" +:+ dq) ;;
  code_mm_append "" ;;

  arrays ← call collect_arrays;
  structs ← read (fun self => structs_ (parser_ self));

  (* Generate forward declarations for all structs/tables, since they may
     have circular references. *)
  for_each structs (fun struct_def : StructDef =>
    when (negb (generated struct_def)) (GenStructDecl struct_def)) ;;

  for_each arrays (fun it : string * FbType => GenArrayDecl (snd it)) ;;

  (* Generate code for all structs and tables. *)
  for_each structs (fun struct_def : StructDef =>
    when (negb (generated struct_def)) (GenStructFields struct_def)) ;;

  for_each arrays (fun it : string * FbType => GenArrayFields (snd it)) ;;

  code_h_append "@interface FlatBufferBuilder (XXX)" ;;
  code_mm_append "@implementation FlatBufferBuilder (XXX)" ;;
  code_mm_append "" ;;

  for_each structs (fun struct_def : StructDef =>
    when (negb (generated struct_def) && negb (fixed struct_def))
         (GenBuilders struct_def)) ;;

  for_each arrays (fun it : string * FbType => GenArrayBuilders (snd it)) ;;

  root ← read (fun self => root_struct_def_ (parser_ self));
  when (bool_decide (root ≠ None)) (
    sd ← call (fun self => deref (parser_ self) root);
    GenFinish sd) ;;

  code_h_append "@end" ;;
  code_h_append "" ;;
  code_mm_append "@end" ;;
  code_mm_append "" ;;

  (* Close the include guard. *)
  code_h_append ("#endif  // " +:+ include_guard) ;;

  path ← read path_;
  let file_path_h := GeneratedFileName path file_name "swift_generated.h" in
  final_code_h ← read (fun self => ToString (code_h_ self));
  let file_path_mm := GeneratedFileName path file_name "swift_generated.mm" in
  final_code_mm ← read (fun self => ToString (code_mm_ self));
  let file_path_swift :=
    GeneratedFileName path file_name "swift_generated.swift" in
  final_code_swift ← read (fun self => ToString (code_swift_ self));
  mret (and_also
          (and_also (SaveFile file_path_h final_code_h false disk)
                    (SaveFile file_path_mm final_code_mm false))
          (SaveFile file_path_swift final_code_swift false)).

Definition GenerateSwift (parser : Parser) (path file_name : string)
    (disk : FileSystem) : Outcome (bool * FileSystem) :=
  let generator := SwiftGenerator_new parser path file_name in
  generate disk generator.

Definition SwiftMakeRule (parser : Parser) (path file_name : string)
  : string :=
  let filebase := StripPath (StripExtension file_name) in
  let included_files := GetIncludedFilesRecursive parser file_name in
  let make_rule := "" in
  make_rule.

End Generate.

(** ** A sample environment and a sample schema

    An instance of [Externals] with which the model runs on concrete
    schemas, and a schema with a fixed struct, a keyed table, a table with a
    deprecated field and a vector of tables, and a struct that comes from an
    included file. None of the general theorems depends on them. *)
Module Sample.

Definition qualify (p : Parser) (ns : Namespace) (name : string) : string :=
  foldl (fun acc c => acc +:+ c +:+ "::") "" (components ns) +:+ name.

Definition comment_text (dc : list string) (prefix : string) : string :=
  foldl (fun acc line => acc +:+ prefix +:+ "///" +:+ line +:+ nl) "" dc.

Definition alnum (c : ascii) : bool :=
  let n := N_of_ascii c in
  ((48 <=? n) && (n <=? 57) || (65 <=? n) && (n <=? 90) ||
   (97 <=? n) && (n <=? 122))%N.

(** A writer that keeps the values set on it and the text written so far;
    [w += text] replaces each [{{key}}] by the value of [key], and ends the
    line unless the text ends in a backslash. *)
Fixpoint expand (fuel : nat) (values : gmap string string) (text : string)
  : string * string :=
  match fuel with
  | O => (EmptyString, text)
  | S fuel =>
      match index 0 "{{" text, index 0 "}}" text with
      | Some b, Some e =>
          if (e <? b)%nat then (EmptyString, text)
          else
            let key := substring (b + 2) (e - b - 2) text in
            let rest :=
              substring (e + 2) (String.length text - (e + 2)) text in
            let '(written, rest) := expand fuel values rest in
            (substring 0 b text +:+ default key (values !! key) +:+ written,
             rest)
      | _, _ => (EmptyString, text)
      end
  end.

Fixpoint ends_in_backslash (s : string) : option string :=
  match s with
  | EmptyString => None
  | String c EmptyString =>
      if Ascii.eqb c "\"%char then Some EmptyString else None
  | String c rest =>
      match ends_in_backslash rest with
      | Some front => Some (String c front)
      | None => None
      end
  end.

Definition replay (acc : gmap string string * string) (c : WriterCall)
  : gmap string string * string :=
  match c with
  | WClear => (fst acc, EmptyString)
  | WSetValue k v => (<[k := v]> (fst acc), snd acc)
  | WAppend text =>
      let '(written, rest) := expand (String.length text) (fst acc) text in
      match ends_in_backslash rest with
      | Some front => (fst acc, snd acc +:+ written +:+ front)
      | None => (fst acc, snd acc +:+ written +:+ rest +:+ nl)
      end
  end.

Definition render (w : CodeWriter) : string :=
  snd (foldl replay (∅, EmptyString) w).

Definition save (name buf : string) (binary : bool)
    (disk : list (string * string)) : bool * list (string * string) :=
  if bool_decide (name = EmptyString) then (false, disk)
  else (true, (name, buf) :: disk).

#[export] Instance externals : Externals := {|
  WrapInNameSpace_def := fun p def =>
    qualify p (defined_namespace def) (name def);
  WrapInNameSpace := qualify;
  GenComment_text := comment_text;
  FlatBuffersGeneratedWarning :=
    "automatically generated by the FlatBuffers compiler, do not modify";
  is_alnum := alnum;
  ToString := render;
  FileSystem := list (string * string);
  SaveFile := save;
  StripPath := fun s => s;
  StripExtension := fun s => s;
  GetIncludedFilesRecursive := fun _ _ => []
|}.

Definition ns : Namespace := mkNamespace ["MyGame"].

Definition scalar (b : BaseType) : FbType := mkType b BASE_TYPE_NONE None.

Definition field (n : string) (t : FbType) (dep k : bool) : FieldDef :=
  mkFieldDef (mkDefinition n [] false ns) (mkValue t) dep false k.

Definition Vec3 : StructDef :=
  mkStructDef (mkDefinition "Vec3" [] false ns)
    [ field "x" (scalar BASE_TYPE_FLOAT) false false;
      field "y" (scalar BASE_TYPE_FLOAT) false false;
      field "z" (scalar BASE_TYPE_FLOAT) false false ]
    true false.

Definition Weapon : StructDef :=
  mkStructDef (mkDefinition "Weapon" ["a weapon"] false ns)
    [ field "name" (scalar BASE_TYPE_STRING) false true;
      field "damage" (scalar BASE_TYPE_SHORT) false false ]
    false true.

Definition weapons_type : FbType :=
  mkType BASE_TYPE_VECTOR BASE_TYPE_STRUCT (Some 1).

Definition Monster : StructDef :=
  mkStructDef (mkDefinition "Monster" [] false ns)
    [ field "pos" (mkType BASE_TYPE_STRUCT BASE_TYPE_NONE (Some 0)) false false;
      field "hp" (scalar BASE_TYPE_SHORT) false false;
      field "name" (scalar BASE_TYPE_STRING) false false;
      field "friendly" (scalar BASE_TYPE_BOOL) true false;
      field "weapons" weapons_type false false ]
    false false.

Definition Included : StructDef :=
  mkStructDef (mkDefinition "Included" [] true ns)
    [ field "id" (scalar BASE_TYPE_INT) false false ]
    false false.

Definition schema : Parser :=
  mkParser [Vec3; Weapon; Monster; Included] (Some 2) ns.

(** The same schema without a root type. *)
Definition rootless : Parser :=
  mkParser [Vec3; Weapon; Monster; Included] None ns.

Definition generator : SwiftGenerator :=
  SwiftGenerator_new schema "out/" "monster".

Definition union_type : FbType := mkType BASE_TYPE_UNION BASE_TYPE_NONE None.







End Sample.

(** * Properties *)

(** ** The recursive functions, as the source states them

    The depths chosen above are never exhausted: each function satisfies
    the equation that its C++ body reads. *)
Section Unfolding.
Context `{Externals}.
Variable self : SwiftGenerator.

Lemma GenTypeInternal_unfold (t : FbType) :
  GenTypeInternal self t =
  match base_type t with
  | BASE_TYPE_NONE => Ok "FlatBufferUInt8"
  | BASE_TYPE_UTYPE => Ok "FlatBufferUInt8"
  | BASE_TYPE_BOOL => Ok "FlatBufferBool"
  | BASE_TYPE_CHAR => Ok "FlatBufferInt8"
  | BASE_TYPE_UCHAR => Ok "FlatBufferUInt8"
  | BASE_TYPE_SHORT => Ok "FlatBufferInt16"
  | BASE_TYPE_USHORT => Ok "FlatBufferUInt16"
  | BASE_TYPE_INT => Ok "FlatBufferInt32"
  | BASE_TYPE_UINT => Ok "FlatBufferUInt32"
  | BASE_TYPE_LONG => Ok "FlatBufferInt64"
  | BASE_TYPE_ULONG => Ok "FlatBufferUInt64"
  | BASE_TYPE_FLOAT => Ok "FlatBufferFloat"
  | BASE_TYPE_DOUBLE => Ok "FlatBufferDouble"
  | BASE_TYPE_STRING => Ok "FlatBufferString"
  | BASE_TYPE_VECTOR =>
      s ← GenTypeInternal self (VectorType t); Ok (s +:+ "Array")
  | BASE_TYPE_STRUCT =>
      sd ← deref (parser_ self) (struct_def t);
      Ok (GenTypeInternal_def self (struct_base sd))
  | BASE_TYPE_UNION | BASE_TYPE_ARRAY | BASE_TYPE_unlisted _ => abort
  end.
Proof.
  destruct t as [b e sd]; destruct b; try reflexivity; destruct e; reflexivity.
Qed.

Lemma GenTypeFlatbuffers_unfold (t : FbType) :
  GenTypeFlatbuffers self t =
  match base_type t with
  | BASE_TYPE_NONE | BASE_TYPE_UTYPE | BASE_TYPE_UCHAR => Ok "uint8_t"
  | BASE_TYPE_BOOL => Ok "bool"
  | BASE_TYPE_CHAR => Ok "int8_t"
  | BASE_TYPE_SHORT => Ok "int16_t"
  | BASE_TYPE_USHORT => Ok "uint16_t"
  | BASE_TYPE_INT => Ok "int32_t"
  | BASE_TYPE_UINT => Ok "uint32_t"
  | BASE_TYPE_LONG => Ok "int64_t"
  | BASE_TYPE_ULONG => Ok "uint64_t"
  | BASE_TYPE_FLOAT => Ok "float"
  | BASE_TYPE_DOUBLE => Ok "double"
  | BASE_TYPE_STRING => Ok "flatbuffers::String"
  | BASE_TYPE_VECTOR =>
      s ← GenTypeFlatbuffersOffset self (VectorType t);
      Ok ("flatbuffers::Vector<" +:+ s +:+ ">")
  | BASE_TYPE_STRUCT =>
      sd ← deref (parser_ self) (struct_def t);
      Ok (GenTypeFlatbuffers_def self (struct_base sd))
  | BASE_TYPE_UNION | BASE_TYPE_ARRAY | BASE_TYPE_unlisted _ => abort
  end.
Proof.
  destruct t as [b e sd]; destruct b; try reflexivity; destruct e; reflexivity.
Qed.

Lemma GenTypeFlatbuffersOffset_unfold (t : FbType) :
  GenTypeFlatbuffersOffset self t =
  match base_type t with
  | BASE_TYPE_NONE | BASE_TYPE_UTYPE | BASE_TYPE_BOOL | BASE_TYPE_CHAR
  | BASE_TYPE_UCHAR | BASE_TYPE_SHORT | BASE_TYPE_USHORT | BASE_TYPE_INT
  | BASE_TYPE_UINT | BASE_TYPE_LONG | BASE_TYPE_ULONG | BASE_TYPE_FLOAT
  | BASE_TYPE_DOUBLE =>
      GenTypeFlatbuffers self t
  | BASE_TYPE_STRING | BASE_TYPE_VECTOR =>
      s ← GenTypeFlatbuffers self t;
      Ok ("flatbuffers::Offset<" +:+ s +:+ ">")
  | BASE_TYPE_STRUCT =>
      sd ← deref (parser_ self) (struct_def t);
      Ok (GenTypeFlatbuffersOffset_def self (struct_base sd))
  | BASE_TYPE_UNION | BASE_TYPE_ARRAY | BASE_TYPE_unlisted _ => abort
  end.
Proof.
  destruct t as [b e sd]; destruct b; try reflexivity; destruct e; reflexivity.
Qed.

(** The loop over the nesting of a vector type: one more round as long as
    the type at hand is a vector. *)
Lemma collect_type_unfold (field_type t : FbType) (arrays : Arrays) :
  collect_type self 3 field_type t arrays =
  if bool_decide (base_type t = BASE_TYPE_VECTOR) then
    arrays' ←
      (if bool_decide (base_type (VectorType t) = BASE_TYPE_VECTOR) ||
          bool_decide (base_type (VectorType t) = BASE_TYPE_STRUCT) ||
          bool_decide (base_type (VectorType t) = BASE_TYPE_UNION)
       then
         k ← GenTypeInternal self field_type;
         Ok (map_assign k field_type arrays)
       else Ok arrays);
    collect_type self 3 field_type (VectorType t) arrays'
  else Ok arrays.
Proof.
  destruct t as [b e sd]; destruct b; try reflexivity;
    destruct e; try reflexivity;
    cbn; destruct (GenTypeInternal self field_type); reflexivity.
Qed.

End Unfolding.

(** ** What a method does to the generator object

    The generating methods touch the object in one way only: they call the
    two writers. [with_writers s h mm] is the object [s] with the call
    histories of [code_h_] and [code_mm_] replaced. *)
Definition with_writers (s : SwiftGenerator) (h mm : CodeWriter)
  : SwiftGenerator :=
  {| parser_ := parser_ s; path_ := path_ s; file_name_ := file_name_ s;
     code_h_ := h; code_mm_ := mm;
     code_swift_ := code_swift_ s; keywords_ := keywords_ s |}.

Definition finish {A} (k : Res A) (s : SwiftGenerator) : Outcome A :=
  match k with
  | Ok a => Returned a s
  | Fail why => Stopped why s
  end.

(** [appends Ph Pmm m]: whatever the writers hold, [m] adds the same calls
    to them, all in [Ph] on the header writer and all in [Pmm] on the
    implementation writer, ends the same way, and changes nothing else. *)
Definition appends {A} (Ph Pmm : WriterCall -> Prop) (m : Gen A) : Prop :=
  forall s, exists k dh dmm,
    Forall Ph dh /\ Forall Pmm dmm /\
    forall h mm,
      m (with_writers s h mm) =
      finish k (with_writers s (h ++ dh)%list (mm ++ dmm)%list).

(** A method reading the object is [blind] when it does not read the
    writers. *)
Definition blind {A} (f : SwiftGenerator -> A) : Prop :=
  forall s h mm, f (with_writers s h mm) = f s.

(** The calls that [m] adds to the two writers of [s]. *)
Definition written {A} (m : Gen A) (s : SwiftGenerator)
  : CodeWriter * CodeWriter :=
  let s' := state_of (m (with_writers s [] [])) in (code_h_ s', code_mm_ s').

(** [frames m]: [m] leaves everything but the two writers as it was. *)
Definition frames {A} (m : Gen A) : Prop :=
  forall s, exists h mm, state_of (m s) = with_writers s h mm.

Section Footprint.
Context {A : Type}.
Implicit Types (Ph Pmm : WriterCall -> Prop) (s : SwiftGenerator).

Lemma with_writers_self s : with_writers s (code_h_ s) (code_mm_ s) = s.
Proof. by destruct s. Qed.

Lemma state_of_finish (k : Res A) s : state_of (finish k s) = s.
Proof. by destruct k. Qed.

Lemma bind_returned {B} (m : Gen A) (f : A -> Gen B) s b s2 :
  (m ≫= f) s = Returned b s2 ->
  exists a s1, m s = Returned a s1 /\ f a s1 = Returned b s2.
Proof.
  unfold mbind, Gen_bind. destruct (m s) as [a s1|why s1]; [eauto|done].
Qed.

Lemma appends_ret Ph Pmm (a : A) : appends Ph Pmm (mret a).
Proof.
  intros s. exists (Ok a), [], []. repeat split; [constructor..|].
  intros h mm. by rewrite !app_nil_r.
Qed.

Lemma appends_bind {B} Ph Pmm (m : Gen A) (f : A -> Gen B) :
  appends Ph Pmm m -> (forall a, appends Ph Pmm (f a)) ->
  appends Ph Pmm (m ≫= f).
Proof.
  intros Hm Hf s. destruct (Hm s) as (k & dh & dmm & Hh & Hmm & Hrun).
  destruct k as [a|why].
  - destruct (Hf a s) as (k' & dh' & dmm' & Hh' & Hmm' & Hrun').
    exists k', (dh ++ dh')%list, (dmm ++ dmm')%list.
    split; [by apply Forall_app|]. split; [by apply Forall_app|].
    intros h mm. unfold mbind, Gen_bind. rewrite Hrun. simpl.
    by rewrite Hrun', !app_assoc.
  - exists (Fail why), dh, dmm. repeat split; [done..|].
    intros h mm. unfold mbind, Gen_bind. by rewrite Hrun.
Qed.

Lemma appends_call Ph Pmm (f : SwiftGenerator -> Res A) :
  blind f -> appends Ph Pmm (call f).
Proof.
  intros Hf s. exists (f s), [], []. repeat split; [constructor..|].
  intros h mm. unfold call. rewrite Hf, !app_nil_r. by destruct (f s).
Qed.

Lemma appends_read Ph Pmm (f : SwiftGenerator -> A) :
  blind f -> appends Ph Pmm (read f).
Proof.
  intros Hf s. exists (Ok (f s)), [], []. repeat split; [constructor..|].
  intros h mm. unfold read. by rewrite Hf, !app_nil_r.
Qed.

Lemma appends_weaken (Ph Pmm Qh Qmm : WriterCall -> Prop) (m : Gen A) :
  (forall c, Ph c -> Qh c) -> (forall c, Pmm c -> Qmm c) ->
  appends Ph Pmm m -> appends Qh Qmm m.
Proof.
  intros Hh Hmm Hm s. destruct (Hm s) as (k & dh & dmm & ? & ? & ?).
  exists k, dh, dmm. split; [by eapply Forall_impl|].
  split; [by eapply Forall_impl|done].
Qed.

(** What [appends] says about one run. *)
Lemma appends_state Ph Pmm (m : Gen A) s h mm :
  appends Ph Pmm m ->
  state_of (m (with_writers s h mm)) =
    with_writers s (h ++ (written m s).1)%list (mm ++ (written m s).2)%list
  /\ Forall Ph (written m s).1 /\ Forall Pmm (written m s).2.
Proof.
  intros Hm. destruct (Hm s) as (k & dh & dmm & Hh & Hmm & Hrun).
  unfold written. rewrite !Hrun, !state_of_finish. by simpl.
Qed.

Lemma appends_returned Ph Pmm (m : Gen A) s h mm a s' :
  appends Ph Pmm m ->
  m (with_writers s h mm) = Returned a s' ->
  s' = with_writers s (h ++ (written m s).1)%list
                      (mm ++ (written m s).2)%list.
Proof.
  intros Hm Hrun.
  destruct (appends_state _ _ m s h mm Hm) as [Hs _].
  by rewrite Hrun in Hs.
Qed.

Lemma appends_frames Ph Pmm (m : Gen A) : appends Ph Pmm m -> frames m.
Proof.
  intros Hm s.
  destruct (appends_state _ _ m s (code_h_ s) (code_mm_ s) Hm) as [Hs _].
  rewrite with_writers_self in Hs. eauto.
Qed.

Lemma frames_ret (a : A) : frames (mret a).
Proof. intros s. exists (code_h_ s), (code_mm_ s). by destruct s. Qed.

Lemma frames_read (f : SwiftGenerator -> A) : frames (read f).
Proof. intros s. exists (code_h_ s), (code_mm_ s). by destruct s. Qed.

Lemma frames_bind {B} (m : Gen A) (f : A -> Gen B) :
  frames m -> (forall a, frames (f a)) -> frames (m ≫= f).
Proof.
  intros Hm Hf s. destruct (Hm s) as (h & mm & Hs).
  unfold mbind, Gen_bind. destruct (m s) as [a s1|why s1]; simpl in Hs.
  - destruct (Hf a s1) as (h' & mm' & Hs'). exists h', mm'.
    by rewrite Hs', Hs.
  - exists h, mm. by rewrite <- Hs.
Qed.

End Footprint.

Lemma appends_on_h (Ph Pmm : WriterCall -> Prop) (c : WriterCall) :
  Ph c -> appends Ph Pmm (on_h c).
Proof.
  intros Hc s. exists (Ok tt), [c], []. repeat split; [by repeat constructor..|].
  intros h mm. unfold on_h. by rewrite app_nil_r.
Qed.

Lemma appends_on_mm (Ph Pmm : WriterCall -> Prop) (c : WriterCall) :
  Pmm c -> appends Ph Pmm (on_mm c).
Proof.
  intros Hc s. exists (Ok tt), [], [c]. repeat split; [by repeat constructor..|].
  intros h mm. unfold on_mm. by rewrite app_nil_r.
Qed.

Lemma appends_when (Ph Pmm : WriterCall -> Prop) (c : bool) (m : Gen unit) :
  appends Ph Pmm m -> appends Ph Pmm (when c m).
Proof. destruct c; [done|]. intros _. apply appends_ret. Qed.

Lemma appends_for_each {A} (Ph Pmm : WriterCall -> Prop) (l : list A)
    (body : A -> Gen unit) :
  (forall x, appends Ph Pmm (body x)) -> appends Ph Pmm (for_each l body).
Proof.
  intros Hbody. induction l as [|x l IH]; [apply appends_ret|].
  simpl. by apply appends_bind.
Qed.

Lemma appends_for_each_until {A} (Ph Pmm : WriterCall -> Prop) (l : list A)
    (body : A -> Gen bool) :
  (forall x, appends Ph Pmm (body x)) ->
  appends Ph Pmm (for_each_until l body).
Proof.
  intros Hbody. induction l as [|x l IH]; [apply appends_ret|].
  simpl. apply appends_bind; [done|]. intros []; [apply appends_ret|done].
Qed.

Lemma written_when (c : bool) (m : Gen unit) (s : SwiftGenerator) :
  written (when c m) s = if c then written m s else ([], []).
Proof. by destruct c. Qed.

(** A loop over methods that only append writes the concatenation of what
    its rounds write. *)
Lemma for_each_returned {A} (Ph Pmm : WriterCall -> Prop) (l : list A)
    (body : A -> Gen unit) s h mm s' :
  (forall x, appends Ph Pmm (body x)) ->
  for_each l body (with_writers s h mm) = Returned tt s' ->
  s' = with_writers s
         (h ++ flat_map (fun x => (written (body x) s).1) l)%list
         (mm ++ flat_map (fun x => (written (body x) s).2) l)%list.
Proof.
  intros Hbody. revert h mm. induction l as [|x l IH]; intros h mm Hrun.
  - simpl in *. rewrite !app_nil_r. by injection Hrun as <-.
  - simpl in Hrun. apply bind_returned in Hrun as (a & s1 & H1 & H2).
    apply (appends_returned _ _ _ _ _ _ _ _ (Hbody x)) in H1. subst s1.
    apply IH in H2. subst s'. simpl. by rewrite !app_assoc.
Qed.

Lemma flat_map_when {A B} (live : A -> bool) (f : A -> list B) (l : list A) :
  flat_map (fun x => if live x then f x else []) l = flat_map f (filter live l).
Proof.
  induction l as [|x l IH]; [done|]. rewrite filter_cons. simpl.
  destruct (live x); simpl; by rewrite IH.
Qed.


(** The rules above, applied along the text of a method. [side] settles
    that a call made on a writer is one of the allowed ones. *)
Ltac blind_tac := intros ? ? ?; reflexivity.

Ltac appends_step side :=
  lazymatch goal with
  | |- appends _ _ (mbind _ _) => apply appends_bind; [|intros ?]
  | |- appends _ _ (mret _) => apply appends_ret
  | |- appends _ _ (on_h _) => apply appends_on_h; side
  | |- appends _ _ (on_mm _) => apply appends_on_mm; side
  | |- appends _ _ (call _) => apply appends_call; blind_tac
  | |- appends _ _ (read _) => apply appends_read; blind_tac
  | |- appends _ _ (when _ _) => apply appends_when
  | |- appends _ _ (for_each _ _) => apply appends_for_each; intros ?
  | |- appends _ _ (for_each_until _ _) =>
      apply appends_for_each_until; intros ?
  | |- appends _ _ (if ?c then _ else _) => destruct c
  end.

Ltac appends_tac side :=
  unfold GenComment, code_h_append, code_mm_append, code_h_SetValue,
    code_mm_SetValue, code_h_Clear, code_mm_Clear;
  cbv zeta;
  repeat appends_step side.

Definition any_call (c : WriterCall) : Prop := True.

Section MethodsAppend.
Context `{Externals}.

Lemma GenStructDecl_appends sd : appends any_call any_call (GenStructDecl sd).
Proof. unfold GenStructDecl. appends_tac ltac:(exact I). Qed.

Lemma GenStructFields_appends sd :
  appends any_call any_call (GenStructFields sd).
Proof. unfold GenStructFields. appends_tac ltac:(exact I). Qed.

Lemma GenBuilders_appends sd : appends any_call any_call (GenBuilders sd).
Proof. unfold GenBuilders. appends_tac ltac:(exact I). Qed.

Lemma GenArrayDecl_appends t : appends any_call any_call (GenArrayDecl t).
Proof. unfold GenArrayDecl. appends_tac ltac:(exact I). Qed.

Lemma GenArrayFields_appends t : appends any_call any_call (GenArrayFields t).
Proof. unfold GenArrayFields. appends_tac ltac:(exact I). Qed.

Lemma GenArrayBuilders_appends t :
  appends any_call any_call (GenArrayBuilders t).
Proof. unfold GenArrayBuilders. appends_tac ltac:(exact I). Qed.

Lemma GenFinish_appends sd : appends any_call any_call (GenFinish sd).
Proof. unfold GenFinish. appends_tac ltac:(exact I). Qed.

Lemma generate_frames disk : frames (generate disk).
Proof.
  unfold generate. cbv zeta.
  repeat lazymatch goal with
  | |- frames (mbind _ (read _)) => apply frames_bind; [apply frames_read|intros ?]
  | |- frames (mbind _ _) =>
      apply frames_bind;
      [ apply (appends_frames any_call any_call);
        unfold GenStructDecl, GenStructFields, GenBuilders, GenArrayDecl,
          GenArrayFields, GenArrayBuilders, GenFinish;
        appends_tac ltac:(exact I)
      | intros ? ]
  | |- frames (mret _) => apply frames_ret
  end.
Qed.

End MethodsAppend.

(** ** Unsupported types *)

(** The variants of [BaseType] that no rendering context supports: unions,
    arrays, and whatever falls to the [default:] label. *)
Definition unsupported (b : BaseType) : Prop :=
  b = BASE_TYPE_UNION \/ b = BASE_TYPE_ARRAY \/
  exists raw, b = BASE_TYPE_unlisted raw.

(** C1. On a type whose base type is a union, an array or a value outside
    the enumerators, each of the eleven type-rendering dispatch functions
    stops in abort() and renders nothing. *)
Theorem unsupported_types_abort `{Externals} (self : SwiftGenerator)
    (t : FbType) (name : string) :
  unsupported (base_type t) ->
  GenTypeInternal self t = Fail AbortCalled /\
  GenTypeFlatbuffers self t = Fail AbortCalled /\
  GenTypeFlatbuffersOffset self t = Fail AbortCalled /\
  GenTypeOffset self t = Fail AbortCalled /\
  GenTypeRef self t = Fail AbortCalled /\
  GenTypeForGet self t = Fail AbortCalled /\
  GenTypeForSet self t = Fail AbortCalled /\
  GenTypeForKey t = Fail AbortCalled /\
  GenTypeCastGet t = Fail AbortCalled /\
  GenTypeCastKey t = Fail AbortCalled /\
  GenTypeCastSet self t name = Fail AbortCalled.
Proof.
  destruct t as [b e sd]. simpl.
  intros [->|[->|[raw ->]]]; repeat split; reflexivity.
Qed.

Lemma unsupported_types_abort_witness :
  unsupported (base_type Sample.union_type) /\
  GenTypeForKey Sample.union_type = Fail AbortCalled.
Proof.
  split.
  - left. reflexivity.
  - apply (@unsupported_types_abort Sample.externals Sample.generator
             Sample.union_type "u").
    left. reflexivity.
Defined.

(** ** The schema model is only read *)

(** C2. Running the backend leaves the schema model as it was: the parser
    held by the generator object when generate() returns or stops is the
    parser it was given, struct definitions, fields, types and namespaces
    included. *)
Theorem generate_leaves_model_unchanged `{Externals} (parser : Parser)
    (path file_name : string) (disk : FileSystem) (s : SwiftGenerator) :
  parser_ (state_of (GenerateSwift parser path file_name disk)) = parser /\
  parser_ (state_of (generate disk s)) = parser_ s.
Proof.
  split.
  - unfold GenerateSwift.
    destruct (generate_frames disk (SwiftGenerator_new parser path file_name))
      as (h & mm & ->).
    reflexivity.
  - destruct (generate_frames disk s) as (h & mm & ->). reflexivity.
Qed.

(** ** Following one run of a method

    Each lemma reads, from the fact that a step returned, the value it
    returned and the state it left. *)
Lemma on_h_returned (c : WriterCall) s h mm a s' :
  on_h c (with_writers s h mm) = Returned a s' ->
  s' = with_writers s (h ++ [c])%list mm.
Proof. unfold on_h. by intros [= _ <-]. Qed.

Lemma on_mm_returned (c : WriterCall) s h mm a s' :
  on_mm c (with_writers s h mm) = Returned a s' ->
  s' = with_writers s h (mm ++ [c])%list.
Proof. unfold on_mm. by intros [= _ <-]. Qed.

Lemma read_returned {A} (f : SwiftGenerator -> A) s h mm a s' :
  blind f ->
  read f (with_writers s h mm) = Returned a s' ->
  a = f s /\ s' = with_writers s h mm.
Proof. unfold read. intros Hf [= <- <-]. by rewrite Hf. Qed.

Lemma call_returned {A} (f : SwiftGenerator -> Res A) s h mm a s' :
  blind f ->
  call f (with_writers s h mm) = Returned a s' ->
  f s = Ok a /\ s' = with_writers s h mm.
Proof.
  unfold call. intros Hf. rewrite Hf. destruct (f s); [|done].
  by intros [= <- <-].
Qed.

Lemma ret_returned {A} (x a : A) (s s' : SwiftGenerator) :
  (mret x : Gen A) s = Returned a s' -> a = x /\ s' = s.
Proof. by intros [= <- <-]. Qed.

(** A method may be replaced by its body in a run. *)
Lemma run_eq {A} (m m' : Gen A) s o : m = m' -> m s = o -> m' s = o.
Proof. by intros ->. Qed.

Lemma Returned_state {A} (a b : A) (s1 s2 : SwiftGenerator) :
  Returned a s1 = Returned b s2 -> s1 = s2.
Proof. by intros [= _ ->]. Qed.

(** One step of a run held in hypothesis [H]. *)
Ltac walk_head H :=
  lazymatch type of H with
  | on_h _ _ = Returned _ _ => apply on_h_returned in H; subst
  | on_mm _ _ = Returned _ _ => apply on_mm_returned in H; subst
  | read _ _ = Returned _ _ =>
      apply read_returned in H; [destruct H as [? ?]; subst | blind_tac]
  | call _ _ = Returned _ _ =>
      apply call_returned in H; [destruct H as [? ?]; subst | blind_tac]
  | mret _ _ = Returned _ _ =>
      apply ret_returned in H; destruct H as [? ?]; subst
  end.

Ltac walk_prepare H :=
  unfold GenComment, code_h_append, code_mm_append, code_h_SetValue,
    code_mm_SetValue, code_h_Clear, code_mm_Clear in H;
  cbv zeta in H.

Ltac walk_bind H :=
  let a := fresh "a" in
  let s1 := fresh "s" in
  let H1 := fresh "Hstep" in
  apply bind_returned in H as (a & s1 & H1 & H);
  walk_head H1.

(** The steps of a run as long as they are writer calls, reads and calls
    of reading methods; the walk halts in front of a loop or a branch. *)
Ltac walk H :=
  walk_prepare H;
  repeat lazymatch type of H with
  | mbind _ (on_h _) _ = Returned _ _ => walk_bind H
  | mbind _ (on_mm _) _ = Returned _ _ => walk_bind H
  | mbind _ (read _) _ = Returned _ _ => walk_bind H
  | mbind _ (call _) _ = Returned _ _ => walk_bind H
  | mbind _ (mret _) _ = Returned _ _ => walk_bind H
  end;
  try walk_head H.

(** ** The build rule *)

(** The rule that the specification describes: it names the generated file
    and every file included by the schema. *)
Definition names (rule part : string) : Prop :=
  exists before after, rule = before +:+ part +:+ after.

Definition is_make_rule_for `{Externals} (parser : Parser)
    (path file_name rule : string) : Prop :=
  names rule (path +:+ StripPath (StripExtension file_name)) /\
  forall f, f ∈ GetIncludedFilesRecursive parser file_name -> names rule f.

(** C7, as stated, fails: for the sample schema the rule returned names
    no generated file. *)
Lemma SwiftMakeRule_names_no_file :
  ~ @is_make_rule_for Sample.externals Sample.schema "out/" "monster.fbs"
      (@SwiftMakeRule Sample.externals Sample.schema "out/" "monster.fbs").
Proof.
  intros [(before & after & Hrule) _]. cbn in Hrule.
  destruct before; discriminate.
Qed.

(** C7, amended. SwiftMakeRule returns a string for every parser, path and
    file name, and that string is empty: the text of the rule is not
    built. *)
Theorem SwiftMakeRule_is_empty `{Externals} (parser : Parser)
    (path file_name : string) :
  SwiftMakeRule parser path file_name = EmptyString.
Proof. reflexivity. Qed.

(** ** Deprecated fields *)

(** A struct definition without its deprecated fields. *)
Definition without_deprecated (sd : StructDef) : StructDef :=
  {| struct_base := struct_base sd;
     fields := filter (fun f => negb (deprecated f)) (fields sd);
     fixed := fixed sd;
     has_key := has_key sd |}.

(** The string of a result that is known to be there. *)
Definition rendered (r : Res string) : string :=
  match r with
  | Ok text => text
  | Fail _ => EmptyString
  end.

Definition renders (r : Res string) : Prop := exists text, r = Ok text.

Section Accessors.
Context `{Externals}.
Variable self : SwiftGenerator.

(** What GenStructFields calls on the header writer for one field. *)
Definition accessor_h (field : FieldDef) : list WriterCall :=
  [ WSetValue "FIELD_NAME" (Name self field);
    WSetValue "FIELD_TYPE" (rendered (GenTypeForGet self (type (value field))));
    WAppend (GenComment_text (doc_comment field) "  " +:+ "\");
    WAppend "{{FIELD_TYPE}} {{REF_NAME}}_{{FIELD_NAME}}({{REF_NAME}} self_) NS_SWIFT_NAME(getter:{{REF_NAME}}.{{FIELD_NAME}}(self:));" ].

(** What it calls on the implementation writer for one field. *)
Definition accessor_mm (field : FieldDef) : list WriterCall :=
  [ WSetValue "FIELD_NAME" (Name self field);
    WSetValue "FIELD_TYPE" (rendered (GenTypeForGet self (type (value field))));
    WSetValue "FIELD_CAST" (rendered (GenTypeCastGet (type (value field))));
    WAppend "{{FIELD_TYPE}} {{REF_NAME}}_{{FIELD_NAME}}({{REF_NAME}} self_) {";
    WAppend "  auto value = reinterpret_cast<const {{FLATBUF_NAME}} *>(self_.buf)->{{FIELD_NAME}}();";
    WAppend "  return {{FIELD_CAST}};";
    WAppend "}";
    WAppend "" ].

End Accessors.

Section Deprecated.
Context `{Externals}.

Lemma GenCreateSelector_loop_live self fs first result :
  GenCreateSelector_loop self fs first result =
  GenCreateSelector_loop self (filter (fun f => negb (deprecated f)) fs)
    first result.
Proof.
  revert first result. induction fs as [|f fs IH]; intros first result.
  - reflexivity.
  - rewrite filter_cons. simpl.
    destruct (deprecated f) eqn:Hd; simpl; rewrite ?Hd; simpl.
    + apply IH.
    + destruct (GenParamSwift self f first); simpl; [apply IH|done].
Qed.

Lemma GenCreateSelector_live self sd :
  GenCreateSelector self sd = GenCreateSelector self (without_deprecated sd).
Proof. unfold GenCreateSelector. simpl. apply GenCreateSelector_loop_live. Qed.

Lemma bind_ext {A B} (m1 m2 : Gen A) (f1 f2 : A -> Gen B) :
  (forall s, m1 s = m2 s) -> (forall a s, f1 a s = f2 a s) ->
  forall s, (m1 ≫= f1) s = (m2 ≫= f2) s.
Proof.
  intros Hm Hf s. unfold mbind, Gen_bind. rewrite Hm.
  destruct (m2 s); [apply Hf|done].
Qed.

Lemma call_ext {A} (f g : SwiftGenerator -> Res A) :
  (forall s, f s = g s) -> forall s, call f s = call g s.
Proof. intros Hfg s. unfold call. by rewrite Hfg. Qed.

(** A loop whose body does nothing on the elements outside [live] is the
    loop over the elements in [live]. *)
Lemma for_each_live {A} (live : A -> bool) (body : A -> Gen unit) l :
  (forall x s, live x = false -> body x s = Returned tt s) ->
  forall s, for_each l body s = for_each (filter live l) body s.
Proof.
  intros Hskip. induction l as [|x l IH]; intros s; [done|].
  rewrite filter_cons. destruct (live x) eqn:Hx; simpl.
  - apply bind_ext; [done|]. intros _. apply IH.
  - unfold mbind, Gen_bind. rewrite (Hskip x s Hx). apply IH.
Qed.

Lemma GenBuilders_live sd s :
  GenBuilders sd s = GenBuilders (without_deprecated sd) s.
Proof.
  revert s. unfold GenBuilders.
  repeat (apply bind_ext; [first [reflexivity | intros s; apply call_ext;
                                   intros s'; apply GenCreateSelector_live]
                          |intros ?]).
  apply bind_ext.
  { intros s. simpl.
    apply (for_each_live (fun f => negb (deprecated f))).
    intros f s' Hf. by rewrite Hf. }
  intros _.
  apply bind_ext; [done|]. intros _.
  apply bind_ext; [|done].
  intros s. simpl. apply (for_each_live (fun f => negb (deprecated f))).
  intros f s' Hf. by rewrite Hf.
Qed.

(** The loop of GenStructFields over the fields, round by round. *)
Lemma GenStructFields_returned sd s s' :
  GenStructFields sd s = Returned tt s' ->
  Forall (fun f => renders (GenTypeForGet s (type (value f))) /\
                   renders (GenTypeCastGet (type (value f)))) (fields sd) /\
  s' = with_writers s
         (code_h_ s ++
          [WSetValue "REF_NAME" (GenTypeRef_def s sd)] ++
          flat_map (accessor_h s) (fields sd) ++ [WAppend ""])%list
         (code_mm_ s ++
          [WSetValue "REF_NAME" (GenTypeRef_def s sd);
           WSetValue "FLATBUF_NAME" (GenTypeFlatbuffers_def s sd)] ++
          flat_map (accessor_mm s) (fields sd))%list.
Proof.
  intros Hrun.
  eapply run_eq in Hrun; [|unfold GenStructFields; reflexivity].
  rewrite <- (with_writers_self s) in Hrun. walk Hrun.
  apply bind_returned in Hrun as ([] & s1 & Hloop & Hrun).
  match type of Hloop with
  | for_each _ ?body _ = _ =>
      assert (forall fs h mm s1,
        for_each fs body (with_writers s h mm) = Returned tt s1 ->
        Forall (fun f => renders (GenTypeForGet s (type (value f))) /\
                         renders (GenTypeCastGet (type (value f)))) fs /\
        s1 = with_writers s (h ++ flat_map (accessor_h s) fs)%list
                            (mm ++ flat_map (accessor_mm s) fs)%list) as Hind
  end.
  { clear. induction fs as [|f fs IH]; intros h mm s1 Hfs.
    - simpl in Hfs. apply ret_returned in Hfs as [_ ->].
      split; [constructor|]. simpl. by rewrite !app_nil_r.
    - simpl in Hfs. apply bind_returned in Hfs as ([] & s2 & Hbody & Hfs).
      walk Hbody. apply IH in Hfs as [Hok ->].
      split.
      + constructor; [|done]. cbv beta. split; eexists; eassumption.
      + repeat match goal with
               | Ha : ?r = Ok ?x, Hb : ?r = Ok ?y |- _ =>
                   assert (y = x) by congruence; subst y; clear Hb
               end.
        simpl. unfold accessor_h, accessor_mm.
        repeat match goal with Hr : _ = Ok _ |- _ => rewrite Hr; clear Hr end.
        simpl. by rewrite <- !app_assoc. }
  apply Hind in Hloop as [Hok ->]. walk Hrun.
  split; [done|]. simpl. by rewrite <- !app_assoc.
Qed.

End Deprecated.

(** C9. Deprecated fields are left out of the builder and kept in the
    readers. The creation selector and the whole builder method of a struct
    are those of the struct without its deprecated fields; and when
    GenStructFields returns, it has written one accessor for every field of
    the struct, deprecated or not, in the order of the fields. *)
Theorem deprecated_fields_asymmetry `{Externals} (sd : StructDef)
    (s : SwiftGenerator) :
  GenCreateSelector s sd = GenCreateSelector s (without_deprecated sd) /\
  GenBuilders sd s = GenBuilders (without_deprecated sd) s /\
  forall s', GenStructFields sd s = Returned tt s' ->
    Forall (fun f => renders (GenTypeForGet s (type (value f))) /\
                     renders (GenTypeCastGet (type (value f)))) (fields sd) /\
    s' = with_writers s
           (code_h_ s ++
            [WSetValue "REF_NAME" (GenTypeRef_def s sd)] ++
            flat_map (accessor_h s) (fields sd) ++ [WAppend ""])%list
           (code_mm_ s ++
            [WSetValue "REF_NAME" (GenTypeRef_def s sd);
             WSetValue "FLATBUF_NAME" (GenTypeFlatbuffers_def s sd)] ++
            flat_map (accessor_mm s) (fields sd))%list.
Proof.
  split; [apply GenCreateSelector_live|].
  split; [apply GenBuilders_live|].
  intros s'. apply GenStructFields_returned.
Qed.

Lemma deprecated_fields_asymmetry_witness :
  @GenStructFields Sample.externals Sample.Monster Sample.generator =
    Returned tt
      (state_of
         (@GenStructFields Sample.externals Sample.Monster Sample.generator))
  /\ In (WSetValue "FIELD_NAME" "friendly")
        (code_h_
           (state_of
              (@GenStructFields Sample.externals Sample.Monster
                 Sample.generator))).
Proof.
  split; [vm_compute; reflexivity|].
  destruct (proj2 (proj2 (@deprecated_fields_asymmetry Sample.externals
                            Sample.Monster Sample.generator))
              (state_of
                 (@GenStructFields Sample.externals Sample.Monster
                    Sample.generator)))
    as [_ ->]; [vm_compute; reflexivity|].
  vm_compute. tauto.
Defined.

(** ** Vectors of keyed tables *)



Definition lookup_decl : string :=
  "{{ELEMENT_NAME}} {{REF_NAME}}_lookupByKey({{REF_NAME}} self_, {{KEY_TYPE}} key) NS_SWIFT_NAME({{REF_NAME}}.lookup(self:by:));".

Definition lookup_call : string :=
  "  auto value = reinterpret_cast<const flatbuffers::Vector<flatbuffers::Offset<{{ELEMENT_FLATBUF}}>> *>(self_.buf)->LookupByKey({{KEY_CAST}});".

(** The values given to the key [k] by a sequence of writer calls. *)
Definition values_set (k : string) (calls : list WriterCall) : list string :=
  omap (fun c => match c with
                 | WSetValue k' v => if bool_decide (k' = k) then Some v else None
                 | _ => None
                 end) calls.

(** The first field that carries the key flag. *)
Definition first_key_field (fs : list FieldDef) : option FieldDef :=
  List.find key fs.

(** What the key loop of GenArrayFields calls on the two writers. *)
Definition key_calls_h (fs : list FieldDef) : list WriterCall :=
  match first_key_field fs with
  | Some f =>
      [WSetValue "KEY_TYPE" (rendered (GenTypeForKey (type (value f))))]
  | None => []
  end.

Definition key_calls_mm (fs : list FieldDef) : list WriterCall :=
  match first_key_field fs with
  | Some f =>
      [WSetValue "KEY_TYPE" (rendered (GenTypeForKey (type (value f))));
       WSetValue "KEY_CAST" (rendered (GenTypeCastKey (type (value f))))]
  | None => []
  end.

Section KeyedVectors.
Context `{Externals}.



Lemma GenArrayFields_returned t s s' :
  GenArrayFields t s = Returned tt s' ->
  exists keyed ref offset elem_ref elem_get sd,
    element_has_key s t = Ok keyed /\
    GenTypeRef s t = Ok ref /\
    GenTypeOffset s t = Ok offset /\
    GenTypeRef s (VectorType t) = Ok elem_ref /\
    GenTypeForGet s (VectorType t) = Ok elem_get /\
    deref (parser_ s) (struct_def (VectorType t)) = Ok sd /\
    (keyed = true ->
     forall f, first_key_field (fields sd) = Some f ->
       renders (GenTypeForKey (type (value f))) /\
       renders (GenTypeCastKey (type (value f)))) /\
    s' = with_writers s
      (code_h_ s ++
       [ WSetValue "REF_NAME" ref; WSetValue "OFFSET_NAME" offset;
         WSetValue "ELEMENT_NAME" elem_ref;
         WAppend "NSInteger {{REF_NAME}}_count({{REF_NAME}} self_) NS_SWIFT_NAME(getter:{{REF_NAME}}.count(self:));";
         WAppend "{{ELEMENT_NAME}} {{REF_NAME}}_subscript({{REF_NAME}} self_, NSInteger index) NS_SWIFT_NAME(getter:{{REF_NAME}}.subscript(self:_:));" ] ++
       (if keyed then key_calls_h (fields sd) ++ [WAppend lookup_decl]
        else []) ++
       [WAppend ""])%list
      (code_mm_ s ++
       [ WSetValue "REF_NAME" ref; WSetValue "ELEMENT_NAME" elem_get;
         WSetValue "ELEMENT_FLATBUF" (GenTypeFlatbuffers_def s sd);
         WAppend "NSInteger {{REF_NAME}}_count({{REF_NAME}} self_) {";
         WAppend "  auto value = reinterpret_cast<const flatbuffers::Vector<flatbuffers::Offset<{{ELEMENT_FLATBUF}}>> *>(self_.buf)->Length();";
         WAppend "  return static_cast<NSInteger>(value);";
         WAppend "}"; WAppend "";
         WAppend "{{ELEMENT_NAME}} {{REF_NAME}}_subscript({{REF_NAME}} self_, NSInteger index) {";
         WAppend "  auto value = reinterpret_cast<const flatbuffers::Vector<flatbuffers::Offset<{{ELEMENT_FLATBUF}}>> *>(self_.buf)->Get(static_cast<flatbuffers::uoffset_t>(index));";
         WAppend "  return { .buf = value };";
         WAppend "}"; WAppend "" ] ++
       (if keyed then
          [WSetValue "FIELD_CAST" (rendered (GenTypeCastGet (VectorType t)))] ++
          key_calls_mm (fields sd) ++
          [ WAppend "{{ELEMENT_NAME}} {{REF_NAME}}_lookupByKey({{REF_NAME}} self_, {{KEY_TYPE}} key) {";
            WAppend lookup_call;
            WAppend "  return {{FIELD_CAST}};";
            WAppend "}"; WAppend "" ]
        else []))%list.
Proof.
  intros Hrun.
  eapply run_eq in Hrun; [|unfold GenArrayFields; reflexivity].
  rewrite <- (with_writers_self s) in Hrun. walk Hrun.
  repeat match goal with
         | Ha : ?r = Ok ?x, Hb : ?r = Ok ?y |- _ =>
             assert (y = x) by congruence; subst y; clear Hb
         end.
  match goal with
  | Hd : (_ ≫= _) = Ok ?v |- _ =>
      destruct (deref (parser_ s) (struct_def (VectorType t))) as [sd|]
        eqn:Hsd; [simpl in Hd; injection Hd as <-|done]
  end.
  match goal with Hk : element_has_key s t = Ok ?k |- _ => exists k end.
  do 4 eexists. exists sd. do 6 (split; [eassumption || reflexivity|]).
  apply bind_returned in Hrun as ([] & s1 & Hwhen & Hrun).
  match goal with Hk : element_has_key s t = Ok ?k |- _ => destruct k end;
    unfold when in Hwhen.
  - walk Hwhen.
    match goal with
    | Hd : deref _ _ = Ok ?sd' |- _ =>
        assert (sd' = sd) by congruence; subst sd'
    end.
    apply bind_returned in Hwhen as ([] & s2 & Hloop & Hwhen).
    match type of Hloop with
    | for_each_until _ ?body _ = _ =>
        assert (forall fs h mm s1,
          for_each_until fs body (with_writers s h mm) = Returned tt s1 ->
          (forall f, first_key_field fs = Some f ->
             renders (GenTypeForKey (type (value f))) /\
             renders (GenTypeCastKey (type (value f)))) /\
          s1 = with_writers s (h ++ key_calls_h fs)%list
                              (mm ++ key_calls_mm fs)%list) as Hind
    end.
    { clear. induction fs as [|f fs IH]; intros h mm s1 Hfs.
      - simpl in Hfs. apply ret_returned in Hfs as [_ ->].
        split; [done|]. unfold key_calls_h, key_calls_mm. simpl.
        by rewrite !app_nil_r.
      - simpl in Hfs. apply bind_returned in Hfs as (stop & s2 & Hbody & Hfs).
        unfold key_calls_h, key_calls_mm, first_key_field in *. simpl.
        destruct (key f).
        + walk Hbody.
          repeat match goal with
                 | Ha : ?r = Ok ?x, Hb : ?r = Ok ?y |- _ =>
                     assert (y = x) by congruence; subst y; clear Hb
                 end.
          apply ret_returned in Hfs as [_ ->].
          split.
          * intros f' [= <-]. split; eexists; eassumption.
          * repeat match goal with
                   | Hr : _ = Ok _ |- _ => rewrite Hr; clear Hr
                   end.
            simpl. by rewrite <- !app_assoc.
        + walk Hbody. by apply IH in Hfs. }
    apply Hind in Hloop as [Hkey ->]. walk Hwhen. walk Hrun.
    split; [by intros _|].
    simpl. rewrite <- ?app_assoc. simpl. rewrite <- ?app_assoc. simpl.
    repeat match goal with
           | Hr : _ = Ok _ |- _ => rewrite Hr; clear Hr
           end.
    reflexivity.
  - apply ret_returned in Hwhen as [_ ->]. walk Hrun.
    split; [done|]. simpl. by rewrite <- ?app_assoc.
Qed.

End KeyedVectors.



(** ** The order of the output of [generate] *)

(** The calls of generating methods that [generate] makes between the
    opening lines and the closing lines of the two files. *)
Inductive Emission : Set :=
  | EStructDecl (sd : StructDef)
  | EArrayDecl (t : FbType)
  | EStructFields (sd : StructDef)
  | EArrayFields (t : FbType)
  | EBuilderInterface
  | EBuilders (sd : StructDef)
  | EArrayBuilders (t : FbType)
  | EFinish (sd : StructDef).

Definition emit `{Externals} (e : Emission) : Gen unit :=
  match e with
  | EStructDecl sd => GenStructDecl sd
  | EArrayDecl t => GenArrayDecl t
  | EStructFields sd => GenStructFields sd
  | EArrayFields t => GenArrayFields t
  | EBuilderInterface =>
      code_h_append "@interface FlatBufferBuilder (XXX)" ;;
      code_mm_append "@implementation FlatBufferBuilder (XXX)" ;;
      code_mm_append ""
  | EBuilders sd => GenBuilders sd
  | EArrayBuilders t => GenArrayBuilders t
  | EFinish sd => GenFinish sd
  end.

(** The structs that [generate] emits, and those it emits a builder for. *)
Definition emitted_structs (p : Parser) : list StructDef :=
  filter (fun sd : StructDef => negb (generated sd)) (structs_ p).

Definition emitted_tables (p : Parser) : list StructDef :=
  filter (fun sd : StructDef => negb (generated sd) && negb (fixed sd))
         (structs_ p).

(** The root struct, when the schema declares one. *)
Definition root_struct (p : Parser) : Res (option StructDef) :=
  match root_struct_def_ p with
  | None => Ok None
  | Some i => sd ← deref p (Some i); Ok (Some sd)
  end.

(** The emissions of one run, in order. *)
Definition schedule (p : Parser) (arrays : Arrays) (root : option StructDef)
  : list Emission :=
  (map EStructDecl (emitted_structs p) ++
   map EArrayDecl (map snd arrays) ++
   map EStructFields (emitted_structs p) ++
   map EArrayFields (map snd arrays) ++
   [EBuilderInterface] ++
   map EBuilders (emitted_tables p) ++
   map EArrayBuilders (map snd arrays) ++
   match root with Some sd => [EFinish sd] | None => [] end)%list.

Section Prologue.
Context `{Externals}.
Variable s : SwiftGenerator.

(** The opening and closing calls on the two writers. *)
Definition prologue_h : list WriterCall :=
  [ WClear;
    WAppend ("// " +:+ FlatBuffersGeneratedWarning +:+ nl +:+ nl);
    WAppend ("#ifndef " +:+ GenIncludeGuard s);
    WAppend ("#define " +:+ GenIncludeGuard s);
    WAppend "";
    WAppend ("#import " +:+ dq +:+ "flatbuffers_swift.h" +:+ dq);
    WAppend "" ].

Definition prologue_mm : list WriterCall :=
  [ WClear;
    WAppend ("// " +:+ FlatBuffersGeneratedWarning +:+ nl +:+ nl);
    WAppend ("#import " +:+ dq +:+ file_name_ s +:+ "_generated.h" +:+ dq);
    WAppend ("#import " +:+ dq +:+ file_name_ s +:+ "_swift_generated.h" +:+ dq);
    WAppend "" ].

Definition epilogue_h : list WriterCall :=
  [ WAppend "@end"; WAppend ""; WAppend ("#endif  // " +:+ GenIncludeGuard s) ].

Definition epilogue_mm : list WriterCall :=
  [ WAppend "@end"; WAppend "" ].

End Prologue.

Lemma flat_map_fmap {A B C} (f : B -> list C) (g : A -> B) (l : list A) :
  flat_map f (map g l) = flat_map (fun x => f (g x)) l.
Proof. induction l as [|x l IH]; [done|]. simpl. by rewrite IH. Qed.

(** A loop that runs its body on the elements in [live] only. *)
Lemma for_each_when_returned {A} (Ph Pmm : WriterCall -> Prop)
    (live : A -> bool) (l : list A) (body : A -> Gen unit) s h mm s' :
  (forall x, appends Ph Pmm (body x)) ->
  for_each l (fun x => when (live x) (body x)) (with_writers s h mm) =
    Returned tt s' ->
  s' = with_writers s
         (h ++ flat_map (fun x => (written (body x) s).1) (filter live l))%list
         (mm ++ flat_map (fun x => (written (body x) s).2) (filter live l))%list.
Proof.
  intros Hbody Hrun.
  apply (for_each_returned Ph Pmm) in Hrun;
    [|intros x; by apply appends_when].
  subst s'. f_equal; f_equal.
  - rewrite <- flat_map_when. apply flat_map_ext. intros x.
    rewrite written_when. by destruct (live x).
  - rewrite <- flat_map_when. apply flat_map_ext. intros x.
    rewrite written_when. by destruct (live x).
Qed.

(** The object that a run of [generate] leaves, given the vector types it
    collected and its root struct: the opening calls, then what each
    emission of the schedule writes, then the closing calls. *)
Definition generate_output `{Externals} (s : SwiftGenerator) (arrays : Arrays)
    (root : option StructDef) : SwiftGenerator :=
  with_writers s
    (code_h_ s ++ prologue_h s ++
     flat_map (fun e => (written (emit e) s).1)
              (schedule (parser_ s) arrays root) ++
     epilogue_h s)%list
    (code_mm_ s ++ prologue_mm s ++
     flat_map (fun e => (written (emit e) s).2)
              (schedule (parser_ s) arrays root) ++
     epilogue_mm)%list.

Section Schedule.
Context `{Externals}.

Lemma root_struct_none p : root_struct_def_ p = None -> root_struct p = Ok None.
Proof. unfold root_struct. by intros ->. Qed.

Lemma root_struct_some p i sd :
  root_struct_def_ p = Some i -> deref p (Some i) = Ok sd ->
  root_struct p = Ok (Some sd).
Proof. unfold root_struct. intros -> Hd. by rewrite Hd. Qed.

Lemma written_interface_h s :
  (written (emit EBuilderInterface) s).1 =
  [WAppend "@interface FlatBufferBuilder (XXX)"].
Proof. reflexivity. Qed.

Lemma written_interface_mm s :
  (written (emit EBuilderInterface) s).2 =
  [WAppend "@implementation FlatBufferBuilder (XXX)"; WAppend ""].
Proof. reflexivity. Qed.

Lemma flat_map_nil {A B} (f : A -> list B) : flat_map f [] = [].
Proof. reflexivity. Qed.

Lemma flat_map_singleton {A B} (f : A -> list B) (x : A) :
  flat_map f [x] = f x.
Proof. simpl. apply app_nil_r. Qed.

Lemma generate_schedule disk s r s' :
  generate disk s = Returned r s' ->
  exists arrays root,
    collect_arrays s = Ok arrays /\
    root_struct (parser_ s) = Ok root /\
    s' = generate_output s arrays root.
Proof.
  intros Hrun.
  eapply run_eq in Hrun; [|unfold generate; reflexivity].
  rewrite <- (with_writers_self s) in Hrun. walk Hrun.
  match goal with Hc : collect_arrays s = Ok ?l |- _ => exists l end.
  apply bind_returned in Hrun as ([] & s1 & Hloop & Hrun).
  apply (for_each_when_returned any_call any_call) in Hloop;
    [subst s1|apply GenStructDecl_appends].
  apply bind_returned in Hrun as ([] & s1 & Hloop & Hrun).
  apply (for_each_returned any_call any_call) in Hloop;
    [subst s1|intros; apply GenArrayDecl_appends].
  apply bind_returned in Hrun as ([] & s1 & Hloop & Hrun).
  apply (for_each_when_returned any_call any_call) in Hloop;
    [subst s1|apply GenStructFields_appends].
  apply bind_returned in Hrun as ([] & s1 & Hloop & Hrun).
  apply (for_each_returned any_call any_call) in Hloop;
    [subst s1|intros; apply GenArrayFields_appends].
  walk Hrun.
  apply bind_returned in Hrun as ([] & s1 & Hloop & Hrun).
  apply (for_each_when_returned any_call any_call) in Hloop;
    [subst s1|apply GenBuilders_appends].
  apply bind_returned in Hrun as ([] & s1 & Hloop & Hrun).
  apply (for_each_returned any_call any_call) in Hloop;
    [subst s1|intros; apply GenArrayBuilders_appends].
  walk Hrun.
  apply bind_returned in Hrun as ([] & s1 & Hroot & Hrun).
  destruct (root_struct_def_ (parser_ s)) as [i|] eqn:Hr.
  - rewrite bool_decide_true in Hroot by done. unfold when in Hroot.
    apply bind_returned in Hroot as (sd & s2 & Hd & Hfinish).
    walk_head Hd.
    apply (appends_returned any_call any_call) in Hfinish;
      [subst s1|apply GenFinish_appends].
    walk Hrun.
    cbv beta iota delta [mbind Gen_bind read mret Gen_ret] in Hrun.
    apply Returned_state in Hrun. subst s'.
    exists (Some sd). split; [done|].
    split; [by eapply root_struct_some|].
    unfold generate_output, schedule, emitted_structs, emitted_tables,
      prologue_h, prologue_mm,
      epilogue_h, epilogue_mm.
    cbv beta iota delta [emit].
    rewrite !flat_map_app, !flat_map_fmap, ?flat_map_singleton, ?flat_map_nil.
    cbv beta iota delta [emit].
    rewrite written_interface_h, written_interface_mm.
    rewrite <- !app_assoc, <- ?app_comm_cons, ?app_nil_l, ?app_nil_r.
    reflexivity.
  - rewrite bool_decide_false in Hroot by (by intros []).
    apply ret_returned in Hroot as [_ ->].
    walk Hrun.
    cbv beta iota delta [mbind Gen_bind read mret Gen_ret] in Hrun.
    apply Returned_state in Hrun. subst s'.
    exists None. split; [done|].
    split; [by apply root_struct_none|].
    unfold generate_output, schedule, emitted_structs, emitted_tables,
      prologue_h, prologue_mm,
      epilogue_h, epilogue_mm.
    cbv beta iota delta [emit].
    rewrite !flat_map_app, !flat_map_fmap, ?flat_map_singleton, ?flat_map_nil.
    cbv beta iota delta [emit].
    rewrite written_interface_h, written_interface_mm.
    rewrite <- !app_assoc, <- ?app_comm_cons, ?app_nil_l, ?app_nil_r.
    reflexivity.
Qed.

End Schedule.

(** ** The finish operation *)




(** The last character of a string, zero when there is none. *)
Fixpoint last_char (s : string) : ascii :=
  match s with
  | EmptyString => zero
  | String c rest =>
      match rest with
      | EmptyString => c
      | String _ _ => last_char rest
      end
  end.

Lemma last_char_append (s : string) (c : ascii) :
  last_char (s +:+ String c EmptyString) = c.
Proof.
  induction s as [|a s IH]; [done|].
  simpl. destruct s; [done|]. exact IH.
Qed.




Section Finish.
Context `{Externals}.













End Finish.


(** ** Determinism *)

(** The order of the keys of [std::map<std::string, Type>]. *)
Definition key_lt (a b : string) : Prop := string_lt a b = true.



Lemma compare_as_OT (a b : string) :
  String.compare a b = OrdersEx.String_as_OT.compare a b.
Proof.
  revert b. induction a as [|x a IH]; intros [|y b]; simpl; rewrite ?IH; done.
Qed.

Lemma key_lt_compare (a b : string) : key_lt a b <-> String.compare a b = Lt.
Proof.
  unfold key_lt, string_lt, String.ltb.
  destruct (String.compare a b); split; done.
Qed.

#[global] Instance key_lt_strict : StrictOrder key_lt.
Proof.
  split.
  - intros a Ha. apply key_lt_compare in Ha. rewrite compare_as_OT in Ha.
    by apply (irreflexivity OrdersEx.String_as_OT.lt a).
  - intros a b c Hab Hbc. apply key_lt_compare in Hab, Hbc.
    apply key_lt_compare. rewrite compare_as_OT in *.
    by apply (transitivity (R := OrdersEx.String_as_OT.lt) Hab Hbc).
Qed.

Lemma key_lt_connected (a b : string) :
  string_lt a b = false -> string_lt b a = false -> a = b.
Proof.
  unfold string_lt, String.ltb. rewrite (String.compare_antisym a b).
  destruct (String.compare b a) eqn:Hc; simpl; try done.
  intros _ _. symmetry. by apply String.compare_eq_iff.
Qed.

Lemma map_assign_keys (k : string) (v : FbType) (m : Arrays) (k' : string) :
  k' ∈ map fst (map_assign k v m) <-> k' = k \/ k' ∈ map fst m.
Proof.
  induction m as [|[k0 v0] m IH]; simpl.
  - rewrite list_elem_of_singleton, elem_of_nil. tauto.
  - destruct (string_lt k k0) eqn:H1; [|destruct (string_lt k0 k) eqn:H2];
      simpl; rewrite !elem_of_cons.
    + tauto.
    + rewrite IH. tauto.
    + rewrite (key_lt_connected k k0 H1 H2). tauto.
Qed.







Section Determinism.
Context `{Externals}.




End Determinism.

(** * Further properties of the backend *)

(** ** Escaping of names *)

Lemma foldl_insert_elem_of (l : list string) : forall (acc : gset string) x,
  x ∈ foldl (fun acc kw => {[ kw ]} ∪ acc) acc l <-> x ∈ acc \/ x ∈ l.
Proof.
  induction l as [|k l IH]; intros acc x; simpl.
  - rewrite elem_of_nil. tauto.
  - rewrite IH, elem_of_union, elem_of_singleton, elem_of_cons. tauto.
Qed.

Lemma keywords_new parser path file_name x :
  x ∈ keywords_ (SwiftGenerator_new parser path file_name) <-> x ∈ keywords.
Proof.
  unfold SwiftGenerator_new. cbn [keywords_].
  rewrite foldl_insert_elem_of, elem_of_empty. tauto.
Qed.

(** Facts on strings. *)
Lemma str_app_cons (c : ascii) (a b : string) :
  String c a +:+ b = String c (a +:+ b).
Proof. reflexivity. Qed.

Lemma str_app_nil_l (b : string) : "" +:+ b = b.
Proof. reflexivity. Qed.

Lemma str_app_length (a b : string) :
  String.length (a +:+ b) = String.length a + String.length b.
Proof.
  induction a as [|c a IH]; [done|].
  rewrite str_app_cons. cbn [String.length]. by rewrite IH.
Qed.

Lemma str_app_assoc (a b c : string) : (a +:+ b) +:+ c = a +:+ (b +:+ c).
Proof.
  induction a as [|d a IH]; [done|]. rewrite !str_app_cons. by f_equal.
Qed.

Lemma str_app_nil_r (a : string) : a +:+ "" = a.
Proof.
  induction a as [|d a IH]; [done|]. rewrite str_app_cons. by f_equal.
Qed.

Lemma append_inj_l (a b s : string) : a +:+ s = b +:+ s -> a = b.
Proof.
  intros Heq.
  assert (String.length a = String.length b) as Hlen.
  { apply (f_equal String.length) in Heq.
    rewrite !str_app_length in Heq. lia. }
  revert b Heq Hlen. induction a as [|c a IH]; intros [|d b] Heq Hlen;
    try done.
  rewrite !str_app_cons in Heq.
  injection Heq as -> Heq. f_equal. apply IH; [done|].
  cbn [String.length] in Hlen. lia.
Qed.

(** No keyword followed by an underscore is a keyword. *)
Lemma escaped_keywords_fresh :
  Forall (fun k => k +:+ "_" ∉ keywords) keywords.
Proof. refine (bool_decide_unpack _ _). vm_compute. exact I. Qed.

Section Escaping.
Context `{Externals}.
Variables (parser : Parser) (path file_name : string).


Lemma EscapeKeyword_keyword name :
  name ∈ keywords ->
  EscapeKeyword (SwiftGenerator_new parser path file_name) name = name +:+ "_".
Proof.
  intros Hk. unfold EscapeKeyword.
  by rewrite bool_decide_true by (by apply keywords_new).
Qed.

Lemma EscapeKeyword_other name :
  name ∉ keywords ->
  EscapeKeyword (SwiftGenerator_new parser path file_name) name = name.
Proof.
  intros Hk. unfold EscapeKeyword.
  by rewrite bool_decide_false by (by rewrite keywords_new).
Qed.

(** X1. The constructor fills the keyword set with the words of its table
    and nothing else, and a name that went through EscapeKeyword is never
    one of them. *)
Theorem escaped_names_are_no_keywords name :
  (name ∈ keywords_ (SwiftGenerator_new parser path file_name)
     <-> name ∈ keywords) /\
  EscapeKeyword (SwiftGenerator_new parser path file_name) name
    ∉ keywords_ (SwiftGenerator_new parser path file_name).
Proof.
  split; [apply keywords_new|].
  rewrite keywords_new.
  destruct (decide (name ∈ keywords)) as [Hk|Hk].
  - rewrite EscapeKeyword_keyword by done.
    pose proof escaped_keywords_fresh as Hfresh.
    rewrite Forall_forall in Hfresh. by apply Hfresh.
  - by rewrite EscapeKeyword_other.
Qed.

(** X2. Escaping is not injective: two names get the same escaped name
    exactly when they are equal or one is a keyword and the other is that
    keyword followed by an underscore. *)
Theorem EscapeKeyword_collisions a b :
  EscapeKeyword (SwiftGenerator_new parser path file_name) a =
    EscapeKeyword (SwiftGenerator_new parser path file_name) b <->
  a = b \/ (a ∈ keywords /\ b = a +:+ "_") \/ (b ∈ keywords /\ a = b +:+ "_").
Proof.
  pose proof escaped_keywords_fresh as Hfresh.
  rewrite Forall_forall in Hfresh.
  destruct (decide (a ∈ keywords)) as [Ha|Ha],
           (decide (b ∈ keywords)) as [Hb|Hb];
    rewrite ?(EscapeKeyword_keyword a), ?(EscapeKeyword_keyword b),
      ?(EscapeKeyword_other a), ?(EscapeKeyword_other b) by done.
  - split.
    + intros Heq%append_inj_l. by left.
    + intros [->|[[_ ->]|[_ ->]]]; [done|..].
      * by destruct (Hfresh a Ha).
      * by destruct (Hfresh b Hb).
  - split.
    + intros <-. right. by left.
    + intros [->|[[_ ->]|[Hb' _]]]; done.
  - split.
    + intros ->. right. by right.
    + intros [->|[[Ha' _]|[_ ->]]]; done.
  - split.
    + intros ->. by left.
    + intros [->|[[Ha' _]|[Hb' _]]]; done.
Qed.

(** A keyword with its first letter in upper case. *)
Definition capitalised (k : string) : string :=
  set_front (ToUpper (front k)) k.

Lemma capitalised_keywords :
  Forall (fun k => (capitalised k ∉ keywords) /\
                   set_front (ToLower (front (capitalised k))) (capitalised k)
                     = k) keywords.
Proof. refine (bool_decide_unpack _ _). vm_compute. exact I. Qed.

(** X3. The argument name is put in lower case after it was escaped, so it
    can be a keyword again: for a keyword written with a capital first
    letter, SelectorArgumentName answers the keyword itself. *)
Theorem SelectorArgumentName_can_be_a_keyword k :
  k ∈ keywords ->
  SelectorArgumentName (SwiftGenerator_new parser path file_name)
    (capitalised k) = k /\
  SelectorArgumentName (SwiftGenerator_new parser path file_name)
    (capitalised k) ∈ keywords_ (SwiftGenerator_new parser path file_name).
Proof.
  intros Hk. pose proof capitalised_keywords as Hcap.
  rewrite Forall_forall in Hcap. destruct (Hcap k Hk) as [Hfresh Hlower].
  assert (SelectorArgumentName (SwiftGenerator_new parser path file_name)
            (capitalised k) = k) as Hname.
  { unfold SelectorArgumentName. cbv zeta.
    by rewrite EscapeKeyword_other. }
  split; [done|]. rewrite Hname. by apply keywords_new.
Qed.

End Escaping.

Lemma SelectorArgumentName_can_be_a_keyword_witness :
  "int" ∈ keywords /\
  SelectorArgumentName (SwiftGenerator_new Sample.schema "out/" "monster")
    "Int" = "int".
Proof.
  split; [refine (bool_decide_unpack _ _); vm_compute; exact I|].
  apply (SelectorArgumentName_can_be_a_keyword Sample.schema "out/" "monster"
           "int").
  refine (bool_decide_unpack _ _). vm_compute. exact I.
Defined.


(** ** The rendering contexts of a type *)

(** The scalar base types: the thirteen that every [switch] of the backend
    lists before [BASE_TYPE_STRING]. *)
Definition is_scalar (b : BaseType) : bool :=
  match b with
  | BASE_TYPE_NONE | BASE_TYPE_UTYPE | BASE_TYPE_BOOL | BASE_TYPE_CHAR
  | BASE_TYPE_UCHAR | BASE_TYPE_SHORT | BASE_TYPE_USHORT | BASE_TYPE_INT
  | BASE_TYPE_UINT | BASE_TYPE_LONG | BASE_TYPE_ULONG | BASE_TYPE_FLOAT
  | BASE_TYPE_DOUBLE => true
  | _ => false
  end.

Section Contexts.
Context `{Externals}.
Variable self : SwiftGenerator.

(** X4. A scalar type is rendered by the same C type name as a flatbuffers
    type, as an offset type, as the type of a getter, of a setter and of a
    key; it is passed on as it is in the three casts; and it has no offset
    type and no reference type: GenTypeOffset and GenTypeRef stop. *)
Theorem scalar_types_render_alike (t : FbType) (name : string) :
  is_scalar (base_type t) = true ->
  (exists c,
     GenTypeFlatbuffers self t = Ok c /\
     GenTypeFlatbuffersOffset self t = Ok c /\
     GenTypeForGet self t = Ok c /\
     GenTypeForSet self t = Ok c /\
     GenTypeForKey t = Ok c) /\
  GenTypeCastGet t = Ok "value" /\
  GenTypeCastKey t = Ok "key" /\
  GenTypeCastSet self t name = Ok (EscapeKeyword self name) /\
  GenTypeOffset self t = Fail AbortCalled /\
  GenTypeRef self t = Fail AbortCalled.
Proof.
  destruct t as [b e sd]. cbn [base_type].
  destruct b; try discriminate; intros _;
    (split; [eexists; repeat split; reflexivity|repeat split; reflexivity]).
Qed.

(** X5. The offset type and the reference type of a type are its internal
    name with a suffix: both are there exactly when the type is a string, a
    vector or a struct whose internal name is, and then they share it. *)
Theorem offset_and_ref_share_the_internal_name (t : FbType) (stem : string) :
  (GenTypeOffset self t = Ok (stem +:+ "Offset") <->
   GenTypeRef self t = Ok (stem +:+ "Ref")) /\
  (GenTypeRef self t = Ok (stem +:+ "Ref") <->
   is_scalar (base_type t) = false /\ GenTypeInternal self t = Ok stem).
Proof.
  assert (GenTypeRef self t = Ok (stem +:+ "Ref") <->
          is_scalar (base_type t) = false /\ GenTypeInternal self t = Ok stem)
    as Href.
  { unfold GenTypeRef. rewrite (GenTypeInternal_unfold self t).
    destruct (base_type t) eqn:Hb; cbn [is_scalar];
      try (split; [discriminate|intros [? ?]; discriminate]).
    - split; [intros [= Heq%append_inj_l]|intros [_ [= <-]]]; by subst.
    - destruct (GenTypeInternal self (VectorType t)) as [s|]; simpl;
        (split; [intros [= Heq%append_inj_l]|intros [_ [= <-]]]; by subst).
    - destruct (deref (parser_ self) (struct_def t)) as [sd|]; simpl;
        (split; [intros [= Heq%append_inj_l]|intros [_ [= <-]]]; by subst). }
  split; [|exact Href]. rewrite Href.
  unfold GenTypeOffset. rewrite (GenTypeInternal_unfold self t).
  destruct (base_type t) eqn:Hb; cbn [is_scalar];
    try (split; [discriminate|intros [? ?]; discriminate]).
  - split; [intros [= Heq%append_inj_l]|intros [_ [= <-]]]; by subst.
  - destruct (GenTypeInternal self (VectorType t)) as [s|]; simpl;
      (split; [intros [= Heq%append_inj_l]|intros [_ [= <-]]]; by subst).
  - destruct (deref (parser_ self) (struct_def t)) as [sd|]; simpl;
      (split; [intros [= Heq%append_inj_l]|intros [_ [= <-]]]; by subst).
Qed.

(** X6. Where a vector or a struct is read, its type is its reference
    type; where it is written, its type is its offset type, except for a
    fixed struct, which is passed by a pointer to the struct itself. *)
Theorem reference_types_in_getters_and_setters (t : FbType) :
  (base_type t = BASE_TYPE_VECTOR \/ base_type t = BASE_TYPE_STRUCT ->
   GenTypeForGet self t = GenTypeRef self t) /\
  (base_type t = BASE_TYPE_VECTOR ->
   GenTypeForSet self t = GenTypeOffset self t) /\
  (forall sd,
     base_type t = BASE_TYPE_STRUCT ->
     deref (parser_ self) (struct_def t) = Ok sd ->
     GenTypeForSet self t =
       if fixed sd
       then Ok ("const " +:+ EscapeKeyword self (name sd) +:+ " *")
       else GenTypeOffset self t).
Proof.
  split; [|split].
  - intros [Hb|Hb]; unfold GenTypeForGet, GenTypeRef; rewrite Hb; [done|].
    rewrite (GenTypeInternal_unfold self t), Hb. cbn [VectorType struct_def].
    by destruct (deref (parser_ self) (struct_def t)).
  - intros Hb. unfold GenTypeForSet. by rewrite Hb.
  - intros sd Hb Hsd. unfold GenTypeForSet, GenTypeOffset. rewrite Hb.
    rewrite (GenTypeInternal_unfold self t), Hb. cbn [VectorType struct_def].
    rewrite Hsd. cbn. unfold GenTypeForSet_struct. by destruct (fixed sd).
Qed.

(** X7. The type of a key and the cast of a key are rendered for scalar
    and string keys only, and then the type of the key is the type that the
    getter of the field has; for a key that is a vector or a struct (or
    anything else) both stop in abort(). *)
Theorem key_types (t : FbType) :
  if is_scalar (base_type t) || bool_decide (base_type t = BASE_TYPE_STRING)
  then renders (GenTypeForKey t) /\ renders (GenTypeCastKey t) /\
       GenTypeForKey t = GenTypeForGet self t
  else GenTypeForKey t = Fail AbortCalled /\
       GenTypeCastKey t = Fail AbortCalled.
Proof.
  destruct t as [b e sd]. cbn [base_type].
  destruct b; cbn; repeat split; try reflexivity; eexists; reflexivity.
Qed.

End Contexts.

Lemma scalar_types_render_alike_witness :
  GenTypeForSet Sample.generator (Sample.scalar BASE_TYPE_SHORT)
    = Ok "int16_t" /\
  GenTypeRef Sample.generator (Sample.scalar BASE_TYPE_SHORT)
    = Fail AbortCalled.
Proof.
  destruct (@scalar_types_render_alike Sample.externals Sample.generator
              (Sample.scalar BASE_TYPE_SHORT) "hp" eq_refl)
    as [(c & _ & _ & _ & Hset & Hkey) (_ & _ & _ & _ & Href)].
  split; [|exact Href].
  rewrite Hset. rewrite <- Hkey. reflexivity.
Defined.


(** ** The include guard *)

Lemma transform_app (f : ascii -> ascii) (a b : string) :
  transform f (a +:+ b) = transform f a +:+ transform f b.
Proof.
  induction a as [|c a IH]; [done|].
  rewrite str_app_cons. cbn [transform]. rewrite str_app_cons. by f_equal.
Qed.

Lemma ToUpper_idempotent (c : ascii) : ToUpper (ToUpper c) = ToUpper c.
Proof. by destruct c as [[] [] [] [] [] [] [] []]. Qed.

Lemma transform_ToUpper_idempotent (s : string) :
  transform ToUpper (transform ToUpper s) = transform ToUpper s.
Proof.
  induction s as [|c s IH]; [done|].
  cbn [transform]. by rewrite ToUpper_idempotent, IH.
Qed.

Lemma foldl_append_components (guard : string) (l : list string) :
  foldl (fun guard it => guard +:+ (it +:+ "_")) guard l =
  guard +:+ foldr (fun it rest => it +:+ "_" +:+ rest) "" l.
Proof.
  revert guard. induction l as [|it l IH]; intros guard; cbn [foldl foldr].
  - by rewrite str_app_nil_r.
  - by rewrite IH, !str_app_assoc.
Qed.

Lemma transform_components (f : ascii -> ascii) (l : list string)
    (last : string) :
  transform f (foldr (fun it rest => it +:+ "_" +:+ rest) last l) =
  foldr (fun it rest => transform f it +:+ transform f "_" +:+ rest)
        (transform f last) l.
Proof.
  induction l as [|it l IH]; [done|].
  cbn [foldr]. by rewrite !transform_app, IH.
Qed.

Section IncludeGuard.
Context `{Externals}.
Variable self : SwiftGenerator.

(** X8. The include guard is FLATBUFFERS_GENERATED_SWIFT_, the file name
    without the characters that are not alphanumeric and in upper case, an
    underscore, each component of the current namespace in upper case
    followed by an underscore, and H_. The components of the namespace are
    taken as they are: only the file name is filtered. *)
Theorem GenIncludeGuard_closed_form :
  GenIncludeGuard self =
  "FLATBUFFERS_GENERATED_SWIFT_" +:+
  transform ToUpper
    (remove_if (fun c => negb (is_alnum c)) (file_name_ self)) +:+
  "_" +:+
  foldr (fun it rest => transform ToUpper it +:+ "_" +:+ rest) "H_"
        (components (current_namespace_ (parser_ self))).
Proof.
  assert (forall l last,
    foldr (fun it rest => it +:+ "_" +:+ rest) "" l +:+ last =
    foldr (fun it rest => it +:+ "_" +:+ rest) last l) as Hlast.
  { induction l as [|it l IH]; intros last; cbn [foldr]; [done|].
    by rewrite !str_app_assoc, IH. }
  unfold GenIncludeGuard. cbv zeta.
  rewrite foldl_append_components, !str_app_assoc, Hlast.
  rewrite !transform_app, transform_components.
  reflexivity.
Qed.

(** X9. The include guard holds no lower-case letter: putting it in upper
    case once more changes nothing. *)
Theorem GenIncludeGuard_is_upper_case :
  transform ToUpper (GenIncludeGuard self) = GenIncludeGuard self.
Proof.
  unfold GenIncludeGuard. cbv zeta. apply transform_ToUpper_idempotent.
Qed.

End IncludeGuard.


(** ** Qualified names

    [TranslateNameSpace] is a private static member of the generator, with
    the two members of [std::string] that it calls. *)

(** [s.find(c, pos)]: the first index at or after [pos] at which [c]
    stands, [None] for [npos]. *)
Fixpoint string_find (c : ascii) (s : string) (pos : nat) : option nat :=
  match s with
  | EmptyString => None
  | String d rest =>
      match pos with
      | O => if Ascii.eqb d c then Some 0 else S <$> string_find c rest 0
      | S pos => S <$> string_find c rest pos
      end
  end.

(** [s.erase(0, n)]. *)
Fixpoint erase_front (n : nat) (s : string) : string :=
  match n, s with
  | S n, String _ rest => erase_front n rest
  | _, _ => s
  end.

(** [s.replace(pos, len, by)]. It throws [std::out_of_range] when [pos] is
    beyond the end of [s]: [None]. *)
Fixpoint string_replace (pos len : nat) (by_ : string) (s : string)
  : option string :=
  match pos with
  | O => Some (by_ +:+ erase_front len s)
  | S pos =>
      match s with
      | EmptyString => None
      | String d rest => String d <$> string_replace pos len by_ rest
      end
  end.

(** The [while] loop of [TranslateNameSpace], for at most [rounds] rounds:
    [None] when it has not ended by then, or when [replace] throws. *)
Fixpoint TranslateNameSpace_loop (rounds : nat)
    (swift_qualified_name : string) (start_pos : nat) : option string :=
  match rounds with
  | O => None
  | S rounds =>
      match string_find "." swift_qualified_name start_pos with
      | None => Some swift_qualified_name
      | Some start_pos =>
          swift_qualified_name ←
            string_replace start_pos 1 "::" swift_qualified_name;
          TranslateNameSpace_loop rounds swift_qualified_name start_pos
      end
  end.

(** Each round takes one dot away, so the loop ends within one round more
    than the name has characters. *)
Definition TranslateNameSpace (qualified_name : string) : option string :=
  TranslateNameSpace_loop (S (String.length qualified_name)) qualified_name 0.

(** A name with two colons in the place of every dot. *)
Fixpoint dots_to_colons (s : string) : string :=
  match s with
  | EmptyString => EmptyString
  | String c rest =>
      if Ascii.eqb c "." then "::" +:+ dots_to_colons rest
      else String c (dots_to_colons rest)
  end.

(** The number of dots of a name. *)
Fixpoint dots (s : string) : nat :=
  match s with
  | EmptyString => 0
  | String c rest => (if Ascii.eqb c "." then 1 else 0) + dots rest
  end.

Lemma dots_length (s : string) : dots s <= String.length s.
Proof.
  induction s as [|c s IH]; simpl; [done|]. destruct (Ascii.eqb c "."); lia.
Qed.

Lemma dots_app (a b : string) : dots (a +:+ b) = dots a + dots b.
Proof.
  induction a as [|c a IH]; [done|].
  rewrite str_app_cons. cbn [dots]. rewrite IH. lia.
Qed.

Lemma dots_to_colons_app (a b : string) :
  dots_to_colons (a +:+ b) = dots_to_colons a +:+ dots_to_colons b.
Proof.
  induction a as [|c a IH]; [done|].
  rewrite str_app_cons. cbn [dots_to_colons]. rewrite IH.
  destruct (Ascii.eqb c "."); [|done]. by rewrite str_app_assoc.
Qed.

Lemma string_find_app (c : ascii) (pre s : string) :
  string_find c (pre +:+ s) (String.length pre) =
  (fun i => String.length pre + i) <$> string_find c s 0.
Proof.
  induction pre as [|d pre IH].
  - rewrite str_app_nil_l. cbn [String.length].
    by destruct (string_find c s 0).
  - rewrite str_app_cons. cbn [String.length string_find]. rewrite IH.
    by destruct (string_find c s 0).
Qed.

Lemma string_find_none (s : string) :
  string_find "." s 0 = None -> dots_to_colons s = s.
Proof.
  induction s as [|c s IH]; [done|]. cbn [string_find dots_to_colons].
  destruct (Ascii.eqb c "."); [done|].
  destruct (string_find "." s 0); [done|]. intros _. by rewrite IH.
Qed.

Lemma string_find_some (s : string) (q : nat) :
  string_find "." s 0 = Some q ->
  exists a b, s = a +:+ "." +:+ b /\ String.length a = q /\
              dots_to_colons a = a /\ dots a = 0.
Proof.
  revert q. induction s as [|c s IH]; intros q; [done|]. cbn [string_find].
  destruct (Ascii.eqb c ".") eqn:Hc.
  - intros [= <-]. apply Ascii.eqb_eq in Hc as ->. by exists "", s.
  - destruct (string_find "." s 0) as [q'|]; [|done]. intros [= <-].
    destruct (IH q' eq_refl) as (a & b & -> & Hlen & Ha & Hdots).
    exists (String c a), b. rewrite str_app_cons.
    cbn [String.length dots_to_colons dots]. rewrite Hc, Hlen, Ha, Hdots.
    done.
Qed.

Lemma string_replace_app (a by_ b : string) (d : ascii) :
  string_replace (String.length a) 1 by_ (a +:+ String d b) = Some (a +:+ by_ +:+ b).
Proof.
  induction a as [|c a IH]; [done|].
  rewrite !str_app_cons. cbn [String.length string_replace]. by rewrite IH.
Qed.

Lemma TranslateNameSpace_loop_spec (rounds : nat) : forall pre s,
  dots pre = 0 -> dots_to_colons pre = pre -> dots s < rounds ->
  TranslateNameSpace_loop rounds (pre +:+ s) (String.length pre) =
    Some (pre +:+ dots_to_colons s).
Proof.
  induction rounds as [|rounds IH]; intros pre s Hdots Hpre Hs; [lia|].
  cbn [TranslateNameSpace_loop]. rewrite string_find_app.
  destruct (string_find "." s 0) as [q|] eqn:Hfind; cbn [fmap option_fmap option_map].
  - destruct (string_find_some s q Hfind) as (a & b & -> & Hlen & Ha & Hda).
    rewrite <- Hlen, <- str_app_length, <- str_app_assoc.
    change ("." +:+ b) with (String "." b).
    rewrite string_replace_app. cbn [mbind option_bind].
    rewrite !dots_app in Hs. cbn in Hs.
    rewrite IH.
    + rewrite !dots_to_colons_app, Ha. cbn [dots_to_colons].
      change (Ascii.eqb ":" ".") with false.
      change (Ascii.eqb "." ".") with true.
      by rewrite !str_app_assoc.
    + rewrite dots_app. lia.
    + by rewrite dots_to_colons_app, Hpre, Ha.
    + rewrite dots_app. cbn. lia.
  - by rewrite (string_find_none s Hfind).
Qed.

(** X10. TranslateNameSpace ends for every qualified name, and replace
    never throws in it. It answers the name with two colons in the place of
    each dot: no dot is left in the answer, which is longer than the name
    by the number of its dots. *)
Theorem TranslateNameSpace_replaces_every_dot (qualified_name : string) :
  TranslateNameSpace qualified_name = Some (dots_to_colons qualified_name) /\
  string_find "." (dots_to_colons qualified_name) 0 = None /\
  String.length (dots_to_colons qualified_name) =
    String.length qualified_name + dots qualified_name.
Proof.
  split; [|split].
  - unfold TranslateNameSpace.
    apply (TranslateNameSpace_loop_spec _ "" qualified_name); [done..|].
    pose proof (dots_length qualified_name). lia.
  - induction qualified_name as [|c s IH]; [done|]. cbn [dots_to_colons].
    destruct (Ascii.eqb c ".") eqn:Hc.
    + change ("::" +:+ dots_to_colons s)
        with (String ":" (String ":" (dots_to_colons s))).
      cbn [string_find]. change (Ascii.eqb ":" ".") with false. cbv iota.
      by rewrite IH.
    + cbn [string_find]. by rewrite Hc, IH.
  - induction qualified_name as [|c s IH]; [done|]. cbn [dots_to_colons dots].
    destruct (Ascii.eqb c "."); cbn [String.length].
    + rewrite str_app_length, IH. cbn. lia.
    + rewrite IH. lia.
Qed.


(** ** Runs of [generate], both ways *)

(** A method that returns on the object [s]. *)
Definition runs (m : Gen unit) (s : SwiftGenerator) : Prop :=
  exists s', m s = Returned tt s'.

Lemma appends_run (Ph Pmm : WriterCall -> Prop) (m : Gen unit) s h mm :
  appends Ph Pmm m -> runs m s ->
  m (with_writers s h mm) =
    Returned tt (with_writers s (h ++ (written m s).1)%list
                                (mm ++ (written m s).2)%list).
Proof.
  intros Hm [s' Hrun].
  destruct (appends_state Ph Pmm m s h mm Hm) as [Hstate _].
  destruct (Hm s) as (k & dh & dmm & _ & _ & Hk).
  rewrite <- (with_writers_self s), Hk in Hrun.
  destruct k as [[]|why]; [|done].
  rewrite Hk in Hstate |- *. simpl in *. by rewrite Hstate.
Qed.

Lemma appends_runs_anywhere (Ph Pmm : WriterCall -> Prop) (m : Gen unit)
    s h mm s' :
  appends Ph Pmm m ->
  m (with_writers s h mm) = Returned tt s' -> runs m s.
Proof.
  intros Hm Hrun. destruct (Hm s) as (k & dh & dmm & _ & _ & Hk).
  rewrite Hk in Hrun. destruct k as [[]|why]; [|done].
  eexists. rewrite <- (with_writers_self s) at 1. by rewrite Hk.
Qed.

Lemma bind_run {A B} (m : Gen A) (f : A -> Gen B) s a s1 :
  m s = Returned a s1 -> (m ≫= f) s = f a s1.
Proof. intros Hm. unfold mbind, Gen_bind. by rewrite Hm. Qed.

Lemma for_each_runs {A} (Ph Pmm : WriterCall -> Prop) (l : list A)
    (body : A -> Gen unit) s :
  (forall x, appends Ph Pmm (body x)) ->
  Forall (fun x => runs (body x) s) l ->
  forall h mm,
  for_each l body (with_writers s h mm) =
    Returned tt
      (with_writers s
         (h ++ flat_map (fun x => (written (body x) s).1) l)%list
         (mm ++ flat_map (fun x => (written (body x) s).2) l)%list).
Proof.
  intros Hbody. induction 1 as [|x l Hx _ IH]; intros h mm.
  - simpl. by rewrite !app_nil_r.
  - cbn [for_each flat_map].
    rewrite (bind_run _ _ _ _ _ (appends_run Ph Pmm _ s h mm (Hbody x) Hx)).
    rewrite IH. by rewrite !app_assoc.
Qed.

Lemma for_each_returned_each {A} (Ph Pmm : WriterCall -> Prop) (l : list A)
    (body : A -> Gen unit) s h mm s' :
  (forall x, appends Ph Pmm (body x)) ->
  for_each l body (with_writers s h mm) = Returned tt s' ->
  Forall (fun x => runs (body x) s) l.
Proof.
  intros Hbody. revert h mm.
  induction l as [|x l IH]; intros h mm Hrun; [constructor|].
  simpl in Hrun. apply bind_returned in Hrun as ([] & s1 & H1 & H2).
  constructor; [by eapply appends_runs_anywhere|].
  apply (appends_returned _ _ _ _ _ _ _ _ (Hbody x)) in H1. subst s1.
  by eapply IH.
Qed.

Lemma runs_when (live : bool) (m : Gen unit) s :
  runs (when live m) s <-> (live = true -> runs m s).
Proof.
  destruct live; simpl.
  - split; [by intros ? _|by intros H; apply H].
  - split; [done|]. intros _. by eexists.
Qed.

Lemma Forall_runs_when {A} (live : A -> bool) (body : A -> Gen unit) l s :
  Forall (fun x => runs (when (live x) (body x)) s) l <->
  Forall (fun x => runs (body x) s) (filter live l).
Proof.
  rewrite !Forall_forall. setoid_rewrite runs_when.
  setoid_rewrite list_elem_of_filter. split.
  - intros Hl x [Hx Hin]. apply Hl; [done|]. by apply Is_true_true.
  - intros Hl x Hin Hx. apply Hl. split; [by apply Is_true_true|done].
Qed.


Lemma for_each_when_runs {A} (Ph Pmm : WriterCall -> Prop)
    (live : A -> bool) (l : list A) (body : A -> Gen unit) s h mm :
  (forall x, appends Ph Pmm (body x)) ->
  Forall (fun x => runs (body x) s) (filter live l) ->
  for_each l (fun x => when (live x) (body x)) (with_writers s h mm) =
    Returned tt
      (with_writers s
         (h ++ flat_map (fun x => (written (body x) s).1) (filter live l))%list
         (mm ++ flat_map (fun x => (written (body x) s).2) (filter live l))%list).
Proof.
  intros Hbody Hruns.
  rewrite (for_each_runs Ph Pmm);
    [|intros x; by apply appends_when|by apply Forall_runs_when].
  f_equal. f_equal; f_equal.
  - rewrite <- flat_map_when. apply flat_map_ext. intros x.
    rewrite written_when. by destruct (live x).
  - rewrite <- flat_map_when. apply flat_map_ext. intros x.
    rewrite written_when. by destruct (live x).
Qed.

Lemma when_true (m : Gen unit) : when true m = m.
Proof. reflexivity. Qed.

Lemma when_false (m : Gen unit) : when false m = mret tt.
Proof. reflexivity. Qed.

Lemma bind_on_h {B} (c : WriterCall) (f : unit -> Gen B) s h mm :
  (on_h c ≫= f) (with_writers s h mm) =
  f tt (with_writers s (h ++ [c])%list mm).
Proof. reflexivity. Qed.

Lemma bind_on_mm {B} (c : WriterCall) (f : unit -> Gen B) s h mm :
  (on_mm c ≫= f) (with_writers s h mm) =
  f tt (with_writers s h (mm ++ [c])%list).
Proof. reflexivity. Qed.

Lemma bind_read {A B} (g : SwiftGenerator -> A) (f : A -> Gen B) s :
  (read g ≫= f) s = f (g s) s.
Proof. reflexivity. Qed.

Lemma bind_read_blind {A B} (g : SwiftGenerator -> A) (f : A -> Gen B)
    s h mm :
  blind g ->
  (read g ≫= f) (with_writers s h mm) = f (g s) (with_writers s h mm).
Proof. intros Hg. rewrite bind_read. by rewrite Hg. Qed.

Lemma bind_call {A B} (g : SwiftGenerator -> Res A) (f : A -> Gen B) s a :
  g s = Ok a -> (call g ≫= f) s = f a s.
Proof. intros Hg. unfold mbind, Gen_bind, call. by rewrite Hg. Qed.

(** A run may be followed in the body of a method. *)
Lemma run_in_body {A} (m m' : Gen A) s o : m = m' -> m' s = o -> m s = o.
Proof. by intros ->. Qed.

(** What [generate] answers: the three files are saved in turn, each one
    only when the one before it was. *)
Definition saved `{Externals} (s : SwiftGenerator) (disk : FileSystem)
  : bool * FileSystem :=
  and_also
    (and_also
       (SaveFile (GeneratedFileName (path_ s) (file_name_ s)
                    "swift_generated.h")
                 (ToString (code_h_ s)) false disk)
       (SaveFile (GeneratedFileName (path_ s) (file_name_ s)
                    "swift_generated.mm")
                 (ToString (code_mm_ s)) false))
    (SaveFile (GeneratedFileName (path_ s) (file_name_ s)
                 "swift_generated.swift")
              (ToString (code_swift_ s)) false).

Section Runs.
Context `{Externals}.

Lemma emit_EStructDecl sd : emit (EStructDecl sd) = GenStructDecl sd.
Proof. reflexivity. Qed.
Lemma emit_EArrayDecl t : emit (EArrayDecl t) = GenArrayDecl t.
Proof. reflexivity. Qed.
Lemma emit_EStructFields sd : emit (EStructFields sd) = GenStructFields sd.
Proof. reflexivity. Qed.
Lemma emit_EArrayFields t : emit (EArrayFields t) = GenArrayFields t.
Proof. reflexivity. Qed.
Lemma emit_EBuilders sd : emit (EBuilders sd) = GenBuilders sd.
Proof. reflexivity. Qed.
Lemma emit_EArrayBuilders t : emit (EArrayBuilders t) = GenArrayBuilders t.
Proof. reflexivity. Qed.
Lemma emit_EFinish sd : emit (EFinish sd) = GenFinish sd.
Proof. reflexivity. Qed.

Lemma Forall_emit {A} (E : A -> Emission) (G : A -> Gen unit) s l :
  (forall x, emit (E x) = G x) ->
  Forall (fun e => runs (emit e) s) (map E l) <->
  Forall (fun x => runs (G x) s) l.
Proof.
  intros HE. rewrite Forall_fmap. apply Forall_iff. intros x.
  unfold compose. by rewrite HE.
Qed.

(** The runs of the emissions of a schedule, kind by kind. *)
Lemma schedule_runs s p arrays root :
  Forall (fun e => runs (emit e) s) (schedule p arrays root) <->
  Forall (fun sd => runs (GenStructDecl sd) s) (emitted_structs p) /\
  Forall (fun it => runs (GenArrayDecl (snd it)) s) arrays /\
  Forall (fun sd => runs (GenStructFields sd) s) (emitted_structs p) /\
  Forall (fun it => runs (GenArrayFields (snd it)) s) arrays /\
  Forall (fun sd => runs (GenBuilders sd) s) (emitted_tables p) /\
  Forall (fun it => runs (GenArrayBuilders (snd it)) s) arrays /\
  match root with Some sd => runs (GenFinish sd) s | None => True end.
Proof.
  unfold schedule. rewrite !map_map, !Forall_app.
  rewrite (Forall_emit EStructDecl GenStructDecl) by apply emit_EStructDecl.
  rewrite (Forall_emit (fun it : string * FbType => EArrayDecl (snd it))
             (fun it => GenArrayDecl (snd it)))
    by (intros; apply emit_EArrayDecl).
  rewrite (Forall_emit EStructFields GenStructFields)
    by apply emit_EStructFields.
  rewrite (Forall_emit (fun it : string * FbType => EArrayFields (snd it))
             (fun it => GenArrayFields (snd it)))
    by (intros; apply emit_EArrayFields).
  rewrite (Forall_emit EBuilders GenBuilders) by apply emit_EBuilders.
  rewrite (Forall_emit (fun it : string * FbType => EArrayBuilders (snd it))
             (fun it => GenArrayBuilders (snd it)))
    by (intros; apply emit_EArrayBuilders).
  assert (Forall (fun e => runs (emit e) s) [EBuilderInterface]) as Hinterface.
  { constructor; [|constructor]. eexists. reflexivity. }
  assert (Forall (fun e => runs (emit e) s)
            match root with Some sd => [EFinish sd] | None => [] end <->
          match root with Some sd => runs (GenFinish sd) s | None => True end)
    as ->.
  { destruct root as [sd|].
    - rewrite Forall_singleton. by rewrite emit_EFinish.
    - split; [done|constructor]. }
  tauto.
Qed.

Lemma root_step s root h mm :
  root_struct (parser_ s) = Ok root ->
  match root with Some sd => runs (GenFinish sd) s | None => True end ->
  when (bool_decide (root_struct_def_ (parser_ s) ≠ None))
       (call (fun self => deref (parser_ self) (root_struct_def_ (parser_ s)))
          ≫= fun sd => GenFinish sd) (with_writers s h mm) =
  Returned tt
    (with_writers s
       (h ++ match root with
             | Some sd => (written (GenFinish sd) s).1
             | None => []
             end)%list
       (mm ++ match root with
              | Some sd => (written (GenFinish sd) s).2
              | None => []
              end)%list).
Proof.
  intros Hroot Hfinish. unfold root_struct in Hroot.
  destruct (root_struct_def_ (parser_ s)) as [i|] eqn:Hr.
  - destruct (deref (parser_ s) (Some i)) as [sd|] eqn:Hd; [|done].
    simpl in Hroot. assert (root = Some sd) as -> by congruence.
    rewrite bool_decide_true by done. rewrite when_true.
    rewrite (bind_call _ _ _ sd) by exact Hd.
    exact (appends_run any_call any_call _ s h mm
             (GenFinish_appends sd) Hfinish).
  - assert (root = None) as -> by congruence.
    rewrite bool_decide_false by (by intros []).
    rewrite when_false, !app_nil_r. reflexivity.
Qed.

Ltac forward :=
  repeat lazymatch goal with
  | |- (mbind _ (on_h _)) _ = _ => rewrite bind_on_h
  | |- (mbind _ (on_mm _)) _ = _ => rewrite bind_on_mm
  | |- (mbind _ (read _)) _ = _ =>
      first [rewrite bind_read_blind by blind_tac | rewrite bind_read]
  end.

Lemma generate_runs disk s arrays root :
  collect_arrays s = Ok arrays ->
  root_struct (parser_ s) = Ok root ->
  Forall (fun e => runs (emit e) s) (schedule (parser_ s) arrays root) ->
  generate disk s =
    Returned (saved (generate_output s arrays root) disk)
             (generate_output s arrays root).
Proof.
  intros Harrays Hroot Hruns.
  apply schedule_runs in Hruns
    as (Hdecl & Hadecl & Hfields & Hafields & Hbuilders & Habuilders &
        Hfinish).
  eapply run_in_body; [unfold generate; reflexivity|].
  rewrite <- (with_writers_self s) at 1.
  unfold code_h_append, code_mm_append, code_h_Clear, code_mm_Clear.
  cbv zeta. forward.
  rewrite (bind_call _ _ _ arrays) by exact Harrays.
  forward.
  rewrite (bind_run _ _ _ _ _
             (for_each_when_runs any_call any_call _ _ _ _ _ _
                GenStructDecl_appends Hdecl)).
  rewrite (bind_run _ _ _ _ _
             (for_each_runs any_call any_call _ _ _
                (fun it : string * FbType => GenArrayDecl_appends (snd it))
                Hadecl _ _)).
  rewrite (bind_run _ _ _ _ _
             (for_each_when_runs any_call any_call _ _ _ _ _ _
                GenStructFields_appends Hfields)).
  rewrite (bind_run _ _ _ _ _
             (for_each_runs any_call any_call _ _ _
                (fun it : string * FbType => GenArrayFields_appends (snd it))
                Hafields _ _)).
  forward.
  rewrite (bind_run _ _ _ _ _
             (for_each_when_runs any_call any_call _ _ _ _ _ _
                GenBuilders_appends Hbuilders)).
  rewrite (bind_run _ _ _ _ _
             (for_each_runs any_call any_call _ _ _
                (fun it : string * FbType => GenArrayBuilders_appends (snd it))
                Habuilders _ _)).
  forward.
  rewrite (bind_run _ _ _ _ _ (root_step s root _ _ Hroot Hfinish)).
  forward.
  match goal with
  | |- mret _ ?st = _ =>
      assert (st = generate_output s arrays root) as ->
  end.
  { unfold generate_output, schedule, emitted_structs, emitted_tables,
      prologue_h, prologue_mm, epilogue_h, epilogue_mm.
    rewrite !flat_map_app, !flat_map_fmap.
    rewrite !(flat_map_singleton _ EBuilderInterface).
    rewrite written_interface_h, written_interface_mm.
    assert (forall f : Emission -> list WriterCall,
      flat_map f match root with Some sd => [EFinish sd] | None => [] end =
      match root with Some sd => f (EFinish sd) | None => [] end) as Hlast.
    { intros f. destruct root; [apply flat_map_singleton|done]. }
    rewrite !Hlast.
    cbv beta iota delta [emit].
    rewrite <- !app_assoc, <- ?app_comm_cons, ?app_nil_l, ?app_nil_r.
    reflexivity. }
  reflexivity.
Qed.

Lemma generate_returned_runs disk s r s' arrays root :
  generate disk s = Returned r s' ->
  collect_arrays s = Ok arrays ->
  root_struct (parser_ s) = Ok root ->
  Forall (fun e => runs (emit e) s) (schedule (parser_ s) arrays root).
Proof.
  intros Hrun Harrays Hroot. apply schedule_runs.
  eapply run_eq in Hrun; [|unfold generate; reflexivity].
  rewrite <- (with_writers_self s) in Hrun. walk Hrun.
  match goal with
  | Hc : collect_arrays s = Ok ?l |- _ =>
      assert (l = arrays) as -> by congruence
  end.
  apply bind_returned in Hrun as ([] & s1 & Hloop & Hrun).
  pose proof (for_each_returned_each any_call any_call _ _ _ _ _ _
                (fun sd : StructDef =>
                   appends_when any_call any_call _ _
                     (GenStructDecl_appends sd)) Hloop) as Hdecl.
  apply Forall_runs_when in Hdecl.
  apply (for_each_when_returned any_call any_call) in Hloop;
    [subst s1|apply GenStructDecl_appends].
  apply bind_returned in Hrun as ([] & s1 & Hloop & Hrun).
  pose proof (for_each_returned_each any_call any_call _ _ _ _ _ _
                (fun it : string * FbType => GenArrayDecl_appends (snd it))
                Hloop) as Hadecl.
  apply (for_each_returned any_call any_call) in Hloop;
    [subst s1|intros; apply GenArrayDecl_appends].
  apply bind_returned in Hrun as ([] & s1 & Hloop & Hrun).
  pose proof (for_each_returned_each any_call any_call _ _ _ _ _ _
                (fun sd : StructDef =>
                   appends_when any_call any_call _ _
                     (GenStructFields_appends sd)) Hloop) as Hfields.
  apply Forall_runs_when in Hfields.
  apply (for_each_when_returned any_call any_call) in Hloop;
    [subst s1|apply GenStructFields_appends].
  apply bind_returned in Hrun as ([] & s1 & Hloop & Hrun).
  pose proof (for_each_returned_each any_call any_call _ _ _ _ _ _
                (fun it : string * FbType => GenArrayFields_appends (snd it))
                Hloop) as Hafields.
  apply (for_each_returned any_call any_call) in Hloop;
    [subst s1|intros; apply GenArrayFields_appends].
  walk Hrun.
  apply bind_returned in Hrun as ([] & s1 & Hloop & Hrun).
  pose proof (for_each_returned_each any_call any_call _ _ _ _ _ _
                (fun sd : StructDef =>
                   appends_when any_call any_call _ _
                     (GenBuilders_appends sd)) Hloop) as Hbuilders.
  apply Forall_runs_when in Hbuilders.
  apply (for_each_when_returned any_call any_call) in Hloop;
    [subst s1|apply GenBuilders_appends].
  apply bind_returned in Hrun as ([] & s1 & Hloop & Hrun).
  pose proof (for_each_returned_each any_call any_call _ _ _ _ _ _
                (fun it : string * FbType => GenArrayBuilders_appends (snd it))
                Hloop) as Habuilders.
  apply (for_each_returned any_call any_call) in Hloop;
    [subst s1|intros; apply GenArrayBuilders_appends].
  walk Hrun.
  apply bind_returned in Hrun as ([] & s1 & Hfinish & _).
  do 6 (split; [assumption|]).
  unfold root_struct in Hroot.
  destruct (root_struct_def_ (parser_ s)) as [i|] eqn:Hr.
  - destruct (deref (parser_ s) (Some i)) as [sd|] eqn:Hd; [|done].
    simpl in Hroot. assert (root = Some sd) as -> by congruence.
    rewrite bool_decide_true in Hfinish by done. rewrite when_true in Hfinish.
    apply bind_returned in Hfinish as (sd' & s2 & Hd' & Hfinish).
    walk_head Hd'.
    assert (sd' = sd) as -> by congruence.
    by eapply (appends_runs_anywhere any_call any_call);
      [apply GenFinish_appends|].
  - by assert (root = None) as -> by congruence.
Qed.

Lemma Returned_both {A} (a b : A) (s1 s2 : SwiftGenerator) :
  Returned a s1 = Returned b s2 -> a = b /\ s1 = s2.
Proof. by intros [= -> ->]. Qed.

(** A run of [generate] returns exactly when the vector types can be
    collected, the root struct, if there is one, is there, and every
    emission of the schedule returns; the object it leaves and the answer
    it gives are then the ones above. *)
Lemma generate_returns disk s r s' :
  generate disk s = Returned r s' <->
  exists arrays root,
    collect_arrays s = Ok arrays /\
    root_struct (parser_ s) = Ok root /\
    Forall (fun e => runs (emit e) s) (schedule (parser_ s) arrays root) /\
    s' = generate_output s arrays root /\
    r = saved s' disk.
Proof.
  split.
  - intros Hrun.
    destruct (generate_schedule _ _ _ _ Hrun)
      as (arrays & root & Harrays & Hroot & Hs').
    exists arrays, root.
    pose proof (generate_returned_runs _ _ _ _ _ _ Hrun Harrays Hroot)
      as Hruns.
    pose proof (generate_runs disk s arrays root Harrays Hroot Hruns) as Hrun'.
    rewrite Hrun in Hrun'. apply Returned_both in Hrun' as [-> ->].
    split; [exact Harrays|]. split; [exact Hroot|]. split; [exact Hruns|].
    split; reflexivity.
  - intros (arrays & root & Harrays & Hroot & Hruns & -> & ->).
    exact (generate_runs disk s arrays root Harrays Hroot Hruns).
Qed.

End Runs.


(** ** Schemas on which the backend returns *)

(** [succeeds_with Q m s]: on the object [s], whatever its writers hold,
    the method [m] returns a value in [Q], and has touched the writers
    only. *)
Definition succeeds_with {A} (Q : A -> Prop) (m : Gen A)
    (s : SwiftGenerator) : Prop :=
  forall h mm, exists a h' mm',
    m (with_writers s h mm) = Returned a (with_writers s h' mm') /\ Q a.

Definition succeeds {A} (m : Gen A) (s : SwiftGenerator) : Prop :=
  succeeds_with (fun _ => True) m s.

Section Succeeds.
Context {A : Type}.
Implicit Types (s : SwiftGenerator) (Q : A -> Prop).

Lemma succeeds_ret Q (a : A) s : Q a -> succeeds_with Q (mret a) s.
Proof. intros Ha h mm. by exists a, h, mm. Qed.

Lemma succeeds_bind {B} (P : A -> Prop) (Q : B -> Prop) (m : Gen A)
    (f : A -> Gen B) s :
  succeeds_with P m s -> (forall a, P a -> succeeds_with Q (f a) s) ->
  succeeds_with Q (m ≫= f) s.
Proof.
  intros Hm Hf h mm. destruct (Hm h mm) as (a & h1 & mm1 & H1 & Ha).
  destruct (Hf a Ha h1 mm1) as (b & h2 & mm2 & H2 & Hb).
  exists b, h2, mm2. by rewrite (bind_run _ _ _ _ _ H1).
Qed.

Lemma succeeds_read_bind {B} (Q : B -> Prop) (g : SwiftGenerator -> A)
    (f : A -> Gen B) s :
  blind g -> succeeds_with Q (f (g s)) s -> succeeds_with Q (read g ≫= f) s.
Proof.
  intros Hg Hf h mm. destruct (Hf h mm) as (b & h2 & mm2 & H2 & Hb).
  exists b, h2, mm2. by rewrite bind_read_blind.
Qed.

Lemma succeeds_call_bind {B} (Q : B -> Prop) (g : SwiftGenerator -> Res A)
    (f : A -> Gen B) s a :
  blind g -> g s = Ok a -> succeeds_with Q (f a) s ->
  succeeds_with Q (call g ≫= f) s.
Proof.
  intros Hg Ha Hf h mm. destruct (Hf h mm) as (b & h2 & mm2 & H2 & Hb).
  exists b, h2, mm2. rewrite (bind_call _ _ _ a); [done|]. by rewrite Hg.
Qed.

End Succeeds.

Lemma succeeds_on_h (c : WriterCall) s : succeeds (on_h c) s.
Proof. intros h mm. by eexists tt, _, _. Qed.

Lemma succeeds_on_mm (c : WriterCall) s : succeeds (on_mm c) s.
Proof. intros h mm. by eexists tt, _, _. Qed.

Lemma succeeds_when (c : bool) (m : Gen unit) s :
  (c = true -> succeeds m s) -> succeeds (when c m) s.
Proof.
  destruct c.
  - intros Hm. rewrite when_true. by apply Hm.
  - intros _. rewrite when_false. by apply succeeds_ret.
Qed.

Lemma succeeds_for_each {A} (l : list A) (body : A -> Gen unit) s :
  Forall (fun x => succeeds (body x) s) l -> succeeds (for_each l body) s.
Proof.
  induction 1 as [|x l Hx _ IH]; [by apply succeeds_ret|].
  cbn [for_each]. eapply succeeds_bind; [exact Hx|]. by intros _ _.
Qed.

Lemma succeeds_runs (m : Gen unit) s : succeeds m s -> runs m s.
Proof.
  intros Hm.
  destruct (Hm (code_h_ s) (code_mm_ s)) as ([] & h & mm & Hrun & _).
  rewrite with_writers_self in Hrun. by eexists.
Qed.

(** One step along the text of a method; a call of a rendering function
    is settled by a fact of the context that says what it answers. *)
Ltac succeeds_step :=
  lazymatch goal with
  | |- succeeds_with _ (mbind _ (call _)) _ =>
      eapply succeeds_call_bind; [blind_tac|eassumption|]
  | |- succeeds_with _ (mbind _ (read _)) _ =>
      apply succeeds_read_bind; [blind_tac|]
  | |- succeeds_with _ (mbind _ (on_h _)) _ =>
      eapply succeeds_bind; [apply succeeds_on_h|intros _ _]
  | |- succeeds_with _ (mbind _ (on_mm _)) _ =>
      eapply succeeds_bind; [apply succeeds_on_mm|intros _ _]
  | |- succeeds_with _ (mret _) _ => apply succeeds_ret; try done
  | |- succeeds_with _ (on_h _) _ => apply succeeds_on_h
  | |- succeeds_with _ (on_mm _) _ => apply succeeds_on_mm
  | |- succeeds _ _ => unfold succeeds
  end.

Ltac succeeds_tac :=
  unfold GenComment, code_h_append, code_mm_append, code_h_SetValue,
    code_mm_SetValue, code_h_Clear, code_mm_Clear;
  cbv zeta;
  repeat succeeds_step.


(** A struct pointer that points to a struct definition of the parser. *)
Definition points (p : Parser) (r : StructRef) : bool :=
  match r with
  | Some i => bool_decide (i < List.length (structs_ p))
  | None => false
  end.

(** The types of fields that the backend renders everywhere: scalars,
    strings, structs, and vectors of these. *)
Definition supported_type (p : Parser) (t : FbType) : bool :=
  match base_type t with
  | BASE_TYPE_STRING => true
  | BASE_TYPE_STRUCT => points p (struct_def t)
  | BASE_TYPE_VECTOR =>
      match element t with
      | BASE_TYPE_STRING => true
      | BASE_TYPE_STRUCT => points p (struct_def t)
      | e => is_scalar e
      end
  | b => is_scalar b
  end.

(** The first key field of a struct, if it has one, is a scalar or a
    string. *)
Definition supported_key (sd : StructDef) : bool :=
  match first_key_field (fields sd) with
  | Some f =>
      is_scalar (base_type (type (value f))) ||
      bool_decide (base_type (type (value f)) = BASE_TYPE_STRING)
  | None => true
  end.

Definition supported_struct (p : Parser) (sd : StructDef) : bool :=
  forallb (fun f => supported_type p (type (value f))) (fields sd) &&
  supported_key sd.

(** The schemas in question: every field of every struct has a supported
    type, keys are scalars or strings, and the root type, if one is
    declared, is a struct of the schema. *)
Definition supported (p : Parser) : bool :=
  forallb (supported_struct p) (structs_ p) &&
  match root_struct_def_ p with
  | None => true
  | Some i => points p (Some i)
  end.

(** The vector types that [generate] collects on such a schema: vectors of
    structs. *)
Definition vector_of_structs (p : Parser) (t : FbType) : Prop :=
  base_type t = BASE_TYPE_VECTOR /\ element t = BASE_TYPE_STRUCT /\
  points p (struct_def t) = true.

Lemma points_deref p r :
  points p r = true -> exists sd, deref p r = Ok sd /\ sd ∈ structs_ p.
Proof.
  destruct r as [i|]; [|done]. cbn [points]. intros Hi%bool_decide_eq_true.
  destruct (lookup_lt_is_Some_2 (structs_ p) i Hi) as [sd Hsd].
  exists sd. cbn [deref]. rewrite Hsd. split; [done|].
  by eapply list_elem_of_lookup_2.
Qed.

Section SupportedTypes.
Context `{Externals}.
Variable s : SwiftGenerator.

Lemma supported_type_renders t name :
  supported_type (parser_ s) t = true ->
  (exists x, GenTypeForGet s t = Ok x) /\
  (exists x, GenTypeForSet s t = Ok x) /\
  (exists x, GenTypeCastGet t = Ok x) /\
  (exists x, GenTypeCastSet s t name = Ok x) /\
  (base_type t = BASE_TYPE_STRUCT ->
   exists sd, deref (parser_ s) (struct_def t) = Ok sd).
Proof.
  destruct t as [b e r]. unfold supported_type.
  cbn [base_type element struct_def].
  destruct b; try discriminate;
    try (intros _; split_and!; solve [discriminate | by eexists]).
  - (* a vector *)
    destruct e; try discriminate;
      try (intros _; split_and!; solve [discriminate | by eexists]).
    intros (sd & Hsd & _)%points_deref.
    split_and!; try discriminate; try (by eexists).
    + unfold GenTypeForGet, GenTypeRef. cbn [base_type].
      rewrite GenTypeInternal_unfold.
      unfold VectorType; cbn [base_type element struct_def].
      rewrite GenTypeInternal_unfold. cbn [base_type struct_def element].
      rewrite Hsd. by eexists.
    + unfold GenTypeForSet, GenTypeOffset. cbn [base_type].
      rewrite GenTypeInternal_unfold.
      unfold VectorType; cbn [base_type element struct_def].
      rewrite GenTypeInternal_unfold. cbn [base_type struct_def element].
      rewrite Hsd. by eexists.
  - (* a struct *)
    intros (sd & Hsd & _)%points_deref.
    split_and!; [| |by eexists| |intros _; by exists sd].
    + unfold GenTypeForGet, VectorType. cbn [base_type element struct_def].
      rewrite Hsd. by eexists.
    + unfold GenTypeForSet, VectorType. cbn [base_type element struct_def].
      rewrite Hsd. by eexists.
    + unfold GenTypeCastSet. cbn [base_type element struct_def].
      rewrite Hsd. cbn. destruct (fixed sd); by eexists.
Qed.

Lemma vector_of_structs_renders t :
  vector_of_structs (parser_ s) t ->
  exists sd,
    deref (parser_ s) (struct_def t) = Ok sd /\ sd ∈ structs_ (parser_ s) /\
    deref (parser_ s) (struct_def (VectorType t)) = Ok sd /\
    GenTypeInternal s t = Ok (EscapeKeyword s (name sd) +:+ "Array") /\
    GenTypeRef s t = Ok ((EscapeKeyword s (name sd) +:+ "Array") +:+ "Ref") /\
    GenTypeOffset s t =
      Ok ((EscapeKeyword s (name sd) +:+ "Array") +:+ "Offset") /\
    GenTypeInternal s (VectorType t) = Ok (EscapeKeyword s (name sd)) /\
    GenTypeRef s (VectorType t) = Ok (EscapeKeyword s (name sd) +:+ "Ref") /\
    GenTypeOffset s (VectorType t) =
      Ok (EscapeKeyword s (name sd) +:+ "Offset") /\
    GenTypeForGet s (VectorType t) =
      Ok (EscapeKeyword s (name sd) +:+ "Ref") /\
    GenTypeFlatbuffersOffset s (VectorType t) =
      Ok ("flatbuffers::Offset<" +:+ WrapInNameSpace_def (parser_ s) sd +:+ ">") /\
    GenTypeCastGet (VectorType t) = Ok "{ .buf = value }" /\
    element_has_key s t = Ok (has_key sd).
Proof.
  destruct t as [b e r]. intros (Hb & He & Hr). cbn in Hb, He, Hr. subst b e.
  destruct (points_deref _ _ Hr) as (sd & Hsd & Hin).
  exists sd.
  assert (GenTypeInternal s (mkType BASE_TYPE_STRUCT BASE_TYPE_NONE r) =
          Ok (EscapeKeyword s (name sd))) as Hinner.
  { rewrite GenTypeInternal_unfold. cbn [base_type struct_def].
    by rewrite Hsd. }
  assert (GenTypeInternal s (mkType BASE_TYPE_VECTOR BASE_TYPE_STRUCT r) =
          Ok (EscapeKeyword s (name sd) +:+ "Array")) as Houter.
  { rewrite GenTypeInternal_unfold.
    unfold VectorType; cbn [base_type element struct_def].
    by rewrite Hinner. }
  unfold GenTypeRef, GenTypeOffset, GenTypeForGet, element_has_key.
  unfold VectorType; cbn [base_type element struct_def].
  rewrite Houter, Hinner, Hsd, GenTypeFlatbuffersOffset_unfold.
  cbn [base_type struct_def]. rewrite Hsd.
  rewrite bool_decide_true by done.
  split_and!; first [done | reflexivity].
Qed.

End SupportedTypes.


Section SupportedMethods.
Context `{Externals}.
Variable s : SwiftGenerator.

Definition supported_fields (sd : StructDef) : Prop :=
  Forall (fun f => supported_type (parser_ s) (type (value f)) = true)
         (fields sd).

Lemma GenFinish_succeeds sd : succeeds (GenFinish sd) s.
Proof. unfold GenFinish. succeeds_tac. Qed.

Lemma GenStructDecl_succeeds sd :
  supported_fields sd -> succeeds (GenStructDecl sd) s.
Proof.
  intros Hfields. unfold GenStructDecl. succeeds_tac.
  eapply succeeds_bind; [|intros _ _; succeeds_tac].
  apply succeeds_when. intros _. succeeds_tac.
  eapply succeeds_bind; [|intros _ _; succeeds_tac].
  apply succeeds_for_each.
  eapply Forall_impl; [exact Hfields|]. intros f Hf.
  destruct (supported_type_renders s _ "" Hf) as ([x Hget] & _).
  cbv beta. succeeds_tac.
Qed.

Lemma GenStructFields_succeeds sd :
  supported_fields sd -> succeeds (GenStructFields sd) s.
Proof.
  intros Hfields. unfold GenStructFields. succeeds_tac.
  eapply succeeds_bind; [|intros _ _; succeeds_tac].
  apply succeeds_for_each.
  eapply Forall_impl; [exact Hfields|]. intros f Hf.
  destruct (supported_type_renders s _ "" Hf)
    as ([x Hget] & _ & [y Hcast] & _).
  cbv beta. succeeds_tac.
Qed.

Lemma GenCreateSelector_loop_renders fs : forall first result,
  Forall (fun f => supported_type (parser_ s) (type (value f)) = true) fs ->
  exists x, GenCreateSelector_loop s fs first result = Ok x.
Proof.
  induction fs as [|f fs IH]; intros first result Hfs; [by eexists|].
  apply Forall_cons in Hfs as [Hf Hfs]. cbn [GenCreateSelector_loop].
  destruct (negb (deprecated f)); [|by apply IH].
  destruct (supported_type_renders s _ "" Hf) as (_ & [x Hset] & _).
  unfold GenParamSwift. rewrite Hset. cbn. by apply IH.
Qed.

Lemma GenBuilders_succeeds sd :
  supported_fields sd -> succeeds (GenBuilders sd) s.
Proof.
  intros Hfields. unfold GenBuilders.
  destruct (GenCreateSelector_loop_renders (fields sd) true
              ("make" +:+ GenTypeInternal_def s sd +:+ "With") Hfields)
    as [selector Hselector].
  change (GenCreateSelector s sd = Ok selector) in Hselector.
  succeeds_tac.
  eapply succeeds_bind; [|intros _ _; succeeds_tac].
  { apply succeeds_for_each.
    eapply Forall_impl; [exact Hfields|]. intros f Hf. cbv beta.
    destruct (negb (deprecated f) &&
              bool_decide (base_type (type (value f)) = BASE_TYPE_STRUCT))
      eqn:Hlive; [|by apply succeeds_ret].
    apply andb_true_iff in Hlive as [_ Hstruct%bool_decide_eq_true].
    destruct (supported_type_renders s _ "" Hf) as (_ & _ & _ & _ & Hd).
    destruct (Hd Hstruct) as [sd' Hsd'].
    change (field_struct s f = Ok sd') in Hsd'.
    succeeds_tac. apply succeeds_when. intros _. succeeds_tac. }
  eapply succeeds_bind; [|intros _ _; succeeds_tac].
  apply succeeds_for_each.
  eapply Forall_impl; [exact Hfields|]. intros f Hf. cbv beta.
  apply succeeds_when. intros _.
  destruct (supported_type_renders s _ (name f) Hf)
    as (_ & _ & _ & [x Hcast] & _).
  succeeds_tac.
Qed.

Lemma GenArrayDecl_succeeds t :
  vector_of_structs (parser_ s) t -> succeeds (GenArrayDecl t) s.
Proof.
  intros Ht. unfold GenArrayDecl.
  destruct (vector_of_structs_renders s t Ht)
    as (sd & _ & _ & _ & _ & Href & Hoffset & _).
  succeeds_tac.
Qed.

Lemma GenArrayBuilders_succeeds t :
  vector_of_structs (parser_ s) t -> succeeds (GenArrayBuilders t) s.
Proof.
  intros Ht. unfold GenArrayBuilders.
  destruct (vector_of_structs_renders s t Ht)
    as (sd & _ & _ & _ & _ & Href & Hoffset & Hinner & _ & Hoffset' & _ &
        Hflat & _ & Hkeyed).
  succeeds_tac. apply succeeds_when. intros _. succeeds_tac.
Qed.

(** The loop of GenArrayFields that looks for the key field: it ends at
    the first one. *)
Lemma key_loop_succeeds fs :
  (forall f, first_key_field fs = Some f ->
             exists x y, GenTypeForKey (type (value f)) = Ok x /\
                         GenTypeCastKey (type (value f)) = Ok y) ->
  succeeds
    (for_each_until fs (fun field =>
       if key field then
         v ← call (fun _ => GenTypeForKey (type (value field)));
         code_h_SetValue "KEY_TYPE" v ;;
         v ← call (fun _ => GenTypeForKey (type (value field)));
         code_mm_SetValue "KEY_TYPE" v ;;
         v ← call (fun _ => GenTypeCastKey (type (value field)));
         code_mm_SetValue "KEY_CAST" v ;;
         mret true
       else mret false)) s.
Proof.
  induction fs as [|f fs IH]; intros Hkey; [by apply succeeds_ret|].
  cbn [for_each_until]. unfold first_key_field in Hkey. cbn [List.find] in Hkey.
  destruct (key f) eqn:Hf.
  - destruct (Hkey f eq_refl) as (x & y & Hx & Hy).
    eapply (succeeds_bind (fun stop => stop = true)).
    + succeeds_tac.
    + intros stop ->. by apply succeeds_ret.
  - eapply (succeeds_bind (fun stop => stop = false)).
    + by apply succeeds_ret.
    + intros stop ->. by apply IH.
Qed.

Lemma supported_key_renders sd f :
  supported_key sd = true -> first_key_field (fields sd) = Some f ->
  exists x y, GenTypeForKey (type (value f)) = Ok x /\
              GenTypeCastKey (type (value f)) = Ok y.
Proof.
  unfold supported_key. intros Hkey Hf. rewrite Hf in Hkey.
  destruct (type (value f)) as [b e r]. cbn [base_type] in Hkey.
  destruct b; try discriminate; by eexists _, _.
Qed.

Lemma GenArrayFields_succeeds t :
  vector_of_structs (parser_ s) t ->
  (forall sd, sd ∈ structs_ (parser_ s) -> supported_key sd = true) ->
  succeeds (GenArrayFields t) s.
Proof.
  intros Ht Hkeys. unfold GenArrayFields.
  destruct (vector_of_structs_renders s t Ht)
    as (sd & _ & Hin & Hsd & _ & Href & Hoffset & _ & Href' & _ & Hget &
        _ & Hcast & Hkeyed).
  assert ((sd0 ← deref (parser_ s) (struct_def (VectorType t));
           Ok (GenTypeFlatbuffers_def s (struct_base sd0))) =
          Ok (GenTypeFlatbuffers_def s sd)) as Hflat by (by rewrite Hsd).
  succeeds_tac.
  eapply succeeds_bind; [|intros _ _; succeeds_tac].
  apply succeeds_when. intros _. succeeds_tac.
  eapply succeeds_bind; [|intros _ _; succeeds_tac].
  apply key_loop_succeeds. intros f. apply supported_key_renders.
  by apply Hkeys.
Qed.

End SupportedMethods.


(** ** The collection of vector types *)

(** The field types that the first loop nest of [generate] enters in
    [arrays]: vectors whose elements are vectors, structs or unions. *)
Definition collected (t : FbType) : bool :=
  bool_decide (base_type t = BASE_TYPE_VECTOR) &&
  (bool_decide (element t = BASE_TYPE_VECTOR) ||
   bool_decide (element t = BASE_TYPE_STRUCT) ||
   bool_decide (element t = BASE_TYPE_UNION)).

Lemma for_acc_total {A S} (P : S -> Prop) (body : A -> S -> Res S)
    (l : list A) (acc : S) :
  Forall (fun x => forall a, P a -> exists a', body x a = Ok a' /\ P a') l ->
  P acc -> exists acc', for_acc l body acc = Ok acc' /\ P acc'.
Proof.
  intros Hl. revert acc. induction Hl as [|x l Hx _ IH]; intros acc Hacc.
  - by exists acc.
  - destruct (Hx acc Hacc) as (a & Ha & HPa). cbn [for_acc]. rewrite Ha.
    by apply IH.
Qed.

Lemma for_acc_covers {A S} (R : S -> S -> Prop) (C : A -> S -> Prop)
    (body : A -> S -> Res S) (l : list A) (acc acc' : S) :
  (forall a, R a a) -> (forall a b c, R a b -> R b c -> R a c) ->
  (forall x a a', C x a -> R a a' -> C x a') ->
  (forall x a a', x ∈ l -> body x a = Ok a' -> R a a' /\ C x a') ->
  for_acc l body acc = Ok acc' ->
  R acc acc' /\ forall x, x ∈ l -> C x acc'.
Proof.
  intros Hrefl Htrans Hmono. revert acc.
  induction l as [|x l IH]; intros acc Hbody; cbn [for_acc].
  - intros [= <-]. split; [done|]. by intros x ?%elem_of_nil.
  - destruct (body x acc) as [a|] eqn:Hx; [|done]. cbn. intros Hrest.
    destruct (Hbody x acc a) as [Hacc Hcx]; [by left|done|].
    destruct (IH a) as [Ha Hl]; [|done|].
    { intros y b b' Hy. apply Hbody. by right. }
    split; [by eapply Htrans|].
    intros y [->|Hy]%elem_of_cons; [by eapply Hmono|by apply Hl].
Qed.

Lemma map_assign_values (Q : FbType -> Prop) k v (m : Arrays) :
  Q v -> Forall (fun it => Q (snd it)) m ->
  Forall (fun it => Q (snd it)) (map_assign k v m).
Proof.
  intros Hv. induction 1 as [|[k0 v0] m H0 Hm IH]; cbn [map_assign].
  - by repeat constructor.
  - destruct (string_lt k k0); [|destruct (string_lt k0 k)].
    + by repeat constructor.
    + by constructor.
    + by constructor.
Qed.

Lemma map_assign_entries k v (m : Arrays) it :
  it ∈ map_assign k v m -> it = (k, v) \/ it ∈ m.
Proof.
  induction m as [|[k0 v0] m IH]; cbn [map_assign].
  - intros ->%list_elem_of_singleton. by left.
  - destruct (string_lt k k0) eqn:H1; [|destruct (string_lt k0 k) eqn:H2].
    + intros [->|Hit]%elem_of_cons; [by left|by right].
    + intros [->|Hit]%elem_of_cons; [right; by left|].
      destruct (IH Hit) as [->|Hm]; [by left|right; by right].
    + rewrite (key_lt_connected k k0 H1 H2).
      intros [->|Hit]%elem_of_cons; [by left|right; by right].
Qed.

Section Collected.
Context `{Externals}.
Variable s : SwiftGenerator.

(** What the loop over [type = type.VectorType()] comes to for one
    field. *)
Lemma collect_type_closed (field_type t : FbType) (arrays : Arrays) :
  collect_type s 3 field_type t arrays =
  if collected t then
    k ← GenTypeInternal s field_type; Ok (map_assign k field_type arrays)
  else Ok arrays.
Proof.
  cbn [collect_type]. generalize (GenTypeInternal s field_type) as k.
  intros k. destruct t as [b e r]; destruct b; try reflexivity;
    destruct e; try reflexivity; destruct k; reflexivity.
Qed.

Lemma collect_field_closed (f : FieldDef) (arrays : Arrays) :
  collect_field s f arrays =
  if collected (type (value f)) then
    k ← GenTypeInternal s (type (value f));
    Ok (map_assign k (type (value f)) arrays)
  else Ok arrays.
Proof. apply collect_type_closed. Qed.

End Collected.

Lemma for_acc_invariant_in {A S} (P : S -> Prop) (body : A -> S -> Res S)
    (l : list A) (acc acc' : S) :
  (forall x a a', x ∈ l -> P a -> body x a = Ok a' -> P a') ->
  P acc -> for_acc l body acc = Ok acc' -> P acc'.
Proof.
  revert acc. induction l as [|x l IH]; intros acc Hbody Hacc; cbn [for_acc].
  - by intros [= <-].
  - destruct (body x acc) as [a|] eqn:Hx; [|done]. cbn.
    apply IH.
    + intros y b b' Hy. apply Hbody. by right.
    + eapply Hbody; [by left|done..].
Qed.


Section SupportedSchemas.
Context `{Externals}.
Variable s : SwiftGenerator.

Lemma supported_struct_fields sd :
  supported_struct (parser_ s) sd = true ->
  supported_fields s sd /\ supported_key sd = true.
Proof.
  unfold supported_struct, supported_fields.
  intros [Hf Hk]%andb_true_iff. split; [|done].
  apply Forall_forall. intros f Hf'. rewrite forallb_forall in Hf.
  apply Hf. by apply list_elem_of_In.
Qed.

Lemma supported_collected t :
  supported_type (parser_ s) t = true -> collected t = true ->
  vector_of_structs (parser_ s) t.
Proof.
  destruct t as [b e r]. unfold supported_type, collected, vector_of_structs.
  cbn [base_type element struct_def].
  destruct b; try discriminate. destruct e; try discriminate. done.
Qed.

Lemma supported_collect_arrays :
  forallb (supported_struct (parser_ s)) (structs_ (parser_ s)) = true ->
  exists arrays,
    collect_arrays s = Ok arrays /\
    Forall (fun it => vector_of_structs (parser_ s) (snd it)) arrays.
Proof.
  intros Hs. rewrite forallb_forall in Hs. unfold collect_arrays.
  apply (for_acc_total
           (Forall (fun it => vector_of_structs (parser_ s) (snd it))));
    [|constructor].
  apply Forall_forall. intros sd Hsd%list_elem_of_In a Ha.
  destruct (supported_struct_fields sd (Hs sd Hsd)) as [Hfields _].
  unfold collect_struct. apply for_acc_total; [|done].
  eapply Forall_impl; [exact Hfields|]. intros f Hf b Hb. cbv beta in Hf.
  rewrite collect_field_closed.
  destruct (collected (type (value f))) eqn:Hc; [|by exists b].
  pose proof (supported_collected _ Hf Hc) as Hv.
  destruct (vector_of_structs_renders s _ Hv) as (sd' & _ & _ & _ & Hk & _).
  rewrite Hk. eexists. split; [reflexivity|].
  by apply (map_assign_values (vector_of_structs (parser_ s))).
Qed.

Lemma supported_root :
  match root_struct_def_ (parser_ s) with
  | None => true
  | Some i => points (parser_ s) (Some i)
  end = true ->
  exists root, root_struct (parser_ s) = Ok root.
Proof.
  unfold root_struct. destruct (root_struct_def_ (parser_ s)) as [i|].
  - intros (sd & Hsd & _)%points_deref. rewrite Hsd. by eexists.
  - by eexists.
Qed.

Lemma supported_generate disk :
  supported (parser_ s) = true -> exists r s', generate disk s = Returned r s'.
Proof.
  unfold supported. intros [Hstructs Hroot]%andb_true_iff.
  destruct (supported_collect_arrays Hstructs) as (arrays & Harrays & Hall).
  destruct (supported_root Hroot) as [root Hr].
  do 2 eexists. apply (generate_runs disk s arrays root Harrays Hr).
  rewrite forallb_forall in Hstructs.
  assert (forall sd, sd ∈ structs_ (parser_ s) ->
            supported_fields s sd /\ supported_key sd = true) as Hsd.
  { intros sd Hin%list_elem_of_In. by apply supported_struct_fields, Hstructs. }
  apply schedule_runs. split_and!.
  - apply Forall_forall. intros sd [_ Hin]%list_elem_of_filter.
    by apply succeeds_runs, GenStructDecl_succeeds, Hsd.
  - eapply Forall_impl; [exact Hall|]. intros it Hit.
    by apply succeeds_runs, GenArrayDecl_succeeds.
  - apply Forall_forall. intros sd [_ Hin]%list_elem_of_filter.
    by apply succeeds_runs, GenStructFields_succeeds, Hsd.
  - eapply Forall_impl; [exact Hall|]. intros it Hit.
    apply succeeds_runs, GenArrayFields_succeeds; [done|].
    intros sd Hin. by apply Hsd.
  - apply Forall_forall. intros sd [_ Hin]%list_elem_of_filter.
    by apply succeeds_runs, GenBuilders_succeeds, Hsd.
  - eapply Forall_impl; [exact Hall|]. intros it Hit.
    by apply succeeds_runs, GenArrayBuilders_succeeds.
  - destruct root; [|done]. apply succeeds_runs, GenFinish_succeeds.
Qed.

End SupportedSchemas.

(** X11. On a schema all of whose fields are scalars, strings, structs of
    the schema or vectors of these, whose keys are scalars or strings and
    whose root type, if any, is a struct of the schema, the backend
    returns: it neither calls abort() nor follows a null struct pointer. *)
Theorem supported_schemas_are_generated `{Externals} (parser : Parser)
    (path file_name : string) (disk : FileSystem) :
  supported parser = true ->
  exists r s', GenerateSwift parser path file_name disk = Returned r s'.
Proof.
  intros Hp. unfold GenerateSwift.
  by apply (supported_generate (SwiftGenerator_new parser path file_name)).
Qed.

Lemma supported_schemas_are_generated_witness :
  supported Sample.schema = true /\
  exists r s',
    @GenerateSwift Sample.externals Sample.schema "out/" "monster" [] =
    Returned r s'.
Proof.
  split; [reflexivity|].
  apply (@supported_schemas_are_generated Sample.externals). reflexivity.
Defined.


Section Agreement.
Context `{Externals}.
Variable s : SwiftGenerator.

Lemma subscript_types_agree t :
  collected t = true ->
  GenTypeRef s (VectorType t) = GenTypeForGet s (VectorType t).
Proof.
  destruct t as [b e r]. unfold collected. cbn [base_type element].
  destruct b; try discriminate. destruct e; try discriminate; intros _.
  - reflexivity.
  - cbn. by destruct (deref (parser_ s) r).
  - reflexivity.
Qed.

Lemma ForGet_renders t :
  renders (GenTypeForGet s t) ->
  ~ unsupported (base_type t) /\
  (base_type t = BASE_TYPE_VECTOR -> ~ unsupported (element t)).
Proof.
  destruct t as [b e r]. cbn [base_type element]. intros [x Hx].
  split.
  - intros [->|[->|[raw ->]]]; discriminate.
  - intros -> [->|[->|[raw ->]]]; discriminate.
Qed.

End Agreement.

Section Collection.
Context `{Externals}.
Variable s : SwiftGenerator.

Lemma collect_arrays_sound arrays k t :
  collect_arrays s = Ok arrays -> (k, t) ∈ arrays ->
  collected t = true /\ GenTypeInternal s t = Ok k /\
  exists sd f, sd ∈ structs_ (parser_ s) /\ f ∈ fields sd /\
               type (value f) = t.
Proof.
  intros Hc.
  pose (P := fun a : Arrays => forall k t, (k, t) ∈ a ->
               collected t = true /\ GenTypeInternal s t = Ok k /\
               exists sd f, sd ∈ structs_ (parser_ s) /\ f ∈ fields sd /\
                            type (value f) = t).
  revert k t. change (P arrays).
  apply (for_acc_invariant_in P (collect_struct s) (structs_ (parser_ s))
           [] arrays); [| |exact Hc].
  - intros sd a a' Hsd Ha. unfold collect_struct.
    apply (for_acc_invariant_in P); [|done].
    intros f b b' Hf Hb. rewrite collect_field_closed.
    destruct (collected (type (value f))) eqn:Hcol; [|by intros [= <-]].
    destruct (GenTypeInternal s (type (value f))) as [k|] eqn:Hk; [|done].
    cbn. intros [= <-] k' t' [[= -> ->]|Hin]%map_assign_entries.
    + split_and!; [done..|]. by exists sd, f.
    + by apply Hb.
  - by intros k t ?%elem_of_nil.
Qed.

Lemma map_assign_grows k v (a : Arrays) k' :
  k' ∈ map fst a -> k' ∈ map fst (map_assign k v a).
Proof. intros Hk'. apply map_assign_keys. by right. Qed.

Lemma collect_arrays_complete arrays sd f :
  collect_arrays s = Ok arrays ->
  sd ∈ structs_ (parser_ s) -> f ∈ fields sd ->
  collected (type (value f)) = true ->
  exists k, GenTypeInternal s (type (value f)) = Ok k /\
            k ∈ map fst arrays.
Proof.
  intros Hc Hsd Hf Hcol.
  pose (R := fun a a' : Arrays => forall k, k ∈ map fst a -> k ∈ map fst a').
  pose (C := fun (f : FieldDef) (a : Arrays) =>
               collected (type (value f)) = true ->
               exists k, GenTypeInternal s (type (value f)) = Ok k /\
                         k ∈ map fst a).
  assert (forall a, R a a) as Hrefl by (by intros a k).
  assert (forall a b c, R a b -> R b c -> R a c) as Htrans.
  { intros a b c Hab Hbc k Hk. by apply Hbc, Hab. }
  assert (forall f a a', C f a -> R a a' -> C f a') as Hmono.
  { intros g a a' Hg Haa' Hcg. destruct (Hg Hcg) as (k & Hk & Hin).
    exists k. split; [done|]. by apply Haa'. }
  destruct (for_acc_covers R (fun sd a => forall f, f ∈ fields sd -> C f a)
              (collect_struct s) (structs_ (parser_ s)) [] arrays)
    as [_ Hall]; [done|done| | |exact Hc|by apply (Hall sd Hsd f Hf)].
  - intros sd' a a' Hsda Haa' g Hg. by eapply Hmono; [apply Hsda|].
  - intros sd' a a' _. unfold collect_struct.
    apply for_acc_covers; [done..|].
    intros g b b' _. rewrite collect_field_closed. unfold C.
    destruct (collected (type (value g))) eqn:Hcg.
    + destruct (GenTypeInternal s (type (value g))) as [k|] eqn:Hk; [|done].
      cbn. intros [= <-]. split.
      * intros k'. apply map_assign_grows.
      * intros _. exists k. split; [done|]. apply map_assign_keys. by left.
    + intros [= <-]. split; [done|]. done.
Qed.

End Collection.

(** X12. The vector types that generate() collects. Every entry of the map
    is the type of a field of some struct of the schema, generated structs
    included: a vector of vectors, structs or unions, kept under its
    internal name. And every such field type has its internal name among
    the keys. *)
Theorem collected_vector_types `{Externals} (s : SwiftGenerator)
    (arrays : Arrays) :
  collect_arrays s = Ok arrays ->
  (forall k t, (k, t) ∈ arrays ->
     collected t = true /\ GenTypeInternal s t = Ok k /\
     exists sd f, sd ∈ structs_ (parser_ s) /\ f ∈ fields sd /\
                  type (value f) = t) /\
  (forall sd f, sd ∈ structs_ (parser_ s) -> f ∈ fields sd ->
     collected (type (value f)) = true ->
     exists k, GenTypeInternal s (type (value f)) = Ok k /\
               k ∈ map fst arrays).
Proof.
  intros Hc. split.
  - intros k t. by apply collect_arrays_sound.
  - intros sd f. by apply collect_arrays_complete.
Qed.

Lemma collected_vector_types_witness :
  collect_arrays Sample.generator =
    Ok [("WeaponArray", Sample.weapons_type)] /\
  exists k, GenTypeInternal Sample.generator Sample.weapons_type = Ok k /\
            k ∈ map fst [("WeaponArray", Sample.weapons_type)].
Proof.
  split; [reflexivity|].
  refine (proj2 (@collected_vector_types Sample.externals Sample.generator
                   [("WeaponArray", Sample.weapons_type)] _)
            Sample.Monster
            (Sample.field "weapons" Sample.weapons_type false false)
            _ _ _).
  - reflexivity.
  - apply (list_elem_of_lookup_2 _ 2). reflexivity.
  - apply (list_elem_of_lookup_2 _ 4). reflexivity.
  - reflexivity.
Defined.

Section Necessary.
Context `{Externals}.

Lemma union_vectors_not_collected s t :
  base_type t = BASE_TYPE_VECTOR -> element t = BASE_TYPE_UNION ->
  collected t = true /\ GenTypeInternal s t = Fail AbortCalled.
Proof. destruct t as [b e r]. cbn. by intros -> ->. Qed.

End Necessary.

(** X13. What a returning run says about the schema. When generate()
    returns, every field of every struct that is not flagged generated,
    deprecated fields included, has a type that the accessors render: its
    base type is no union, no array and no unlisted value, and neither is
    the element type if it is a vector. And no struct at all, generated or
    not, has a field that is a vector of unions. *)
Theorem returning_runs_render_every_field `{Externals} (disk : FileSystem)
    (s : SwiftGenerator) (r : bool * FileSystem) (s' : SwiftGenerator) :
  generate disk s = Returned r s' ->
  forall sd f, sd ∈ structs_ (parser_ s) -> f ∈ fields sd ->
    (generated sd = false ->
       renders (GenTypeForGet s (type (value f))) /\
       ~ unsupported (base_type (type (value f))) /\
       (base_type (type (value f)) = BASE_TYPE_VECTOR ->
        ~ unsupported (element (type (value f))))) /\
    ~ (base_type (type (value f)) = BASE_TYPE_VECTOR /\
       element (type (value f)) = BASE_TYPE_UNION).
Proof.
  intros Hrun sd f Hsd Hf.
  apply generate_returns in Hrun
    as (arrays & root & Harrays & _ & Hruns & _ & _).
  split.
  - intros Hgen.
    apply schedule_runs in Hruns as (_ & _ & Hfields & _).
    rewrite Forall_forall in Hfields.
    destruct (Hfields sd) as [s1 Hs1].
    { apply list_elem_of_filter. split; [|done]. by rewrite Hgen. }
    apply GenStructFields_returned in Hs1 as [Hall _].
    rewrite Forall_forall in Hall. destruct (Hall f Hf) as [Hget _].
    split; [done|]. by apply (ForGet_renders s).
  - intros [Hb He].
    destruct (union_vectors_not_collected s _ Hb He) as [Hcol Hk].
    destruct (collect_arrays_complete s arrays sd f Harrays Hsd Hf Hcol)
      as (k & Hk' & _).
    congruence.
Qed.

Lemma returning_runs_render_every_field_witness :
  exists r s',
    @generate Sample.externals [] Sample.generator = Returned r s' /\
    renders (GenTypeForGet Sample.generator Sample.weapons_type).
Proof.
  assert (exists r s',
            @generate Sample.externals [] Sample.generator = Returned r s')
    as (r & s' & Hrun) by (eexists _, _; vm_compute; reflexivity).
  exists r, s'. split; [done|].
  assert (Sample.Monster ∈ structs_ (parser_ Sample.generator)) as Hsd
    by (apply (list_elem_of_lookup_2 _ 2); reflexivity).
  assert (Sample.field "weapons" Sample.weapons_type false false
            ∈ fields Sample.Monster) as Hf
    by (apply (list_elem_of_lookup_2 _ 4); reflexivity).
  exact (proj1 (proj1 (@returning_runs_render_every_field Sample.externals
                         [] _ _ _ Hrun _ _ Hsd Hf) eq_refl)).
Defined.


(** ** The files that are saved *)

Lemma append_inj_r (a b c : string) : a +:+ b = a +:+ c -> b = c.
Proof.
  induction a as [|x a IH]; rewrite ?str_app_nil_l; [done|].
  rewrite !str_app_cons. intros [= Heq]. by apply IH.
Qed.

Lemma GeneratedFileName_suffix path file_name suffix1 suffix2 :
  GeneratedFileName path file_name suffix1 =
  GeneratedFileName path file_name suffix2 -> suffix1 = suffix2.
Proof.
  unfold GeneratedFileName. by intros Heq%append_inj_r%append_inj_r%append_inj_r.
Qed.

(** X14. The answer of the backend and the files it saves. The three files
    are saved in turn, the next one only when the one before was saved, and
    the answer is that of the last one tried. The three names that
    GeneratedFileName makes for them are different from one another. The
    header and the implementation hold the text of the two writers; the
    Swift file holds the text of a writer that nothing was written to. *)
Theorem generated_files `{Externals} (parser : Parser)
    (path file_name : string) (disk : FileSystem)
    (r : bool * FileSystem) (s' : SwiftGenerator) :
  GenerateSwift parser path file_name disk = Returned r s' ->
  let header := GeneratedFileName path file_name "swift_generated.h" in
  let implementation :=
    GeneratedFileName path file_name "swift_generated.mm" in
  let swift := GeneratedFileName path file_name "swift_generated.swift" in
  r = and_also
        (and_also (SaveFile header (ToString (code_h_ s')) false disk)
                  (SaveFile implementation (ToString (code_mm_ s')) false))
        (SaveFile swift (ToString []) false) /\
  header <> implementation /\ header <> swift /\ implementation <> swift.
Proof.
  unfold GenerateSwift. intros Hrun.
  apply generate_returns in Hrun as (arrays & root & _ & _ & _ & -> & ->).
  split; [reflexivity|].
  split_and!; by intros ?%GeneratedFileName_suffix.
Qed.

Lemma generated_files_witness :
  exists r s',
    @GenerateSwift Sample.externals Sample.schema "out/" "monster" [] =
      Returned r s' /\
    r = @and_also Sample.externals
          (@and_also Sample.externals
             (Sample.save "out/monster_swift_generated.h"
                          (Sample.render (code_h_ s')) false [])
             (Sample.save "out/monster_swift_generated.mm"
                          (Sample.render (code_mm_ s')) false))
          (Sample.save "out/monster_swift_generated.swift"
                       (Sample.render []) false).
Proof.
  assert (exists r s',
            @GenerateSwift Sample.externals Sample.schema "out/" "monster" [] =
            Returned r s')
    as (r & s' & Hrun) by (eexists _, _; vm_compute; reflexivity).
  exists r, s'. split; [done|].
  exact (proj1 (@generated_files Sample.externals _ _ _ _ _ _ Hrun)).
Defined.

(** ** Header and implementation of the vector accessors *)

Section ArrayAccessors.
Context `{Externals}.

Lemma key_calls_without_key fs :
  Forall (fun f => key f = false) fs ->
  key_calls_h fs = [] /\ key_calls_mm fs = [].
Proof.
  intros Hfs. unfold key_calls_h, key_calls_mm, first_key_field.
  destruct (List.find key fs) as [f|] eqn:Hf; [|done].
  apply List.find_some in Hf as [Hin%list_elem_of_In Hkey].
  rewrite Forall_forall in Hfs. by rewrite (Hfs f Hin) in Hkey.
Qed.

End ArrayAccessors.

(** X15. The accessors of a collected vector type are declared in the
    header as they are defined in the implementation: both writers are
    given the same name of the vector reference, the same element type,
    though one asks GenTypeRef and the other GenTypeForGet, and the same
    key type. *)
Theorem array_accessors_agree `{Externals} (t : FbType)
    (s s' : SwiftGenerator) :
  collected t = true ->
  GenArrayFields t s = Returned tt s' ->
  exists dh dmm,
    s' = with_writers s (code_h_ s ++ dh)%list (code_mm_ s ++ dmm)%list /\
    values_set "REF_NAME" dh = values_set "REF_NAME" dmm /\
    values_set "ELEMENT_NAME" dh = values_set "ELEMENT_NAME" dmm /\
    values_set "KEY_TYPE" dh = values_set "KEY_TYPE" dmm.
Proof.
  intros Hcol Hrun.
  apply GenArrayFields_returned in Hrun
    as (keyed & ref & offset & elem_ref & elem_get & sd & _ & _ & _ &
        Href & Hget & _ & _ & ->).
  rewrite (subscript_types_agree s t Hcol) in Href.
  assert (elem_get = elem_ref) as -> by congruence.
  do 2 eexists. split; [reflexivity|].
  unfold key_calls_h, key_calls_mm.
  destruct keyed; [destruct (first_key_field (fields sd))|];
    split_and!; reflexivity.
Qed.

Lemma array_accessors_agree_witness :
  exists dh dmm,
    state_of (@GenArrayFields Sample.externals Sample.weapons_type
                Sample.generator) =
      with_writers Sample.generator
        (code_h_ Sample.generator ++ dh)%list
        (code_mm_ Sample.generator ++ dmm)%list /\
    values_set "ELEMENT_NAME" dh = values_set "ELEMENT_NAME" dmm.
Proof.
  destruct (@array_accessors_agree Sample.externals Sample.weapons_type
              Sample.generator
              (state_of (@GenArrayFields Sample.externals Sample.weapons_type
                           Sample.generator)))
    as (dh & dmm & Hs & _ & He & _);
    [reflexivity|vm_compute; reflexivity|].
  exists dh, dmm. split; [exact Hs|exact He].
Defined.

(** A table that is flagged as having a key though none of its fields
    carries the key flag, and a vector of it. *)
Module Keyless.

Definition Entry : StructDef :=
  mkStructDef (mkDefinition "Entry" [] false Sample.ns)
    [ Sample.field "id" (Sample.scalar BASE_TYPE_INT) false false ]
    false true.

Definition entries_type : FbType :=
  mkType BASE_TYPE_VECTOR BASE_TYPE_STRUCT (Some 0).

Definition entries_schema : Parser := mkParser [Entry] None Sample.ns.

Definition entries_generator : SwiftGenerator :=
  SwiftGenerator_new entries_schema "out/" "entries".

End Keyless.

(** X16. The loop of GenArrayFields that looks for the key field may find
    none. When the element struct has its has_key flag set and no field of
    it carries the key flag, the lookup accessor is written all the same,
    in both files, and the call gives neither KEY_TYPE nor KEY_CAST a
    value. *)
Theorem lookup_without_key_field `{Externals} (t : FbType)
    (s s' : SwiftGenerator) (sd : StructDef) :
  GenArrayFields t s = Returned tt s' ->
  element_has_key s t = Ok true ->
  deref (parser_ s) (struct_def (VectorType t)) = Ok sd ->
  Forall (fun f => key f = false) (fields sd) ->
  exists dh dmm,
    s' = with_writers s (code_h_ s ++ dh)%list (code_mm_ s ++ dmm)%list /\
    In (WAppend lookup_decl) dh /\ In (WAppend lookup_call) dmm /\
    values_set "KEY_TYPE" dh = [] /\
    values_set "KEY_TYPE" dmm = [] /\
    values_set "KEY_CAST" dmm = [].
Proof.
  intros Hrun Hkeyed Hsd Hnone.
  apply GenArrayFields_returned in Hrun
    as (keyed & ref & offset & elem_ref & elem_get & sd' & Hk & _ & _ &
        _ & _ & Hsd' & _ & ->).
  assert (keyed = true) as -> by congruence.
  assert (sd' = sd) as -> by congruence.
  destruct (key_calls_without_key (fields sd) Hnone) as [-> ->].
  do 2 eexists. split; [reflexivity|].
  split_and!; [| |reflexivity..].
  - rewrite !in_app_iff. cbn. tauto.
  - rewrite !in_app_iff. cbn. tauto.
Qed.

Lemma lookup_without_key_field_witness :
  exists dh dmm,
    state_of (@GenArrayFields Sample.externals Keyless.entries_type
                Keyless.entries_generator) =
      with_writers Keyless.entries_generator
        (code_h_ Keyless.entries_generator ++ dh)%list
        (code_mm_ Keyless.entries_generator ++ dmm)%list /\
    In (WAppend lookup_decl) dh /\ values_set "KEY_TYPE" dh = [].
Proof.
  destruct (@lookup_without_key_field Sample.externals Keyless.entries_type
              Keyless.entries_generator
              (state_of (@GenArrayFields Sample.externals
                           Keyless.entries_type Keyless.entries_generator))
              Keyless.Entry)
    as (dh & dmm & Hs & Hin & _ & Hk & _);
    [vm_compute; reflexivity|reflexivity|reflexivity|
     repeat constructor|].
  exists dh, dmm. split; [exact Hs|]. split; [exact Hin|exact Hk].
Defined.


(** ** The arguments of a builder method *)

(** X17. How a builder method names an argument and how it passes it on.
    The selector declares the argument of a field under
    SelectorArgumentName, which puts the first character in lower case;
    the cast of a scalar, a string or a vector refers to it under
    EscapeKeyword, which does not. The two names are the same exactly
    when the field name does not begin with an upper-case letter. *)
Theorem argument_and_cast_names `{Externals} (s : SwiftGenerator)
    (f : FieldDef) (first : bool) :
  (forall ty, GenTypeForSet s (type (value f)) = Ok ty ->
     GenParamSwift s f first =
       Ok (SelectorComponentName s (name f) first +:+ ":(" +:+ ty +:+ ")" +:+
           SelectorArgumentName s (name f))) /\
  (is_scalar (base_type (type (value f))) = true ->
   GenTypeCastSet s (type (value f)) (name f) =
     Ok (EscapeKeyword s (name f))) /\
  (base_type (type (value f)) = BASE_TYPE_STRING \/
   base_type (type (value f)) = BASE_TYPE_VECTOR ->
   GenTypeCastSet s (type (value f)) (name f) =
     Ok ("{ " +:+ EscapeKeyword s (name f) +:+ ".offset }")) /\
  (SelectorArgumentName s (name f) = EscapeKeyword s (name f) <->
   ToLower (front (name f)) = front (name f)).
Proof.
  split_and!.
  - intros ty Hty. unfold GenParamSwift. by rewrite Hty.
  - destruct (type (value f)) as [b e r]. cbn [base_type].
    by destruct b.
  - destruct (type (value f)) as [b e r]. cbn [base_type].
    by intros [->| ->].
  - unfold SelectorArgumentName, EscapeKeyword.
    destruct (name f) as [|c rest].
    + case_bool_decide; by split.
    + case_bool_decide; rewrite ?str_app_cons; cbn [front set_front];
        (split; [by intros [= ->]|by intros ->]).
Qed.

(** * What is written for the structs, and in what order *)

(** ** The lines of the output and the values of their keys

    A line given to a writer holds keys in double braces, and what the
    line says depends on the values the keys had when it was given. The
    lines below are the ones that declare or define something for a
    struct. *)

(** The forward declaration of GenStructDecl and GenArrayDecl. *)
Definition ref_typedef : string :=
  "typedef struct {{REF_NAME}} { const void *buf; } {{REF_NAME}};".

(** The accessor of a field, declared by GenStructFields in the header and
    defined in the implementation. *)
Definition accessor_decl : string :=
  "{{FIELD_TYPE}} {{REF_NAME}}_{{FIELD_NAME}}({{REF_NAME}} self_) NS_SWIFT_NAME(getter:{{REF_NAME}}.{{FIELD_NAME}}(self:));".

Definition accessor_def : string :=
  "{{FIELD_TYPE}} {{REF_NAME}}_{{FIELD_NAME}}({{REF_NAME}} self_) {".

(** The builder method of GenBuilders, declared and defined. *)
Definition builder_decl : string := "- ({{OFFSET_NAME}}){{SELECTOR_DECL}};".

Definition builder_def : string := "- ({{OFFSET_NAME}}){{SELECTOR_DECL}} {".

Section Lines.
Local Open Scope list_scope.

(** The value that [key] has at each place where [line] is given to the
    writer, in the order of the calls; [current] is its value before the
    calls, [None] when it was never set. Clearing a writer empties its
    text and leaves the values of the keys as they are. *)
Fixpoint values_at (line key : string) (current : option string)
    (calls : list WriterCall) : list (option string) :=
  match calls with
  | [] => []
  | WClear :: rest => values_at line key current rest
  | WSetValue k v :: rest =>
      values_at line key (if bool_decide (k = key) then Some v else current)
                rest
  | WAppend text :: rest =>
      if bool_decide (text = line)
      then current :: values_at line key current rest
      else values_at line key current rest
  end.

(** A call that neither gives [line] nor sets [key]. *)
Definition passes (line key : string) (c : WriterCall) : Prop :=
  c <> WAppend line /\ forall v, c <> WSetValue key v.

(** A call that gives none of the [lines]. *)
Definition not_lines (lines : list string) (c : WriterCall) : Prop :=
  Forall (fun line => c <> WAppend line) lines.

(** No call at all: what a method that leaves a writer alone adds to it. *)
Definition nothing (c : WriterCall) : Prop := False.

Lemma values_at_set line key current v rest :
  values_at line key current (WSetValue key v :: rest) =
  values_at line key (Some v) rest.
Proof. cbn [values_at]. by rewrite bool_decide_eq_true_2. Qed.

Lemma values_at_line line key current rest :
  values_at line key current (WAppend line :: rest) =
  current :: values_at line key current rest.
Proof. cbn [values_at]. by rewrite bool_decide_eq_true_2. Qed.

Lemma values_at_pass line key current c rest :
  passes line key c ->
  values_at line key current (c :: rest) = values_at line key current rest.
Proof.
  intros [Hline Hkey]. destruct c as [|k v|text]; cbn [values_at].
  - done.
  - rewrite bool_decide_eq_false_2; [done|]. intros ->. by apply (Hkey v).
  - rewrite bool_decide_eq_false_2; [done|]. by intros ->.
Qed.

Lemma values_at_skip line key current pre rest :
  Forall (passes line key) pre ->
  values_at line key current (pre ++ rest) = values_at line key current rest.
Proof.
  induction 1 as [|c pre Hc _ IH]; [done|].
  cbn [app]. by rewrite values_at_pass.
Qed.

(** Calls that do not give [line] add nothing, whatever they set. *)
Lemma values_at_quiet line key calls : forall current rest,
  Forall (fun c => c <> WAppend line) calls ->
  exists current',
    values_at line key current (calls ++ rest) =
    values_at line key current' rest.
Proof.
  induction calls as [|c calls IH]; intros current rest Hcalls.
  - by exists current.
  - apply Forall_cons in Hcalls as [Hc Hcalls]. cbn [app].
    destruct c as [|k v|text]; cbn [values_at].
    + by apply IH.
    + by apply IH.
    + rewrite bool_decide_eq_false_2 by (by intros ->). by apply IH.
Qed.

Lemma values_at_quiet_nil line key calls current :
  Forall (fun c => c <> WAppend line) calls ->
  values_at line key current calls = [].
Proof.
  intros Hcalls.
  destruct (values_at_quiet line key calls current [] Hcalls) as [c Hc].
  by rewrite app_nil_r in Hc.
Qed.

Lemma not_lines_quiet lines line calls :
  line ∈ lines -> Forall (not_lines lines) calls ->
  Forall (fun c => c <> WAppend line) calls.
Proof.
  intros Hin Hcalls. eapply Forall_impl; [exact Hcalls|]. intros c Hc.
  unfold not_lines in Hc. rewrite Forall_forall in Hc. by apply Hc.
Qed.

(** Blocks of calls each of which gives the same values whatever was set
    before it. *)
Lemma values_at_blocks {A} line key (f : A -> list WriterCall)
    (g : A -> list (option string)) (l : list A) :
  (forall x current rest,
     x ∈ l ->
     exists current',
       values_at line key current (f x ++ rest) =
       (g x ++ values_at line key current' rest)%list) ->
  forall current rest,
  exists current',
    values_at line key current (flat_map f l ++ rest) =
    (flat_map g l ++ values_at line key current' rest)%list.
Proof.
  induction l as [|x l IH]; intros Hblock current rest.
  - by exists current.
  - cbn [flat_map]. rewrite <- app_assoc.
    destruct (Hblock x current (flat_map f l ++ rest)) as [c1 H1];
      [by left|].
    destruct (IH (fun y cur r Hy =>
                    Hblock y cur r (list_elem_of_further _ _ _ Hy))
                c1 rest)
      as [c2 H2].
    exists c2. by rewrite H1, H2, <- app_assoc.
Qed.

End Lines.


Ltac lines_atom :=
  first
    [ by intros [=]
    | by intros ? [=]
    | intros [= Heq]; apply (f_equal last_char) in Heq;
      rewrite last_char_append in Heq; discriminate Heq
    | intros [= Heq]; cbv beta iota delta [String.append] in Heq;
      discriminate Heq ].

Ltac lines_side :=
  unfold passes, not_lines, ref_typedef, accessor_decl, accessor_def,
    builder_decl, builder_def;
  repeat first [split | apply Forall_cons | apply Forall_nil];
  cbv beta; lines_atom.

Ltac lines_tac :=
  unfold GenComment, code_h_append, code_mm_append, code_h_SetValue,
    code_mm_SetValue, code_h_Clear, code_mm_Clear;
  cbv zeta;
  repeat appends_step lines_side.

Section MethodLines.
Context `{Externals}.
Local Open Scope list_scope.

Lemma written_of_returned (m : Gen unit) s s' dh dmm :
  appends any_call any_call m ->
  m s = Returned tt s' ->
  s' = with_writers s (code_h_ s ++ dh) (code_mm_ s ++ dmm) ->
  written m s = (dh, dmm).
Proof.
  intros Hm Hrun Hs'.
  assert (m (with_writers s (code_h_ s) (code_mm_ s)) = Returned tt s')
    as Hrun' by (by rewrite with_writers_self).
  apply (appends_returned any_call any_call) in Hrun'; [|done].
  rewrite Hs' in Hrun'.
  pose proof (f_equal code_h_ Hrun') as Hh.
  pose proof (f_equal code_mm_ Hrun') as Hmm.
  cbn [code_h_ code_mm_ with_writers] in Hh, Hmm.
  apply app_inv_head in Hh, Hmm.
  destruct (written m s) as [wh wmm]. simpl in *. by subst.
Qed.

Lemma Forall_nothing (calls : list WriterCall) :
  Forall nothing calls -> calls = [].
Proof. by destruct 1. Qed.

(** What GenStructDecl writes: the values of REF_NAME and OFFSET_NAME,
    the typedef of a fixed struct, which names neither, and the two forward
    declarations. *)
Lemma GenStructDecl_written sd s :
  runs (GenStructDecl sd) s ->
  exists inner,
    written (GenStructDecl sd) s =
      ([ WAppend (GenComment_text (doc_comment sd) "" +:+ "\");
         WSetValue "REF_NAME" (GenTypeRef_def s sd);
         WSetValue "OFFSET_NAME" (GenTypeOffset_def s sd) ] ++
       inner ++
       [ WAppend ref_typedef;
         WAppend "typedef struct {{OFFSET_NAME}} { const uint32_t offset; } {{OFFSET_NAME}};";
         WAppend "" ],
       []) /\
    Forall (passes ref_typedef "REF_NAME") inner /\
    Forall (not_lines [accessor_decl; builder_decl]) inner.
Proof.
  intros [s' Hrun0]. pose proof Hrun0 as Hrun.
  eapply run_eq in Hrun; [|unfold GenStructDecl; reflexivity].
  rewrite <- (with_writers_self s) in Hrun. walk Hrun.
  apply bind_returned in Hrun as ([] & s1 & Hwhen & Hrun).
  match type of Hwhen with
  | ?m _ = _ =>
      assert (appends
                (fun c => passes ref_typedef "REF_NAME" c /\
                          not_lines [accessor_decl; builder_decl] c)
                nothing m) as Happ
        by lines_tac;
      destruct (appends_state _ _ m s
                  (code_h_ s ++
                   [WAppend (GenComment_text (doc_comment sd) "" +:+ "\")] ++
                   [WSetValue "REF_NAME" (GenTypeRef_def s sd)] ++
                   [WSetValue "OFFSET_NAME" (GenTypeOffset_def s sd)])
                  (code_mm_ s) Happ)
        as (Hstate & Hh & Hmm);
      exists (written m s).1
  end.
  apply Forall_nothing in Hmm.
  rewrite <- !app_assoc in Hwhen. cbn [app] in Hwhen, Hstate.
  rewrite Hwhen in Hstate. cbn [state_of] in Hstate. subst s1.
  walk Hrun.
  split; [|split].
  - eapply written_of_returned; [apply GenStructDecl_appends|exact Hrun0|].
    rewrite Hmm, !app_nil_r, <- !app_assoc. reflexivity.
  - eapply Forall_impl; [exact Hh|]. by intros c [? ?].
  - eapply Forall_impl; [exact Hh|]. by intros c [? ?].
Qed.

Lemma GenArrayDecl_written t s :
  runs (GenArrayDecl t) s ->
  written (GenArrayDecl t) s =
    ([ WSetValue "REF_NAME" (rendered (GenTypeRef s t));
       WSetValue "OFFSET_NAME" (rendered (GenTypeOffset s t));
       WAppend ref_typedef;
       WAppend "typedef struct {{OFFSET_NAME}} { const uint32_t offset; } {{OFFSET_NAME}};";
       WAppend "" ],
     []).
Proof.
  intros [s' Hrun0]. pose proof Hrun0 as Hrun.
  eapply run_eq in Hrun; [|unfold GenArrayDecl; reflexivity].
  rewrite <- (with_writers_self s) in Hrun. walk Hrun.
  eapply written_of_returned; [apply GenArrayDecl_appends|exact Hrun0|].
  repeat match goal with Hr : _ = Ok _ |- _ => rewrite Hr; clear Hr end.
  cbn [rendered]. rewrite !app_nil_r, <- !app_assoc. reflexivity.
Qed.

Lemma GenStructFields_written sd s :
  runs (GenStructFields sd) s ->
  written (GenStructFields sd) s =
    ([WSetValue "REF_NAME" (GenTypeRef_def s sd)] ++
     flat_map (accessor_h s) (fields sd) ++ [WAppend ""],
     [WSetValue "REF_NAME" (GenTypeRef_def s sd);
      WSetValue "FLATBUF_NAME" (GenTypeFlatbuffers_def s sd)] ++
     flat_map (accessor_mm s) (fields sd)).
Proof.
  intros [s' Hrun0].
  destruct (GenStructFields_returned _ _ _ Hrun0) as [_ Hs'].
  eapply written_of_returned; [apply GenStructFields_appends|exact Hrun0|].
  exact Hs'.
Qed.

(** What GenBuilders writes: the declaration of the builder method in the
    header, and in the implementation its definition, whose body gives no
    line of an accessor or of another builder. *)
Lemma GenBuilders_written sd s :
  runs (GenBuilders sd) s ->
  exists body,
    written (GenBuilders sd) s =
      ([ WSetValue "OFFSET_NAME" (GenTypeOffset_def s sd);
         WSetValue "SELECTOR_DECL" (rendered (GenCreateSelector s sd));
         WAppend builder_decl ],
       [ WSetValue "OFFSET_NAME" (GenTypeOffset_def s sd);
         WSetValue "CREATE_NAME"
           (WrapInNameSpace (parser_ s) (defined_namespace sd)
              ("Create" +:+ Name s sd));
         WSetValue "SELECTOR_DECL" (rendered (GenCreateSelector s sd));
         WAppend builder_def ] ++ body) /\
    Forall (not_lines [accessor_def; builder_def]) body.
Proof.
  intros [s' Hrun0]. pose proof Hrun0 as Hrun.
  eapply run_eq in Hrun; [|unfold GenBuilders; reflexivity].
  rewrite <- (with_writers_self s) in Hrun. walk Hrun.
  repeat match goal with
         | Ha : ?r = Ok ?x, Hb : ?r = Ok ?y |- _ =>
             assert (y = x) by congruence; subst y; clear Hb
         end.
  match type of Hrun with
  | ?m ?s0 = _ =>
      assert (appends nothing (not_lines [accessor_def; builder_def]) m)
        as Happ by lines_tac;
      match s0 with
      | with_writers _ ?h ?mm =>
          destruct (appends_state _ _ m s h mm Happ) as (Hstate & Hh & Hmm)
      end;
      exists (written m s).2
  end.
  apply Forall_nothing in Hh.
  rewrite Hrun in Hstate. cbn [state_of] in Hstate. subst s'.
  split; [|done].
  eapply written_of_returned; [apply GenBuilders_appends|exact Hrun0|].
  repeat match goal with Hr : _ = Ok _ |- _ => rewrite Hr; clear Hr end.
  cbn [rendered]. rewrite Hh, !app_nil_r, <- !app_assoc. reflexivity.
Qed.

End MethodLines.


Section EmissionLines.
Context `{Externals}.
Local Open Scope list_scope.

(** The lines that an emission does not give. *)
Definition other_h (e : Emission) : list string :=
  match e with
  | EStructDecl _ | EArrayDecl _ => [accessor_decl; builder_decl]
  | EStructFields _ => [ref_typedef; builder_decl]
  | EBuilders _ => [ref_typedef; accessor_decl]
  | _ => [ref_typedef; accessor_decl; builder_decl]
  end.

Definition other_mm (e : Emission) : list string :=
  match e with
  | EStructFields _ => [builder_def]
  | EBuilders _ => [accessor_def]
  | _ => [accessor_def; builder_def]
  end.

Lemma emit_other_lines e :
  appends (not_lines (other_h e)) (not_lines (other_mm e)) (emit e).
Proof.
  destruct e; cbn [emit other_h other_mm].
  - unfold GenStructDecl. lines_tac.
  - unfold GenArrayDecl. lines_tac.
  - unfold GenStructFields. lines_tac.
  - unfold GenArrayFields. lines_tac.
  - lines_tac.
  - unfold GenBuilders. lines_tac.
  - unfold GenArrayBuilders. lines_tac.
  - unfold GenFinish. lines_tac.
Qed.

Lemma written_other_lines e s :
  Forall (not_lines (other_h e)) (written (emit e) s).1 /\
  Forall (not_lines (other_mm e)) (written (emit e) s).2.
Proof.
  by destruct (appends_state _ _ (emit e) s [] [] (emit_other_lines e))
    as (_ & ? & ?).
Qed.

Lemma prologue_lines s :
  Forall (not_lines [ref_typedef; accessor_decl; builder_decl])
         (prologue_h s) /\
  Forall (not_lines [ref_typedef; accessor_decl; builder_decl])
         (epilogue_h s) /\
  Forall (not_lines [accessor_def; builder_def]) (prologue_mm s) /\
  Forall (not_lines [accessor_def; builder_def]) epilogue_mm.
Proof.
  unfold prologue_h, epilogue_h, prologue_mm, epilogue_mm.
  split_and!; repeat first [apply Forall_cons; split | apply Forall_nil];
    lines_side.
Qed.

End EmissionLines.


Lemma flat_map_one {A B} (h : A -> B) (l : list A) :
  flat_map (fun x => [h x]) l = map h l.
Proof. induction l as [|x l IH]; [done|]. cbn. by rewrite IH. Qed.

Lemma flat_map_none {A B} (l : list A) :
  flat_map (fun _ : A => @nil B) l = [].
Proof. by induction l. Qed.

Lemma flat_map_empty {A B} (f : A -> list B) (l : list A) :
  (forall x, f x = []) -> flat_map f l = [].
Proof. intros Hf. induction l as [|x l IH]; [done|]. cbn. by rewrite Hf, IH. Qed.

Ltac in_lines :=
  repeat first [apply list_elem_of_here | apply list_elem_of_further].

Section Values.
Context `{Externals}.
Variable s : SwiftGenerator.
Local Open Scope list_scope.

(** What the marked lines of an emission stand for: the reference name in
    a forward declaration, the reference name and the field name in each
    accessor, the selector in a builder method. *)
Definition typedef_refs (e : Emission) : list (option string) :=
  match e with
  | EStructDecl sd => [Some (GenTypeRef_def s sd)]
  | EArrayDecl t => [Some (rendered (GenTypeRef s t))]
  | _ => []
  end.

Definition accessor_refs (e : Emission) : list (option string) :=
  match e with
  | EStructFields sd => map (fun _ => Some (GenTypeRef_def s sd)) (fields sd)
  | _ => []
  end.

Definition accessor_names (e : Emission) : list (option string) :=
  match e with
  | EStructFields sd => map (fun f : FieldDef => Some (Name s f)) (fields sd)
  | _ => []
  end.

Definition builder_selectors (e : Emission) : list (option string) :=
  match e with
  | EBuilders sd => [Some (rendered (GenCreateSelector s sd))]
  | _ => []
  end.

Lemma quiet_block_h line key e current rest :
  line ∈ other_h e ->
  exists current',
    values_at line key current ((written (emit e) s).1 ++ rest) =
    values_at line key current' rest.
Proof.
  intros Hin. apply values_at_quiet.
  eapply not_lines_quiet; [exact Hin|]. apply written_other_lines.
Qed.

Lemma quiet_block_mm line key e current rest :
  line ∈ other_mm e ->
  exists current',
    values_at line key current ((written (emit e) s).2 ++ rest) =
    values_at line key current' rest.
Proof.
  intros Hin. apply values_at_quiet.
  eapply not_lines_quiet; [exact Hin|]. apply written_other_lines.
Qed.

Lemma typedef_block e current rest :
  runs (emit e) s ->
  exists current',
    values_at ref_typedef "REF_NAME" current
              ((written (emit e) s).1 ++ rest) =
    typedef_refs e ++ values_at ref_typedef "REF_NAME" current' rest.
Proof.
  intros Hrun.
  destruct e; cbn [typedef_refs app];
    try (apply quiet_block_h; cbn [other_h]; in_lines).
  - rewrite emit_EStructDecl in *.
    destruct (GenStructDecl_written sd s Hrun) as (inner & -> & Hpass & _).
    cbn [fst]. rewrite <- !app_assoc. cbn [app].
    rewrite values_at_pass by lines_side.
    rewrite values_at_set.
    rewrite values_at_pass by lines_side.
    rewrite values_at_skip by done.
    rewrite (values_at_line ref_typedef).
    rewrite !values_at_pass by lines_side.
    by eexists.
  - rewrite emit_EArrayDecl in *.
    rewrite (GenArrayDecl_written t s Hrun).
    cbn [fst app].
    rewrite values_at_set.
    rewrite values_at_pass by lines_side.
    rewrite (values_at_line ref_typedef).
    rewrite !values_at_pass by lines_side.
    by eexists.
Qed.

Lemma accessor_h_refs r fs : forall rest,
  values_at accessor_decl "REF_NAME" (Some r)
            (flat_map (accessor_h s) fs ++ rest) =
  map (fun _ => Some r) fs ++
  values_at accessor_decl "REF_NAME" (Some r) rest.
Proof.
  induction fs as [|f fs IH]; intros rest; [done|].
  cbn [flat_map map]. rewrite <- app_assoc. unfold accessor_h at 1.
  cbn [app].
  rewrite !values_at_pass by lines_side.
  rewrite (values_at_line accessor_decl). by rewrite IH.
Qed.

Lemma accessor_h_names fs : forall current rest,
  exists current',
    values_at accessor_decl "FIELD_NAME" current
              (flat_map (accessor_h s) fs ++ rest) =
    map (fun f : FieldDef => Some (Name s f)) fs ++
    values_at accessor_decl "FIELD_NAME" current' rest.
Proof.
  induction fs as [|f fs IH]; intros current rest; [by exists current|].
  cbn [flat_map map]. rewrite <- app_assoc. unfold accessor_h at 1.
  cbn [app].
  rewrite values_at_set.
  rewrite !values_at_pass by lines_side.
  rewrite (values_at_line accessor_decl).
  destruct (IH (Some (Name s f)) rest) as [c Hc]. exists c.
  cbn [app]. f_equal. exact Hc.
Qed.

Lemma accessor_mm_refs r fs : forall rest,
  values_at accessor_def "REF_NAME" (Some r)
            (flat_map (accessor_mm s) fs ++ rest) =
  map (fun _ => Some r) fs ++
  values_at accessor_def "REF_NAME" (Some r) rest.
Proof.
  induction fs as [|f fs IH]; intros rest; [done|].
  cbn [flat_map map]. rewrite <- app_assoc. unfold accessor_mm at 1.
  cbn [app].
  rewrite !values_at_pass by lines_side.
  rewrite (values_at_line accessor_def).
  rewrite !values_at_pass by lines_side.
  by rewrite IH.
Qed.

Lemma accessor_mm_names fs : forall current rest,
  exists current',
    values_at accessor_def "FIELD_NAME" current
              (flat_map (accessor_mm s) fs ++ rest) =
    map (fun f : FieldDef => Some (Name s f)) fs ++
    values_at accessor_def "FIELD_NAME" current' rest.
Proof.
  induction fs as [|f fs IH]; intros current rest; [by exists current|].
  cbn [flat_map map]. rewrite <- app_assoc. unfold accessor_mm at 1.
  cbn [app].
  rewrite values_at_set.
  rewrite !values_at_pass by lines_side.
  rewrite (values_at_line accessor_def).
  rewrite !values_at_pass by lines_side.
  destruct (IH (Some (Name s f)) rest) as [c Hc]. exists c.
  cbn [app]. f_equal. exact Hc.
Qed.

Lemma accessor_refs_block_h e current rest :
  runs (emit e) s ->
  exists current',
    values_at accessor_decl "REF_NAME" current
              ((written (emit e) s).1 ++ rest) =
    accessor_refs e ++ values_at accessor_decl "REF_NAME" current' rest.
Proof.
  intros Hrun.
  destruct e; cbn [accessor_refs app];
    try (apply quiet_block_h; cbn [other_h]; in_lines).
  rewrite emit_EStructFields in *.
  rewrite (GenStructFields_written sd s Hrun).
  cbn [fst]. rewrite <- !app_assoc. cbn [app].
  rewrite values_at_set, accessor_h_refs.
  rewrite !values_at_pass by lines_side.
  by eexists.
Qed.

Lemma accessor_names_block_h e current rest :
  runs (emit e) s ->
  exists current',
    values_at accessor_decl "FIELD_NAME" current
              ((written (emit e) s).1 ++ rest) =
    accessor_names e ++ values_at accessor_decl "FIELD_NAME" current' rest.
Proof.
  intros Hrun.
  destruct e; cbn [accessor_names app];
    try (apply quiet_block_h; cbn [other_h]; in_lines).
  rewrite emit_EStructFields in *.
  rewrite (GenStructFields_written sd s Hrun).
  cbn [fst]. rewrite <- !app_assoc. cbn [app].
  rewrite values_at_pass by lines_side.
  destruct (accessor_h_names (fields sd) current (WAppend "" :: rest))
    as [c ->].
  cbn [app]. rewrite !values_at_pass by lines_side.
  by eexists.
Qed.

Lemma accessor_refs_block_mm e current rest :
  runs (emit e) s ->
  exists current',
    values_at accessor_def "REF_NAME" current
              ((written (emit e) s).2 ++ rest) =
    accessor_refs e ++ values_at accessor_def "REF_NAME" current' rest.
Proof.
  intros Hrun.
  destruct e; cbn [accessor_refs app];
    try (apply quiet_block_mm; cbn [other_mm]; in_lines).
  rewrite emit_EStructFields in *.
  rewrite (GenStructFields_written sd s Hrun).
  cbn [snd]. rewrite <- !app_assoc. cbn [app].
  rewrite values_at_set.
  rewrite values_at_pass by lines_side.
  rewrite accessor_mm_refs.
  by eexists.
Qed.

Lemma accessor_names_block_mm e current rest :
  runs (emit e) s ->
  exists current',
    values_at accessor_def "FIELD_NAME" current
              ((written (emit e) s).2 ++ rest) =
    accessor_names e ++ values_at accessor_def "FIELD_NAME" current' rest.
Proof.
  intros Hrun.
  destruct e; cbn [accessor_names app];
    try (apply quiet_block_mm; cbn [other_mm]; in_lines).
  rewrite emit_EStructFields in *.
  rewrite (GenStructFields_written sd s Hrun).
  cbn [snd]. rewrite <- !app_assoc. cbn [app].
  rewrite !values_at_pass by lines_side.
  apply accessor_mm_names.
Qed.

Lemma builder_block_h e current rest :
  runs (emit e) s ->
  exists current',
    values_at builder_decl "SELECTOR_DECL" current
              ((written (emit e) s).1 ++ rest) =
    builder_selectors e ++
    values_at builder_decl "SELECTOR_DECL" current' rest.
Proof.
  intros Hrun.
  destruct e; cbn [builder_selectors app];
    try (apply quiet_block_h; cbn [other_h]; in_lines).
  rewrite emit_EBuilders in *.
  destruct (GenBuilders_written sd s Hrun) as (body & -> & _).
  cbn [fst app].
  rewrite values_at_pass by lines_side.
  rewrite values_at_set, (values_at_line builder_decl).
  by eexists.
Qed.

Lemma builder_block_mm e current rest :
  runs (emit e) s ->
  exists current',
    values_at builder_def "SELECTOR_DECL" current
              ((written (emit e) s).2 ++ rest) =
    builder_selectors e ++
    values_at builder_def "SELECTOR_DECL" current' rest.
Proof.
  intros Hrun.
  destruct e; cbn [builder_selectors app];
    try (apply quiet_block_mm; cbn [other_mm]; in_lines).
  rewrite emit_EBuilders in *.
  destruct (GenBuilders_written sd s Hrun) as (body & -> & Hbody).
  cbn [snd]. rewrite <- !app_assoc. cbn [app].
  rewrite !values_at_pass by lines_side.
  rewrite values_at_set, (values_at_line builder_def).
  destruct (values_at_quiet builder_def "SELECTOR_DECL" body
              (Some (rendered (GenCreateSelector s sd))) rest) as [c Hc].
  { eapply not_lines_quiet; [|exact Hbody]. in_lines. }
  exists c. by rewrite Hc.
Qed.

(** The values of a key at a line, over the emissions of a run between
    calls that do not give the line. *)
Lemma values_at_emissions line key (block : Emission -> list WriterCall)
    (vals : Emission -> list (option string)) (l : list Emission)
    (before after : list WriterCall) current :
  Forall (fun c => c <> WAppend line) before ->
  Forall (fun c => c <> WAppend line) after ->
  (forall e cur rest,
     e ∈ l ->
     exists cur',
       values_at line key cur (block e ++ rest) =
       vals e ++ values_at line key cur' rest) ->
  values_at line key current (before ++ flat_map block l ++ after) =
  flat_map vals l.
Proof.
  intros Hbefore Hafter Hblock.
  destruct (values_at_quiet line key before current
              (flat_map block l ++ after) Hbefore) as [c1 ->].
  destruct (values_at_blocks line key block vals l Hblock c1 after)
    as [c2 ->].
  by rewrite (values_at_quiet_nil _ _ _ _ Hafter), app_nil_r.
Qed.

(** The forward declarations of a run, and what comes after them. *)
Definition declarations (p : Parser) (arrays : Arrays) : list Emission :=
  map EStructDecl (emitted_structs p) ++ map EArrayDecl (map snd arrays).

Definition definitions (p : Parser) (arrays : Arrays)
    (root : option StructDef) : list Emission :=
  map EStructFields (emitted_structs p) ++
  map EArrayFields (map snd arrays) ++
  [EBuilderInterface] ++
  map EBuilders (emitted_tables p) ++
  map EArrayBuilders (map snd arrays) ++
  match root with Some sd => [EFinish sd] | None => [] end.

Lemma schedule_parts p arrays root :
  schedule p arrays root = declarations p arrays ++ definitions p arrays root.
Proof. unfold schedule, declarations, definitions. by rewrite <- app_assoc. Qed.

Lemma declarations_typedef_refs p arrays :
  flat_map typedef_refs (declarations p arrays) =
  map (fun sd : StructDef => Some (GenTypeRef_def s sd)) (emitted_structs p) ++
  map (fun it => Some (rendered (GenTypeRef s (snd it)))) arrays.
Proof.
  unfold declarations. rewrite flat_map_app, !flat_map_fmap.
  cbn [typedef_refs]. by rewrite !flat_map_one.
Qed.

Lemma definitions_typedef_refs p arrays root :
  flat_map typedef_refs (definitions p arrays root) = [].
Proof.
  unfold definitions. rewrite !flat_map_app, !flat_map_fmap.
  cbn [typedef_refs]. rewrite !flat_map_none.
  by destruct root.
Qed.

Lemma declarations_none (vals : Emission -> list (option string)) p arrays :
  (forall sd, vals (EStructDecl sd) = []) ->
  (forall t, vals (EArrayDecl t) = []) ->
  flat_map vals (declarations p arrays) = [].
Proof.
  intros Hsd Ht. unfold declarations. rewrite flat_map_app, !flat_map_fmap.
  rewrite !flat_map_empty; [done|intros; apply Ht|intros; apply Hsd].
Qed.

Lemma definitions_accessor_refs p arrays root :
  flat_map accessor_refs (definitions p arrays root) =
  flat_map (fun sd : StructDef => map (fun _ => Some (GenTypeRef_def s sd)) (fields sd))
           (emitted_structs p).
Proof.
  unfold definitions. rewrite !flat_map_app, !flat_map_fmap.
  cbn [accessor_refs flat_map]. rewrite !flat_map_none.
  destruct root; cbn; by rewrite ?app_nil_r.
Qed.

Lemma definitions_accessor_names p arrays root :
  flat_map accessor_names (definitions p arrays root) =
  flat_map (fun sd : StructDef => map (fun f : FieldDef => Some (Name s f)) (fields sd))
           (emitted_structs p).
Proof.
  unfold definitions. rewrite !flat_map_app, !flat_map_fmap.
  cbn [accessor_names flat_map]. rewrite !flat_map_none.
  destruct root; cbn; by rewrite ?app_nil_r.
Qed.

Lemma definitions_builder_selectors p arrays root :
  flat_map builder_selectors (definitions p arrays root) =
  map (fun sd : StructDef => Some (rendered (GenCreateSelector s sd))) (emitted_tables p).
Proof.
  unfold definitions. rewrite !flat_map_app, !flat_map_fmap.
  cbn [builder_selectors flat_map]. rewrite !flat_map_none, flat_map_one.
  destruct root; cbn; by rewrite ?app_nil_r.
Qed.

End Values.


Section WrittenLines.
Context `{Externals}.
Local Open Scope list_scope.

(** The emissions that come after the forward declarations give no
    forward declaration, and the forward declarations give no accessor
    and no builder. *)
Lemma definitions_no_typedef s p arrays root :
  Forall (fun c => c <> WAppend ref_typedef)
         (flat_map (fun e => (written (emit e) s).1)
                   (definitions p arrays root)).
Proof.
  apply Forall_flat_map, Forall_forall. intros e He.
  eapply not_lines_quiet; [|apply written_other_lines].
  unfold definitions in He.
  repeat match goal with
  | Hin : _ ∈ _ ++ _ |- _ => apply elem_of_app in Hin as [Hin|Hin]
  | Hin : _ ∈ map _ _ |- _ =>
      apply list_elem_of_fmap in Hin as (? & -> & _)
  end; try (cbn [other_h]; in_lines).
  - apply list_elem_of_singleton in He as ->. cbn [other_h]. in_lines.
  - destruct root; [|by apply elem_of_nil in He].
    apply list_elem_of_singleton in He as ->. cbn [other_h]. in_lines.
Qed.

Lemma declarations_only s p arrays line :
  line ∈ [accessor_decl; builder_decl] ->
  Forall (fun c => c <> WAppend line)
         (flat_map (fun e => (written (emit e) s).1) (declarations p arrays)).
Proof.
  intros Hline.
  apply Forall_flat_map, Forall_forall. intros e He.
  eapply not_lines_quiet; [|apply written_other_lines].
  unfold declarations in He.
  repeat match goal with
  | Hin : _ ∈ _ ++ _ |- _ => apply elem_of_app in Hin as [Hin|Hin]
  | Hin : _ ∈ map _ _ |- _ =>
      apply list_elem_of_fmap in Hin as (? & -> & _)
  end; exact Hline.
Qed.

Lemma prologue_quiet s line :
  line ∈ [ref_typedef; accessor_decl; builder_decl] ->
  Forall (fun c => c <> WAppend line) (prologue_h s) /\
  Forall (fun c => c <> WAppend line) (epilogue_h s).
Proof.
  intros Hline. destruct (prologue_lines s) as (Hp & He & _).
  split; eapply not_lines_quiet; eauto.
Qed.

Lemma prologue_quiet_mm s line :
  line ∈ [accessor_def; builder_def] ->
  Forall (fun c => c <> WAppend line) (prologue_mm s) /\
  Forall (fun c => c <> WAppend line) epilogue_mm.
Proof.
  intros Hline. destruct (prologue_lines s) as (_ & _ & Hp & He).
  split; eapply not_lines_quiet; eauto.
Qed.

End WrittenLines.


Section Skipped.
Context `{Externals}.
Local Open Scope list_scope.

Lemma schedule_run_in s l e :
  Forall (fun e => runs (emit e) s) l -> e ∈ l -> runs (emit e) s.
Proof. intros Hall He. by apply (proj1 (Forall_forall _ _) Hall). Qed.

(** The values of the keys at the marked lines of the header log of a
    schedule whose emissions run. *)
Lemma header_values s (l : list Emission) before after line key vals current :
  Forall (fun e => runs (emit e) s) l ->
  Forall (fun c => c <> WAppend line) before ->
  Forall (fun c => c <> WAppend line) after ->
  (forall e cur rest,
     runs (emit e) s ->
     exists cur',
       values_at line key cur ((written (emit e) s).1 ++ rest) =
       vals e ++ values_at line key cur' rest) ->
  values_at line key current
    (before ++ flat_map (fun e => (written (emit e) s).1) l ++ after) =
  flat_map vals l.
Proof.
  intros Hruns Hbefore Hafter Hblock.
  apply (values_at_emissions line key
           (fun e => (written (emit e) s).1) vals l); [done|done|].
  intros e cur rest He. apply Hblock. by apply (schedule_run_in s l).
Qed.

Lemma implementation_values s (l : list Emission) before after line key vals
    current :
  Forall (fun e => runs (emit e) s) l ->
  Forall (fun c => c <> WAppend line) before ->
  Forall (fun c => c <> WAppend line) after ->
  (forall e cur rest,
     runs (emit e) s ->
     exists cur',
       values_at line key cur ((written (emit e) s).2 ++ rest) =
       vals e ++ values_at line key cur' rest) ->
  values_at line key current
    (before ++ flat_map (fun e => (written (emit e) s).2) l ++ after) =
  flat_map vals l.
Proof.
  intros Hruns Hbefore Hafter Hblock.
  apply (values_at_emissions line key
           (fun e => (written (emit e) s).2) vals l); [done|done|].
  intros e cur rest He. apply Hblock. by apply (schedule_run_in s l).
Qed.

Lemma schedule_typedef_refs s p arrays root :
  flat_map (typedef_refs s) (schedule p arrays root) =
  map (fun sd : StructDef => Some (GenTypeRef_def s sd)) (emitted_structs p) ++
  map (fun it => Some (rendered (GenTypeRef s (snd it)))) arrays.
Proof.
  rewrite schedule_parts, flat_map_app, declarations_typedef_refs,
    definitions_typedef_refs. by rewrite app_nil_r.
Qed.

Lemma schedule_accessor_refs s p arrays root :
  flat_map (accessor_refs s) (schedule p arrays root) =
  flat_map (fun sd : StructDef =>
              map (fun _ => Some (GenTypeRef_def s sd)) (fields sd))
           (emitted_structs p).
Proof.
  rewrite schedule_parts, flat_map_app, declarations_none by done.
  apply definitions_accessor_refs.
Qed.

Lemma schedule_accessor_names s p arrays root :
  flat_map (accessor_names s) (schedule p arrays root) =
  flat_map (fun sd : StructDef =>
              map (fun f : FieldDef => Some (Name s f)) (fields sd))
           (emitted_structs p).
Proof.
  rewrite schedule_parts, flat_map_app, declarations_none by done.
  apply definitions_accessor_names.
Qed.

Lemma schedule_builder_selectors s p arrays root :
  flat_map (builder_selectors s) (schedule p arrays root) =
  map (fun sd : StructDef => Some (rendered (GenCreateSelector s sd)))
      (emitted_tables p).
Proof.
  rewrite schedule_parts, flat_map_app, declarations_none by done.
  apply definitions_builder_selectors.
Qed.

(** C3. When generate() returns, the forward-declaration line has been
    given to the header writer once for each struct of the parser whose
    generated flag is not set, with the reference name of that struct, and
    once for each collected vector type, and at no other place; the
    accessor line has been given to the header writer and to the
    implementation writer once for each field of each struct whose flag is
    not set, with the reference name of the struct and the name of the
    field, and at no other place; the builder line has been given to both
    writers once for each struct that has neither the generated nor the
    fixed flag set, with its selector, and at no other place. So a struct
    whose generated flag is set has no forward declaration, no accessor and
    no builder written for it, and every other struct has them all. *)
Theorem generated_structs_are_skipped (disk : FileSystem)
    (s : SwiftGenerator) (r : bool * FileSystem) (s' : SwiftGenerator) :
  generate disk s = Returned r s' ->
  exists arrays dh dmm,
    collect_arrays s = Ok arrays /\
    s' = with_writers s (code_h_ s ++ dh) (code_mm_ s ++ dmm) /\
    forall current,
      values_at ref_typedef "REF_NAME" current dh =
        map (fun sd : StructDef => Some (GenTypeRef_def s sd))
            (filter (fun sd : StructDef => negb (generated sd))
                    (structs_ (parser_ s))) ++
        map (fun it => Some (rendered (GenTypeRef s (snd it)))) arrays /\
      values_at accessor_decl "REF_NAME" current dh =
        flat_map (fun sd : StructDef =>
                    map (fun _ => Some (GenTypeRef_def s sd)) (fields sd))
                 (filter (fun sd : StructDef => negb (generated sd))
                         (structs_ (parser_ s))) /\
      values_at accessor_decl "FIELD_NAME" current dh =
        flat_map (fun sd : StructDef =>
                    map (fun f : FieldDef => Some (Name s f)) (fields sd))
                 (filter (fun sd : StructDef => negb (generated sd))
                         (structs_ (parser_ s))) /\
      values_at accessor_def "REF_NAME" current dmm =
        flat_map (fun sd : StructDef =>
                    map (fun _ => Some (GenTypeRef_def s sd)) (fields sd))
                 (filter (fun sd : StructDef => negb (generated sd))
                         (structs_ (parser_ s))) /\
      values_at accessor_def "FIELD_NAME" current dmm =
        flat_map (fun sd : StructDef =>
                    map (fun f : FieldDef => Some (Name s f)) (fields sd))
                 (filter (fun sd : StructDef => negb (generated sd))
                         (structs_ (parser_ s))) /\
      values_at builder_decl "SELECTOR_DECL" current dh =
        map (fun sd : StructDef => Some (rendered (GenCreateSelector s sd)))
            (filter (fun sd : StructDef =>
                       negb (generated sd) && negb (fixed sd))
                    (structs_ (parser_ s))) /\
      values_at builder_def "SELECTOR_DECL" current dmm =
        map (fun sd : StructDef => Some (rendered (GenCreateSelector s sd)))
            (filter (fun sd : StructDef =>
                       negb (generated sd) && negb (fixed sd))
                    (structs_ (parser_ s))).
Proof.
  intros Hrun.
  apply generate_returns in Hrun
    as (arrays & root & Harrays & _ & Hruns & -> & _).
  exists arrays. eexists _, _.
  split; [exact Harrays|]. split; [reflexivity|].
  intros current.
  fold (emitted_structs (parser_ s)). fold (emitted_tables (parser_ s)).
  split_and!.
  - rewrite <- (schedule_typedef_refs s _ arrays root).
    apply header_values; [exact Hruns| | |apply typedef_block];
      apply (prologue_quiet s); in_lines.
  - rewrite <- (schedule_accessor_refs s _ arrays root).
    apply header_values; [exact Hruns| | |apply accessor_refs_block_h];
      apply (prologue_quiet s); in_lines.
  - rewrite <- (schedule_accessor_names s _ arrays root).
    apply header_values; [exact Hruns| | |apply accessor_names_block_h];
      apply (prologue_quiet s); in_lines.
  - rewrite <- (schedule_accessor_refs s _ arrays root).
    apply implementation_values;
      [exact Hruns| | |apply accessor_refs_block_mm];
      apply (prologue_quiet_mm s); in_lines.
  - rewrite <- (schedule_accessor_names s _ arrays root).
    apply implementation_values;
      [exact Hruns| | |apply accessor_names_block_mm];
      apply (prologue_quiet_mm s); in_lines.
  - rewrite <- (schedule_builder_selectors s _ arrays root).
    apply header_values; [exact Hruns| | |apply builder_block_h];
      apply (prologue_quiet s); in_lines.
  - rewrite <- (schedule_builder_selectors s _ arrays root).
    apply implementation_values;
      [exact Hruns| | |apply builder_block_mm];
      apply (prologue_quiet_mm s); in_lines.
Qed.

End Skipped.


Section Ordered.
Context `{Externals}.
Local Open Scope list_scope.

Lemma Forall_both {A} (P Q : A -> Prop) (l : list A) :
  Forall P l -> Forall Q l -> Forall (fun x => P x /\ Q x) l.
Proof.
  intros HP HQ. apply Forall_forall. intros x Hx. split.
  - by apply (proj1 (Forall_forall _ _) HP).
  - by apply (proj1 (Forall_forall _ _) HQ).
Qed.

Lemma schedule_runs_parts s p arrays root :
  Forall (fun e => runs (emit e) s) (schedule p arrays root) ->
  Forall (fun e => runs (emit e) s) (declarations p arrays) /\
  Forall (fun e => runs (emit e) s) (definitions p arrays root).
Proof. rewrite schedule_parts. apply Forall_app. Qed.

(** C4. When generate() returns, the calls it has made on the header
    writer are in two parts. The first part holds every forward
    declaration: one for each struct whose generated flag is not set, in
    the order of the vector of struct definitions of the parser, then one
    for each collected vector type; and it holds no accessor and no builder
    line. The second part holds no forward declaration; its accessor lines
    are those of the fields of the same structs and its builder lines those
    of the tables among them, both in the order of the vector of the
    parser. The calls on the implementation writer start with a part that
    imports the header and holds no accessor and no builder definition;
    the definitions that follow are in the same order. The structs that
    are visited are a sublist of the vector of the parser, so their
    relative order is the one they have there. *)
Theorem structs_emitted_in_declaration_order (disk : FileSystem)
    (s : SwiftGenerator) (r : bool * FileSystem) (s' : SwiftGenerator) :
  generate disk s = Returned r s' ->
  exists arrays decls rest imports defs,
    collect_arrays s = Ok arrays /\
    s' = with_writers s (code_h_ s ++ decls ++ rest)
                        (code_mm_ s ++ imports ++ defs) /\
    (forall current,
       values_at ref_typedef "REF_NAME" current decls =
         map (fun sd : StructDef => Some (GenTypeRef_def s sd))
             (filter (fun sd : StructDef => negb (generated sd))
                     (structs_ (parser_ s))) ++
         map (fun it => Some (rendered (GenTypeRef s (snd it)))) arrays) /\
    Forall (fun c => c <> WAppend accessor_decl /\ c <> WAppend builder_decl)
           decls /\
    Forall (fun c => c <> WAppend ref_typedef) rest /\
    (forall current,
       values_at accessor_decl "REF_NAME" current rest =
         flat_map (fun sd : StructDef =>
                     map (fun _ => Some (GenTypeRef_def s sd)) (fields sd))
                  (filter (fun sd : StructDef => negb (generated sd))
                          (structs_ (parser_ s)))) /\
    (forall current,
       values_at builder_decl "SELECTOR_DECL" current rest =
         map (fun sd : StructDef => Some (rendered (GenCreateSelector s sd)))
             (filter (fun sd : StructDef =>
                        negb (generated sd) && negb (fixed sd))
                     (structs_ (parser_ s)))) /\
    WAppend ("#import " +:+ dq +:+ file_name_ s +:+ "_swift_generated.h"
             +:+ dq) ∈ imports /\
    Forall (fun c => c <> WAppend accessor_def /\ c <> WAppend builder_def)
           imports /\
    (forall current,
       values_at accessor_def "REF_NAME" current defs =
         flat_map (fun sd : StructDef =>
                     map (fun _ => Some (GenTypeRef_def s sd)) (fields sd))
                  (filter (fun sd : StructDef => negb (generated sd))
                          (structs_ (parser_ s)))) /\
    (forall current,
       values_at builder_def "SELECTOR_DECL" current defs =
         map (fun sd : StructDef => Some (rendered (GenCreateSelector s sd)))
             (filter (fun sd : StructDef =>
                        negb (generated sd) && negb (fixed sd))
                     (structs_ (parser_ s)))) /\
    filter (fun sd : StructDef => negb (generated sd))
           (structs_ (parser_ s)) `sublist_of` structs_ (parser_ s) /\
    filter (fun sd : StructDef => negb (generated sd) && negb (fixed sd))
           (structs_ (parser_ s)) `sublist_of` structs_ (parser_ s).
Proof.
  intros Hrun.
  apply generate_returns in Hrun
    as (arrays & root & Harrays & _ & Hruns & -> & _).
  pose proof (schedule_runs_parts _ _ _ _ Hruns) as [Hdecls Hdefs].
  exists arrays,
    (prologue_h s ++
     flat_map (fun e => (written (emit e) s).1)
              (declarations (parser_ s) arrays) ++ []),
    ([] ++ flat_map (fun e => (written (emit e) s).1)
                    (definitions (parser_ s) arrays root) ++
     epilogue_h s),
    (prologue_mm s),
    (flat_map (fun e => (written (emit e) s).2)
              (schedule (parser_ s) arrays root) ++ epilogue_mm).
  fold (emitted_structs (parser_ s)). fold (emitted_tables (parser_ s)).
  split; [exact Harrays|]. split.
  { unfold generate_output. rewrite schedule_parts, flat_map_app.
    rewrite app_nil_r, app_nil_l. by rewrite <- !app_assoc. }
  split.
  { intros current.
    rewrite <- (declarations_typedef_refs s (parser_ s) arrays).
    apply header_values; [exact Hdecls| |constructor|apply typedef_block].
    apply (prologue_quiet s). in_lines. }
  split.
  { rewrite app_nil_r. apply Forall_app. split.
    - apply Forall_both; apply (prologue_quiet s); in_lines.
    - apply Forall_both; apply declarations_only; in_lines. }
  split.
  { rewrite app_nil_l. apply Forall_app. split.
    - apply definitions_no_typedef.
    - apply (prologue_quiet s). in_lines. }
  split.
  { intros current.
    rewrite <- (definitions_accessor_refs s (parser_ s) arrays root).
    apply header_values;
      [exact Hdefs|constructor| |apply accessor_refs_block_h].
    apply (prologue_quiet s). in_lines. }
  split.
  { intros current.
    rewrite <- (definitions_builder_selectors s (parser_ s) arrays root).
    apply header_values;
      [exact Hdefs|constructor| |apply builder_block_h].
    apply (prologue_quiet s). in_lines. }
  split.
  { unfold prologue_mm. in_lines. }
  split.
  { apply Forall_both; apply (prologue_quiet_mm s); in_lines. }
  split.
  { intros current.
    rewrite <- (schedule_accessor_refs s (parser_ s) arrays root).
    rewrite <- (app_nil_l (flat_map _ _ ++ _)).
    apply implementation_values;
      [exact Hruns|constructor| |apply accessor_refs_block_mm].
    apply (prologue_quiet_mm s). in_lines. }
  split.
  { intros current.
    rewrite <- (schedule_builder_selectors s (parser_ s) arrays root).
    rewrite <- (app_nil_l (flat_map _ _ ++ _)).
    apply implementation_values;
      [exact Hruns|constructor| |apply builder_block_mm].
    apply (prologue_quiet_mm s). in_lines. }
  split; apply sublist_filter.
Qed.

End Ordered.


Lemma generated_structs_are_skipped_witness :
  exists r s' dh dmm,
    @generate Sample.externals [] Sample.generator = Returned r s' /\
    s' = with_writers Sample.generator (code_h_ Sample.generator ++ dh)%list
                      (code_mm_ Sample.generator ++ dmm)%list /\
    values_at ref_typedef "REF_NAME" None dh =
      [Some "Vec3Ref"; Some "WeaponRef"; Some "MonsterRef";
       Some "WeaponArrayRef"] /\
    values_at builder_def "SELECTOR_DECL" None dmm =
      [Some "makeWeaponWithName:(FlatBufferStringOffset)name damage:(int16_t)damage";
       Some "makeMonsterWithPos:(const Vec3 *)pos hp:(int16_t)hp name:(FlatBufferStringOffset)name weapons:(WeaponArrayOffset)weapons"].
Proof.
  assert (exists r s',
            @generate Sample.externals [] Sample.generator = Returned r s')
    as (r & s' & Hrun) by (eexists _, _; vm_compute; reflexivity).
  destruct (@generated_structs_are_skipped Sample.externals [] _ _ _ Hrun)
    as (arrays & dh & dmm & Harrays & Hs' & Hall).
  destruct (Hall None) as (Hdecl & _ & _ & _ & _ & _ & Hbuild).
  assert (Ok arrays = Ok [("WeaponArray",
                           {| base_type := BASE_TYPE_VECTOR;
                              element := BASE_TYPE_STRUCT;
                              struct_def := Some 1%nat |})]) as Heq
    by (rewrite <- Harrays; vm_compute; reflexivity).
  injection Heq as ->.
  exists r, s', dh, dmm.
  split; [exact Hrun|]. split; [exact Hs'|]. split.
  - rewrite Hdecl. vm_compute. reflexivity.
  - rewrite Hbuild. vm_compute. reflexivity.
Defined.

Lemma structs_emitted_in_declaration_order_witness :
  exists r s' decls rest imports defs,
    @generate Sample.externals [] Sample.generator = Returned r s' /\
    s' = with_writers Sample.generator
           (code_h_ Sample.generator ++ decls ++ rest)%list
           (code_mm_ Sample.generator ++ imports ++ defs)%list /\
    values_at ref_typedef "REF_NAME" None decls =
      [Some "Vec3Ref"; Some "WeaponRef"; Some "MonsterRef";
       Some "WeaponArrayRef"] /\
    values_at ref_typedef "REF_NAME" None rest = [] /\
    values_at accessor_decl "REF_NAME" None rest =
      [Some "Vec3Ref"; Some "Vec3Ref"; Some "Vec3Ref";
       Some "WeaponRef"; Some "WeaponRef";
       Some "MonsterRef"; Some "MonsterRef"; Some "MonsterRef";
       Some "MonsterRef"; Some "MonsterRef"].
Proof.
  assert (exists r s',
            @generate Sample.externals [] Sample.generator = Returned r s')
    as (r & s' & Hrun) by (eexists _, _; vm_compute; reflexivity).
  destruct (@structs_emitted_in_declaration_order Sample.externals [] _ _ _
              Hrun)
    as (arrays & decls & rest & imports & defs & Harrays & Hs' & Hdecl & _ &
        Hrest & Hacc & _).
  assert (Ok arrays = Ok [("WeaponArray",
                           {| base_type := BASE_TYPE_VECTOR;
                              element := BASE_TYPE_STRUCT;
                              struct_def := Some 1%nat |})]) as Heq
    by (rewrite <- Harrays; vm_compute; reflexivity).
  injection Heq as ->.
  exists r, s', decls, rest, imports, defs.
  split; [exact Hrun|]. split; [exact Hs'|]. split; [|split].
  - rewrite Hdecl. vm_compute. reflexivity.
  - exact (values_at_quiet_nil _ _ _ _ Hrest).
  - rewrite Hacc. vm_compute. reflexivity.
Defined.




Section DiscoveryOrder.
Context `{Externals}.




End DiscoveryOrder.

Section Deterministic.
Context `{Externals}.


End Deterministic.




(** * The serialized buffer: builder and reader

    The buffer builder and the buffer reader (flatbuffers/flatbuffers.h) are
    not among the sources at hand; they are modelled from sections 4.1 to
    4.3 of the specification. *)
Module Wire.

Local Open Scope list_scope.
Local Open Scope nat_scope.

(** Modelled from the spec: the bytes of an unsigned integer of [w] bytes.
    The builder and the reader are missing, and with them the byte order,
    which the specification leaves open; the lowest byte comes first. *)
Fixpoint le_bytes (w : nat) (v : Z) : list Z :=
  match w with
  | O => []
  | S w => (v mod 256)%Z :: le_bytes w (v / 256)%Z
  end.

Fixpoint le_value (bytes : list Z) : Z :=
  match bytes with
  | [] => 0%Z
  | b :: bytes => (b + 256 * le_value bytes)%Z
  end.

(** ** Scalars

    Modelled from the spec (section 3): the scalar types of the data model,
    each with its width in bytes. *)
Inductive ScalarType : Set :=
  | TBool | TUType | TChar | TUChar | TShort | TUShort
  | TInt | TUInt | TLong | TULong | TFloat | TDouble.

Definition scalar_width (k : ScalarType) : nat :=
  match k with
  | TBool | TUType | TChar | TUChar => 1
  | TShort | TUShort => 2
  | TInt | TUInt | TFloat => 4
  | TLong | TULong | TDouble => 8
  end.

(** A scalar value: a truth value, an integer, or a floating-point number,
    which is a zero, an infinity, not a number, or a sign, a mantissa and an
    exponent. *)
Inductive Value : Type :=
  | VBool (b : bool)
  | VInt (n : Z)
  | VFloat (f : SpecFloat.spec_float).

(** The integers of an integer type: from [fst] up to [snd], the latter
    excluded. *)
Definition int_range (k : ScalarType) : option (Z * Z) :=
  match k with
  | TUType | TUChar => Some (0, 256)%Z
  | TChar => Some (-128, 128)%Z
  | TUShort => Some (0, 65536)%Z
  | TShort => Some (-32768, 32768)%Z
  | TUInt => Some (0, 4294967296)%Z
  | TInt => Some (-2147483648, 2147483648)%Z
  | TULong => Some (0, 18446744073709551616)%Z
  | TLong => Some (-9223372036854775808, 9223372036854775808)%Z
  | TBool | TFloat | TDouble => None
  end.

(** Modelled from the spec: the bits of a floating-point number in the
    interchange format with [mw] bits of mantissa and [ew] bits of exponent
    (23 and 8 for Float, 52 and 11 for Double): the sign, the biased
    exponent, the mantissa without its leading bit. *)
Definition sign_bit (mw ew : Z) (s : bool) : Z :=
  if s then (2 ^ (mw + ew))%Z else 0%Z.

Definition float_emin (mw ew : Z) : Z :=
  SpecFloat.emin (mw + 1) (2 ^ (ew - 1)).

Definition float_bits (mw ew : Z) (f : SpecFloat.spec_float) : Z :=
  match f with
  | SpecFloat.S754_zero s => sign_bit mw ew s
  | SpecFloat.S754_infinity s =>
      (sign_bit mw ew s + (2 ^ ew - 1) * 2 ^ mw)%Z
  | SpecFloat.S754_nan => ((2 ^ ew - 1) * 2 ^ mw + 2 ^ (mw - 1))%Z
  | SpecFloat.S754_finite s m e =>
      if (Z.pos m <? 2 ^ mw)%Z
      then (sign_bit mw ew s + Z.pos m)%Z
      else (sign_bit mw ew s + (e - float_emin mw ew + 1) * 2 ^ mw +
            (Z.pos m - 2 ^ mw))%Z
  end.

Definition float_of_bits (mw ew : Z) (x : Z) : SpecFloat.spec_float :=
  let s := (2 ^ (mw + ew) <=? x)%Z in
  let exponent := ((x / 2 ^ mw) mod 2 ^ ew)%Z in
  let mantissa := (x mod 2 ^ mw)%Z in
  if (exponent =? 0)%Z then
    match mantissa with
    | Z.pos m => SpecFloat.S754_finite s m (float_emin mw ew)
    | _ => SpecFloat.S754_zero s
    end
  else if (exponent =? 2 ^ ew - 1)%Z then
    if (mantissa =? 0)%Z then SpecFloat.S754_infinity s
    else SpecFloat.S754_nan
  else
    match (mantissa + 2 ^ mw)%Z with
    | Z.pos m =>
        SpecFloat.S754_finite s m (exponent + float_emin mw ew - 1)%Z
    | _ => SpecFloat.S754_nan
    end.

(** The numbers of a floating-point type: the mantissa of a finite one is
    in canonical form and its exponent in range. *)
Definition float_valid (mw ew : Z) (f : SpecFloat.spec_float) : bool :=
  SpecFloat.valid_binary (mw + 1) (2 ^ (ew - 1)) f.

(** Modelled from the spec: the bytes of a scalar of a type, the lowest
    byte first; an integer outside its type, and a value of another type,
    have none. A negative integer is stored in two's complement. *)
Definition encode_scalar (k : ScalarType) (v : Value) : option (list Z) :=
  match k, v with
  | TBool, VBool b => Some [if b then 1%Z else 0%Z]
  | TFloat, VFloat f =>
      if float_valid 23 8 f then Some (le_bytes 4 (float_bits 23 8 f))
      else None
  | TDouble, VFloat f =>
      if float_valid 52 11 f then Some (le_bytes 8 (float_bits 52 11 f))
      else None
  | _, VInt n =>
      match int_range k with
      | Some (lo, hi) =>
          if ((lo <=? n) && (n <? hi))%Z
          then Some (le_bytes (scalar_width k)
                       (n mod 256 ^ Z.of_nat (scalar_width k))%Z)
          else None
      | None => None
      end
  | _, _ => None
  end.

(** The scalar of a type that the reader makes of its bytes. *)
Definition decode_scalar (k : ScalarType) (bytes : list Z) : Value :=
  let u := le_value bytes in
  match k with
  | TBool => VBool (negb (u =? 0)%Z)
  | TFloat => VFloat (float_of_bits 23 8 u)
  | TDouble => VFloat (float_of_bits 52 11 u)
  | _ =>
      match int_range k with
      | Some (lo, hi) =>
          VInt (if (u <? hi)%Z then u
                else (u - 256 ^ Z.of_nat (scalar_width k))%Z)
      | None => VInt u
      end
  end.

(** A length, a count or an offset is an unsigned integer of 4 bytes; an
    entry of a vtable is one of 2 bytes. *)
Definition u32 (n : nat) : list Z := le_bytes 4 (Z.of_nat n).
Definition u16 (n : nat) : list Z := le_bytes 2 (Z.of_nat n).

(** The unsigned integer in the first [w] bytes of a region; there is none
    when the region is shorter (a bounds error of the reader). *)
Definition read_uint (w : nat) (region : list Z) : option nat :=
  if decide (w <= List.length region)
  then Some (Z.to_nat (le_value (take w region)))
  else None.

(** Modelled from the spec: the buffer under construction, missing with
    FlatBufferBuilder. It is built backward: what is written later lies in
    front of what was written earlier, and an offset locates an object by
    its distance from the end of the buffer, which no later write changes.
    [vtables] is the cache of the vtables written so far, each under the
    offset of its first copy; [pending] holds the fields of the table being
    built, [None] outside start_table .. end_table. *)
Record Builder : Type := mkBuilder {
  buf : list Z;
  finished : bool;
  vtables : list (list Z * nat);
  pending : option (list (nat * list Z))
}.

Definition new_builder : Builder :=
  {| buf := []; finished := false; vtables := []; pending := None |}.

(** The builder operations answer [None] for a BuilderStateError, and for
    a value that the format cannot hold. *)

(** What an offset of 4 bytes can locate: a buffer of fewer than 2^32
    bytes. *)
Definition addressable (buffer : list Z) : bool :=
  (Z.of_nat (List.length buffer) <? 2 ^ 32)%Z.

(** A write of raw bytes in front of the buffer: refused once finished, and
    when the buffer would grow past what an offset can locate. *)
Definition push (bytes : list Z) (b : Builder) : option Builder :=
  if finished b then None
  else if addressable (bytes ++ buf b)
       then Some {| buf := bytes ++ buf b; finished := false;
                    vtables := vtables b; pending := pending b |}
       else None.

(** Modelled from the spec: push_scalar(value), for a scalar of a type. *)
Definition push_scalar (k : ScalarType) (v : Value) (b : Builder)
  : option Builder :=
  bytes ← encode_scalar k v;
  push bytes b.

(** Modelled from the spec: create_string(bytes), the byte length in front
    of the bytes; it answers the offset of the string. *)
Definition create_string (bytes : list Z) (b : Builder)
  : option (Builder * nat) :=
  b ← push bytes b;
  b ← push (u32 (List.length bytes)) b;
  Some (b, List.length (buf b)).

(** Modelled from the spec: create_vector(elements). The elements are
    written last to first, then the count in front of them. *)
Definition create_vector (elements : list (list Z)) (b : Builder)
  : option (Builder * nat) :=
  b ← foldr (fun element acc => acc ≫= push element) (Some b) elements;
  b ← push (u32 (List.length elements)) b;
  Some (b, List.length (buf b)).

(** Modelled from the spec: start_table(). *)
Definition start_table (b : Builder) : option Builder :=
  if finished b then None
  else match pending b with
       | Some _ => None
       | None => Some {| buf := buf b; finished := false;
                         vtables := vtables b; pending := Some [] |}
       end.

(** Modelled from the spec: add_field(id, value). A field added out of the
    order of the field ids is rejected. *)
Definition add_field (id : nat) (value : list Z) (b : Builder)
  : option Builder :=
  if finished b then None
  else match pending b with
       | None => None
       | Some fields =>
           if forallb (fun f => (fst f <? id)) fields
           then Some {| buf := buf b; finished := false;
                        vtables := vtables b;
                        pending := Some (fields ++ [(id, value)]) |}
           else None
       end.

(** The entries of the vtable of a table with the given fields, from field
    id [id] on: for a field that was added, the byte offset of the field in
    the table object, which starts with the 4 bytes of the reference to its
    vtable; 0 for a field id that was passed over. *)
Fixpoint vtable_entries (fields : list (nat * list Z)) (id position : nat)
  : list nat :=
  match fields with
  | [] => []
  | (id', value) :: fields =>
      replicate (id' - id) 0 ++
      position :: vtable_entries fields (S id') (position + List.length value)
  end.

(** A vtable: the number of its entries, then the entries. *)
Definition vtable_bytes (fields : list (nat * list Z)) : list Z :=
  let entries := vtable_entries fields 0 4 in
  u16 (List.length entries) ++ List.concat (map u16 entries).

(** The offset of the first copy of a vtable in the cache. *)
Fixpoint find_vtable (vt : list Z) (cache : list (list Z * nat))
  : option nat :=
  match cache with
  | [] => None
  | (vt', offset) :: cache =>
      if decide (vt' = vt) then Some offset else find_vtable vt cache
  end.

(** What the entries of a vtable, of 2 bytes each, can tell: fewer than
    2^16 entries, and a table object of fewer than 2^16 bytes. *)
Definition table_fits (fields : list (nat * list Z)) : bool :=
  (Z.of_nat (List.length (vtable_entries fields 0 4)) <? 2 ^ 16)%Z &&
  (Z.of_nat (4 + List.length (List.concat (map snd fields))) <? 2 ^ 16)%Z.

(** Modelled from the spec: end_table(). A vtable equal to one written
    before is not written again; the table object is the reference to its
    vtable followed by its fields. It answers the offset of the table. A
    table that its vtable cannot describe is rejected. *)
Definition end_table (b : Builder) : option (Builder * nat) :=
  if finished b then None
  else match pending b with
       | None => None
       | Some fields =>
           if table_fits fields then
             let vt := vtable_bytes fields in
             let '(buf1, cache1, vt_offset) :=
               match find_vtable vt (vtables b) with
               | Some offset => (buf b, vtables b, offset)
               | None =>
                   (vt ++ buf b,
                    vtables b ++ [(vt, List.length (vt ++ buf b))],
                    List.length (vt ++ buf b))
               end in
             let buf2 :=
               u32 vt_offset ++ List.concat (map snd fields) ++ buf1 in
             if addressable buf2
             then Some ({| buf := buf2; finished := false; vtables := cache1;
                           pending := None |},
                        List.length buf2)
             else None
           else None
       end.

(** Modelled from the spec: finish(root_offset). The offset of the root
    goes in the 4 bytes at the start of the buffer, and the buffer is
    frozen. Finishing with no root, in the middle of a table, or twice is
    rejected. *)
Definition finish (root : nat) (b : Builder) : option Builder :=
  if finished b then None
  else match pending b with
       | Some _ => None
       | None =>
           if decide (root = 0) then None
           else if addressable (u32 root ++ buf b)
                then Some {| buf := u32 root ++ buf b; finished := true;
                             vtables := vtables b; pending := None |}
                else None
       end.

(** ** The reader

    The reader operations answer [None] for a ReaderBoundsError. *)

(** The bytes of the buffer from the object at [offset] on. *)
Definition object_at (buffer : list Z) (offset : nat) : option (list Z) :=
  if decide (offset <= List.length buffer)
  then Some (drop (List.length buffer - offset) buffer)
  else None.

(** Modelled from the spec: root(). *)
Definition root (buffer : list Z) : option nat := read_uint 4 buffer.

(** The contents of a string. *)
Definition string_bytes (buffer : list Z) (ref : nat) : option (list Z) :=
  object ← object_at buffer ref;
  len ← read_uint 4 object;
  if decide (4 + len <= List.length object)
  then Some (take len (drop 4 object))
  else None.

(** Modelled from the spec: vector_length(ref). *)
Definition vector_length (buffer : list Z) (ref : nat) : option nat :=
  object ← object_at buffer ref;
  read_uint 4 object.

(** Modelled from the spec: vector_get(ref, index), checked against the
    length; it answers the bytes of the element, of [size] bytes. *)
Definition vector_get (buffer : list Z) (ref : nat) (size index : nat)
  : option (list Z) :=
  object ← object_at buffer ref;
  len ← read_uint 4 object;
  if decide (index < len) then
    if decide (4 + (index + 1) * size <= List.length object)
    then Some (take size (drop (4 + index * size) object))
    else None
  else None.

(** Modelled from the spec: field(table_ref, field_id), by the vtable of the
    table. [Some None] is an absent field; [Some (Some region)] is the
    region of the table object that starts with the field. *)
Definition field (buffer : list Z) (table_ref : nat) (id : nat)
  : option (option (list Z)) :=
  object ← object_at buffer table_ref;
  vt_ref ← read_uint 4 object;
  vt ← object_at buffer vt_ref;
  n ← read_uint 2 vt;
  if decide (id < n) then
    entry ← read_uint 2 (drop (2 + 2 * id) vt);
    if decide (entry = 0) then Some None
    else if decide (entry <= List.length object)
         then Some (Some (drop entry object))
         else None
  else Some None.

(** ** Data trees

    A data tree and its schema type. A scalar has its type and its declared
    default; a table lists the types of its fields by field id, and a field
    of a table may be absent. *)
#[local] Set Warnings "-register-all".

Inductive Shape : Type :=
  | SScalar (kind : ScalarType) (default : Value)
  | SString
  | SVector (element : Shape)
  | STable (fields : list Shape).

Inductive Tree : Type :=
  | Scalar (v : Value)
  | Str (bytes : list Z)
  | Vec (elements : list Tree)
  | Table (fields : list (option Tree)).

(** What a value takes where it is stored in line: a scalar its bytes, a
    string, vector or table the 4 bytes of its offset. *)
Definition inline_size (shape : Shape) : nat :=
  match shape with
  | SScalar kind _ => scalar_width kind
  | _ => 4
  end.

Inductive Slot : Type :=
  | Inline (bytes : list Z)
  | Reference (offset : nat).

Definition slot_bytes (slot : Slot) : list Z :=
  match slot with
  | Inline bytes => bytes
  | Reference offset => u32 offset
  end.

Section Children.

Variable write_one : Tree -> Builder -> option (Builder * Slot).

(** The elements of a vector, first to last; the values to store in line. *)
Fixpoint write_elements (elements : list Tree) (b : Builder)
  : option (Builder * list (list Z)) :=
  match elements with
  | [] => Some (b, [])
  | t :: elements =>
      r ← write_one t b;
      rs ← write_elements elements r.1;
      Some (rs.1, slot_bytes r.2 :: rs.2)
  end.

End Children.

Section Fields.

Variable write_one : Shape -> Tree -> Builder -> option (Builder * Slot).

(** The fields of a table that are present, by ascending field id. *)
Fixpoint write_fields (shapes : list Shape) (fields : list (option Tree))
    (id : nat) (b : Builder) {struct fields}
  : option (Builder * list (nat * list Z)) :=
  match shapes, fields with
  | [], [] => Some (b, [])
  | shape :: shapes, None :: fields => write_fields shapes fields (S id) b
  | shape :: shapes, Some t :: fields =>
      r ← write_one shape t b;
      rs ← write_fields shapes fields (S id) r.1;
      Some (rs.1, (id, slot_bytes r.2) :: rs.2)
  | _, _ => None
  end.

End Fields.

(** The calls of add_field for the fields written. *)
Fixpoint add_fields (fields : list (nat * list Z)) (b : Builder)
  : option Builder :=
  match fields with
  | [] => Some b
  | (id, value) :: fields => add_field id value b ≫= add_fields fields
  end.

(** Modelled from the spec: building the buffer of a data tree with the
    builder operations, the children of a vector or a table before it, as
    building backward asks. A tree that is not of the type is rejected,
    and so is a scalar that is not a value of its type. *)
Fixpoint write (shape : Shape) (t : Tree) (b : Builder) {struct t}
  : option (Builder * Slot) :=
  match shape, t with
  | SScalar kind _, Scalar v =>
      bytes ← encode_scalar kind v;
      Some (b, Inline bytes)
  | SString, Str bytes =>
      r ← create_string bytes b;
      Some (r.1, Reference r.2)
  | SVector element, Vec elements =>
      rs ← write_elements (write element) elements b;
      r ← create_vector rs.2 rs.1;
      Some (r.1, Reference r.2)
  | STable shapes, Table fields =>
      rs ← write_fields write shapes fields 0 b;
      b ← start_table rs.1;
      b ← add_fields rs.2 b;
      r ← end_table b;
      Some (r.1, Reference r.2)
  | _, _ => None
  end.

(** The finished buffer of a tree; the root is a string, a vector or a
    table. *)
Definition build (shape : Shape) (t : Tree) : option (list Z) :=
  r ← write shape t new_builder;
  match r.2 with
  | Inline _ => None
  | Reference offset => buf <$> finish offset r.1
  end.

(** The value of an absent field: the declared default of a scalar; a
    string, vector or table stays absent. *)
Definition default_of (shape : Shape) : option Tree :=
  match shape with
  | SScalar _ default => Some (Scalar default)
  | _ => None
  end.

Section ReadFields.

Variable read_one : Shape -> list Z -> option Tree.
Variable buffer : list Z.
Variable table_ref : nat.

Fixpoint read_fields (shapes : list Shape) (id : nat)
  : option (list (option Tree)) :=
  match shapes with
  | [] => Some []
  | shape :: shapes =>
      f ← field buffer table_ref id;
      v ← match f with
          | None => Some (default_of shape)
          | Some region => Some <$> read_one shape region
          end;
      vs ← read_fields shapes (S id);
      Some (v :: vs)
  end.

End ReadFields.

(** Modelled from the spec: the traversal of a finished buffer with the
    reader operations, by the type the buffer was built with. [region]
    starts with the value as it is stored in line. *)
Fixpoint read_tree (shape : Shape) (buffer : list Z) (region : list Z)
  : option Tree :=
  match shape with
  | SScalar kind _ =>
      if decide (scalar_width kind <= List.length region)
      then Some (Scalar (decode_scalar kind (take (scalar_width kind) region)))
      else None
  | SString =>
      ref ← read_uint 4 region;
      Str <$> string_bytes buffer ref
  | SVector element =>
      ref ← read_uint 4 region;
      n ← vector_length buffer ref;
      Vec <$> mapM (fun index =>
                      vector_get buffer ref (inline_size element) index
                        ≫= read_tree element buffer)
                   (seq 0 n)
  | STable shapes =>
      ref ← read_uint 4 region;
      Table <$> read_fields (fun shape => read_tree shape buffer) buffer ref
                  shapes 0
  end.

(** Reading a finished buffer starts at root(), the offset in its first 4
    bytes. *)
Definition read_buffer (shape : Shape) (buffer : list Z) : option Tree :=
  read_tree shape buffer buffer.

(** A tree as the reader gives it back: an absent scalar field reads as its
    default. *)
Section Defaults.

Variable with_defaults_one : Shape -> Tree -> Tree.

Fixpoint fields_with_defaults (shapes : list Shape)
    (fields : list (option Tree)) {struct fields} : list (option Tree) :=
  match shapes, fields with
  | shape :: shapes, Some t :: fields =>
      Some (with_defaults_one shape t) :: fields_with_defaults shapes fields
  | shape :: shapes, None :: fields =>
      default_of shape :: fields_with_defaults shapes fields
  | _, _ => []
  end.

End Defaults.

Fixpoint with_defaults (shape : Shape) (t : Tree) {struct t} : Tree :=
  match shape, t with
  | SVector element, Vec elements =>
      Vec (map (with_defaults element) elements)
  | STable shapes, Table fields =>
      Table (fields_with_defaults with_defaults shapes fields)
  | _, _ => t
  end.

(** The trees that set every scalar field of their tables. *)
Inductive explicit : Shape -> Tree -> Prop :=
  | explicit_scalar kind default v :
      explicit (SScalar kind default) (Scalar v)
  | explicit_string bytes :
      explicit SString (Str bytes)
  | explicit_vector element elements :
      Forall (explicit element) elements ->
      explicit (SVector element) (Vec elements)
  | explicit_table shapes fields :
      Forall2 (fun shape f =>
                 (forall t, f = Some t -> explicit shape t) /\
                 (f = None -> default_of shape = None)) shapes fields ->
      explicit (STable shapes) (Table fields).

Module Sample.

Definition weapon : Shape :=
  STable [SString; SScalar TShort (VInt 0)].

Definition monster : Shape :=
  STable [SScalar TShort (VInt 100); SString;
          SVector (SScalar TUChar (VInt 0));
          SVector weapon; SScalar TInt (VInt 7); weapon;
          SScalar TFloat (VFloat (SpecFloat.S754_zero false));
          SScalar TBool (VBool false);
          SScalar TLong (VInt 0);
          SScalar TDouble (VFloat (SpecFloat.S754_zero false))].

Definition orc : Tree :=
  Table [Some (Scalar (VInt 300)); Some (Str [79; 114; 99]%Z);
         Some (Vec [Scalar (VInt 1); Scalar (VInt 2); Scalar (VInt 255)]);
         Some (Vec [Table [Some (Str [65; 120; 101]%Z);
                           Some (Scalar (VInt 5))];
                    Table [Some (Str [66; 111; 119]%Z);
                           Some (Scalar (VInt 3))];
                    Table [None; Some (Scalar (VInt 9))]]);
         None;
         None;
         None;
         None;
         None;
         None].

(** A tree with negative integers, the floating-point numbers -1.5 and 2,
    and a truth value. *)
Definition goblin : Tree :=
  Table [Some (Scalar (VInt (-20))); Some (Str [71; 111; 98]%Z);
         Some (Vec []);
         Some (Vec [Table [Some (Str [66; 111; 119]%Z);
                           Some (Scalar (VInt (-3)))]]);
         Some (Scalar (VInt (-1)));
         Some (Table [None; Some (Scalar (VInt 4))]);
         Some (Scalar (VFloat (SpecFloat.S754_finite true 12582912 (-23))));
         Some (Scalar (VBool true));
         Some (Scalar (VInt (-9000000000)));
         Some (Scalar
                 (VFloat (SpecFloat.S754_finite false 4503599627370496
                            (-51))))].

End Sample.

(** ** Integers in bytes *)

Lemma le_bytes_length w v : List.length (le_bytes w v) = w.
Proof.
  revert v. induction w as [|w IH]; intros v; simpl; [done|].
  by rewrite IH.
Qed.

Lemma le_value_bytes w v :
  (0 <= v < 256 ^ Z.of_nat w)%Z -> le_value (le_bytes w v) = v.
Proof.
  revert v. induction w as [|w IH]; intros v Hv.
  - simpl in *. lia.
  - cbn [le_bytes le_value]. rewrite IH.
    + pose proof (Z.div_mod v 256). lia.
    + rewrite Nat2Z.inj_succ, Z.pow_succ_r in Hv by lia.
      split; [apply Z.div_pos; lia|].
      apply Z.div_lt_upper_bound; lia.
Qed.

(** ** Floating-point numbers in bits *)

Section FloatBits.
Local Open Scope Z_scope.

Lemma digits2_pos_bounds (m : positive) :
  2 ^ (Z.pos (SpecFloat.digits2_pos m) - 1) <= Z.pos m
    < 2 ^ Z.pos (SpecFloat.digits2_pos m).
Proof.
  induction m as [m IH|m IH|]; cbn [SpecFloat.digits2_pos].
  - rewrite Pos2Z.inj_succ. change (Z.pos m~1) with (2 * Z.pos m + 1).
    replace (Z.succ (Z.pos (SpecFloat.digits2_pos m)) - 1)
      with (Z.succ (Z.pos (SpecFloat.digits2_pos m) - 1)) by lia.
    rewrite !Z.pow_succ_r by lia.
    set (a := 2 ^ (Z.pos _ - 1)) in *. set (b := 2 ^ Z.pos _) in *.
    clearbody a b. lia.
  - rewrite Pos2Z.inj_succ. change (Z.pos m~0) with (2 * Z.pos m).
    replace (Z.succ (Z.pos (SpecFloat.digits2_pos m)) - 1)
      with (Z.succ (Z.pos (SpecFloat.digits2_pos m) - 1)) by lia.
    rewrite !Z.pow_succ_r by lia.
    set (a := 2 ^ (Z.pos _ - 1)) in *. set (b := 2 ^ Z.pos _) in *.
    clearbody a b. lia.
  - simpl. lia.
Qed.

(** The three fields of a bit pattern. *)
Lemma float_fields mw ew (sign : bool) (exponent mantissa : Z) :
  0 < mw -> 0 < ew ->
  0 <= exponent < 2 ^ ew -> 0 <= mantissa < 2 ^ mw ->
  let x := sign_bit mw ew sign + exponent * 2 ^ mw + mantissa in
  0 <= x < 2 ^ (mw + ew + 1) /\
  (2 ^ (mw + ew) <=? x) = sign /\
  (x / 2 ^ mw) mod 2 ^ ew = exponent /\
  x mod 2 ^ mw = mantissa.
Proof.
  intros Hmw Hew He Hm x.
  assert (0 < 2 ^ mw) as Hpm by (apply Z.pow_pos_nonneg; lia).
  assert (0 < 2 ^ ew) as Hpe by (apply Z.pow_pos_nonneg; lia).
  assert (2 ^ (mw + ew) = 2 ^ ew * 2 ^ mw) as Hsum
    by (rewrite Z.pow_add_r by lia; lia).
  assert (2 ^ (mw + ew + 1) = 2 * (2 ^ ew * 2 ^ mw)) as Hall
    by (rewrite Z.pow_add_r, Hsum by lia; lia).
  assert (x = ((if sign then 2 ^ ew else 0) + exponent) * 2 ^ mw + mantissa)
    as Hx.
  { unfold x, sign_bit. destruct sign; rewrite ?Hsum; lia. }
  clearbody x. rewrite Hall, Hsum. subst x.
  set (P := 2 ^ mw) in *. set (Q := 2 ^ ew) in *. clearbody P Q.
  assert (0 <= exponent * P + mantissa < Q * P) as Hlow by nia.
  split; [destruct sign; nia|].
  split.
  { destruct sign.
    - apply Z.leb_le. nia.
    - apply Z.leb_gt. nia. }
  split.
  - rewrite Z.div_add_l by lia.
    rewrite (Z.div_small mantissa) by lia. rewrite Z.add_0_r.
    destruct sign.
    + rewrite <- (Z.mul_1_l Q) at 1.
      rewrite Z.add_comm, Z.mod_add by lia. apply Z.mod_small. lia.
    + apply Z.mod_small. lia.
  - rewrite Z.add_comm, Z.mod_add by lia. apply Z.mod_small. lia.
Qed.

Lemma float_bits_round_trip mw ew f :
  1 < mw -> 1 < ew ->
  float_valid mw ew f = true ->
  0 <= float_bits mw ew f < 2 ^ (mw + ew + 1) /\
  float_of_bits mw ew (float_bits mw ew f) = f.
Proof.
  intros Hmw Hew Hvalid.
  assert (0 < 2 ^ mw) as Hpm by (apply Z.pow_pos_nonneg; lia).
  assert (2 ^ ew = 2 * 2 ^ (ew - 1)) as Hpe.
  { rewrite <- Z.pow_succ_r by lia. f_equal. lia. }
  assert (2 ^ mw = 2 * 2 ^ (mw - 1)) as Hpm'.
  { rewrite <- Z.pow_succ_r by lia. f_equal. lia. }
  assert (1 < 2 ^ (ew - 1)) as Hemax.
  { apply (Z.pow_gt_1 2 (ew - 1)); lia. }
  assert (0 < 2 ^ (mw - 1)) as Hhalf by (apply Z.pow_pos_nonneg; lia).
  destruct f as [s|s| |s m e]; unfold float_bits, float_of_bits; cbv zeta.
  - (* a zero *)
    destruct (float_fields mw ew s 0 0) as (Hr & Hs & He & Hm); [lia..|].
    cbv zeta in Hr, Hs, He, Hm.
    replace (sign_bit mw ew s + 0 * 2 ^ mw + 0) with (sign_bit mw ew s)
      in * by lia.
    by rewrite Hs, He, Hm.
  - (* an infinity *)
    destruct (float_fields mw ew s (2 ^ ew - 1) 0) as (Hr & Hs & He & Hm);
      [lia..|].
    cbv zeta in Hr, Hs, He, Hm.
    replace (sign_bit mw ew s + (2 ^ ew - 1) * 2 ^ mw + 0)
      with (sign_bit mw ew s + (2 ^ ew - 1) * 2 ^ mw) in * by lia.
    rewrite Hs, He, Hm. split; [done|].
    rewrite (proj2 (Z.eqb_neq _ 0)) by lia.
    by rewrite Z.eqb_refl.
  - (* not a number *)
    destruct (float_fields mw ew false (2 ^ ew - 1) (2 ^ (mw - 1)))
      as (Hr & Hs & He & Hm); [lia..|].
    cbv zeta in Hr, Hs, He, Hm. unfold sign_bit in Hr, Hs, He, Hm.
    rewrite Z.add_0_l in Hr, Hs, He, Hm.
    rewrite He, Hm. split; [done|].
    rewrite (proj2 (Z.eqb_neq _ 0)) by lia.
    rewrite Z.eqb_refl.
    by rewrite (proj2 (Z.eqb_neq _ 0)) by lia.
  - (* a finite number *)
    unfold float_valid in Hvalid. cbn [SpecFloat.valid_binary] in Hvalid.
    unfold SpecFloat.bounded, SpecFloat.canonical_mantissa in Hvalid.
    apply andb_true_iff in Hvalid as [Hcanon Hmax].
    apply Z.eqb_eq in Hcanon. apply Z.leb_le in Hmax.
    unfold SpecFloat.fexp in Hcanon.
    pose proof (digits2_pos_bounds m) as Hdigits.
    set (d := Z.pos (SpecFloat.digits2_pos m)) in *.
    assert (0 < d) as Hd by (unfold d; lia).
    unfold float_emin.
    set (emin := SpecFloat.emin (mw + 1) (2 ^ (ew - 1))) in *.
    assert (emin = 3 - 2 ^ (ew - 1) - (mw + 1)) as Hemin by reflexivity.
    destruct (Z.ltb_spec (Z.pos m) (2 ^ mw)) as [Hsub|Hnormal].
    + (* subnormal *)
      assert (d <= mw) as Hdm.
      { destruct (Z.le_gt_cases d mw) as [|Hgt]; [done|].
        assert (2 ^ mw <= 2 ^ (d - 1)) by (apply Z.pow_le_mono_r; lia).
        lia. }
      assert (e = emin) as -> by lia.
      destruct (float_fields mw ew s 0 (Z.pos m)) as (Hr & Hs & He & Hm);
        [lia..|].
      cbv zeta in Hr, Hs, He, Hm.
      replace (sign_bit mw ew s + 0 * 2 ^ mw + Z.pos m)
        with (sign_bit mw ew s + Z.pos m) in * by lia.
      by rewrite Hs, He, Hm.
    + (* normal *)
      assert (mw + 1 <= d) as Hdm.
      { destruct (Z.le_gt_cases (mw + 1) d) as [|Hgt]; [done|].
        assert (2 ^ d <= 2 ^ mw) by (apply Z.pow_le_mono_r; lia).
        lia. }
      assert (d = mw + 1) as Hdeq by lia.
      assert (emin <= e) as Hlow by lia.
      assert (Z.pos m < 2 * 2 ^ mw) as Hm2.
      { rewrite Hdeq in Hdigits. rewrite Z.pow_add_r in Hdigits by lia.
        lia. }
      destruct (float_fields mw ew s (e - emin + 1) (Z.pos m - 2 ^ mw))
        as (Hr & Hs & He & Hm); [lia..|].
      cbv zeta in Hr, Hs, He, Hm.
      rewrite Hs, He, Hm. split; [done|].
      rewrite (proj2 (Z.eqb_neq _ 0)) by lia.
      rewrite (proj2 (Z.eqb_neq _ (2 ^ ew - 1))) by lia.
      replace (Z.pos m - 2 ^ mw + 2 ^ mw) with (Z.pos m) by lia.
      f_equal. lia.
Qed.

End FloatBits.

Lemma mod_twos_complement (M n : Z) :
  (0 < M)%Z -> (- M <= n < M)%Z ->
  (n mod M)%Z = if (n <? 0)%Z then (n + M)%Z else n.
Proof.
  intros HM Hn. destruct (Z.ltb_spec n 0).
  - symmetry. apply (Z.mod_unique n M (-1) (n + M)); lia.
  - apply Z.mod_small. lia.
Qed.

Lemma scalar_round_trip k v bytes :
  encode_scalar k v = Some bytes ->
  List.length bytes = scalar_width k /\ decode_scalar k bytes = v.
Proof.
  destruct v as [b|n|f].
  - destruct k; try done. intros [= <-]. by destruct b.
  - destruct k; cbn [encode_scalar int_range]; try done;
      (destruct (_ && _)%Z eqn:Hrange; [|done]);
      apply andb_true_iff in Hrange as [Hlo%Z.leb_le Hhi%Z.ltb_lt];
      intros Heq; apply (inj Some) in Heq; subst bytes;
      (split; [apply le_bytes_length|]);
      unfold decode_scalar; cbn [int_range];
      rewrite le_value_bytes by (apply Z.mod_pos_bound; done);
      cbn [scalar_width]; f_equal;
      match goal with
      | |- context [(256 ^ Z.of_nat ?w)%Z] =>
          let c := eval vm_compute in (256 ^ Z.of_nat w)%Z in
          change (256 ^ Z.of_nat w)%Z with c
      end;
      rewrite (mod_twos_complement _ n) by lia;
      destruct (Z.ltb_spec n 0);
      match goal with
      | |- context [(?a <? ?b)%Z] => destruct (Z.ltb_spec a b)
      end; lia.
  - destruct k; cbn [encode_scalar]; try done.
    + destruct (float_valid 23 8 f) eqn:Hvalid; [|done].
      intros Heq; apply (inj Some) in Heq; subst bytes.
      split; [apply le_bytes_length|].
      destruct (float_bits_round_trip 23 8 f) as [Hr Hf]; [lia..|done|].
      unfold decode_scalar. rewrite le_value_bytes; [by rewrite Hf|].
      change (256 ^ Z.of_nat 4)%Z with (2 ^ (23 + 8 + 1))%Z. exact Hr.
    + destruct (float_valid 52 11 f) eqn:Hvalid; [|done].
      intros Heq; apply (inj Some) in Heq; subst bytes.
      split; [apply le_bytes_length|].
      destruct (float_bits_round_trip 52 11 f) as [Hr Hf]; [lia..|done|].
      unfold decode_scalar. rewrite le_value_bytes; [by rewrite Hf|].
      change (256 ^ Z.of_nat 8)%Z with (2 ^ (52 + 11 + 1))%Z. exact Hr.
Qed.

Lemma read_uint_bytes w n rest :
  (Z.of_nat n < 256 ^ Z.of_nat w)%Z ->
  read_uint w (le_bytes w (Z.of_nat n) ++ rest) = Some n.
Proof.
  intros Hn. unfold read_uint.
  rewrite decide_True by (rewrite length_app, le_bytes_length; lia).
  rewrite take_app_length' by (symmetry; apply le_bytes_length).
  rewrite le_value_bytes by lia. by rewrite Nat2Z.id.
Qed.

Lemma read_u32 n rest :
  (Z.of_nat n < 2 ^ 32)%Z -> read_uint 4 (u32 n ++ rest) = Some n.
Proof. intros Hn. apply read_uint_bytes. exact Hn. Qed.

Lemma read_u16 n rest :
  (Z.of_nat n < 2 ^ 16)%Z -> read_uint 2 (u16 n ++ rest) = Some n.
Proof. intros Hn. apply read_uint_bytes. exact Hn. Qed.

(** ** Offsets are stable

    An offset measures from the end of the buffer: what is written in front
    later leaves every object where it was. *)

Lemma object_at_whole buffer :
  object_at buffer (List.length buffer) = Some buffer.
Proof.
  unfold object_at. rewrite decide_True by lia.
  by rewrite Nat.sub_diag.
Qed.

Lemma object_at_extend front buffer offset object :
  object_at buffer offset = Some object ->
  object_at (front ++ buffer) offset = Some object.
Proof.
  unfold object_at. intros H.
  destruct (decide (offset <= List.length buffer)) as [Hle|]; [|done].
  rewrite decide_True by (rewrite length_app; lia).
  rewrite length_app.
  replace (List.length front + List.length buffer - offset)
    with (List.length front + (List.length buffer - offset)) by lia.
  by rewrite drop_app_add.
Qed.

Lemma object_at_inside buffer offset object :
  object_at buffer offset = Some object -> offset <= List.length buffer.
Proof. unfold object_at. by destruct (decide _). Qed.

Lemma string_bytes_extend front buffer ref bytes :
  string_bytes buffer ref = Some bytes ->
  string_bytes (front ++ buffer) ref = Some bytes.
Proof.
  unfold string_bytes. intros H.
  destruct (object_at buffer ref) as [object|] eqn:Ho; [|done].
  by rewrite (object_at_extend _ _ _ _ Ho).
Qed.

Lemma vector_length_extend front buffer ref n :
  vector_length buffer ref = Some n ->
  vector_length (front ++ buffer) ref = Some n.
Proof.
  unfold vector_length. intros H.
  destruct (object_at buffer ref) as [object|] eqn:Ho; [|done].
  by rewrite (object_at_extend _ _ _ _ Ho).
Qed.

Lemma vector_get_extend front buffer ref size index region :
  vector_get buffer ref size index = Some region ->
  vector_get (front ++ buffer) ref size index = Some region.
Proof.
  unfold vector_get. intros H.
  destruct (object_at buffer ref) as [object|] eqn:Ho; [|done].
  by rewrite (object_at_extend _ _ _ _ Ho).
Qed.

Lemma field_extend front buffer ref id f :
  field buffer ref id = Some f ->
  field (front ++ buffer) ref id = Some f.
Proof.
  unfold field. intros H.
  destruct (object_at buffer ref) as [object|] eqn:Ho; [|done].
  rewrite (object_at_extend _ _ _ _ Ho). simpl in *.
  destruct (read_uint 4 object) as [vt_ref|]; [|done]. simpl in *.
  destruct (object_at buffer vt_ref) as [vt|] eqn:Hvt; [|done].
  by rewrite (object_at_extend _ _ _ _ Hvt).
Qed.

(** Induction on a type and on a tree, through the lists. *)
Lemma Shape_induction (P : Shape -> Prop) :
  (forall width default, P (SScalar width default)) ->
  P SString ->
  (forall element, P element -> P (SVector element)) ->
  (forall shapes, Forall P shapes -> P (STable shapes)) ->
  forall shape, P shape.
Proof.
  intros Hscalar Hstring Hvector Htable.
  fix IH 1. intros [width default| |element|shapes].
  - apply Hscalar.
  - apply Hstring.
  - apply Hvector, IH.
  - apply Htable. induction shapes as [|shape shapes IHs]; constructor.
    + apply IH.
    + apply IHs.
Qed.

Lemma Tree_induction (P : Tree -> Prop) :
  (forall v, P (Scalar v)) ->
  (forall bytes, P (Str bytes)) ->
  (forall elements, Forall P elements -> P (Vec elements)) ->
  (forall fields,
     Forall (fun f => match f with Some t => P t | None => True end) fields ->
     P (Table fields)) ->
  forall t, P t.
Proof.
  intros Hscalar Hstring Hvector Htable.
  fix IH 1. intros [v|bytes|elements|fields].
  - apply Hscalar.
  - apply Hstring.
  - apply Hvector. induction elements as [|t elements IHs]; constructor.
    + apply IH.
    + apply IHs.
  - apply Htable. induction fields as [|f fields IHs]; constructor.
    + destruct f as [t|]; [apply IH|exact I].
    + apply IHs.
Qed.

Lemma read_fields_extend read_one read_one' buffer buffer' ref shapes :
  (forall id f, field buffer ref id = Some f ->
                field buffer' ref id = Some f) ->
  Forall (fun shape => forall region t,
            read_one shape region = Some t ->
            read_one' shape region = Some t) shapes ->
  forall id fields,
  read_fields read_one buffer ref shapes id = Some fields ->
  read_fields read_one' buffer' ref shapes id = Some fields.
Proof.
  intros Hfield Hall. induction Hall as [|shape shapes Hone _ IH];
    intros id fields; simpl; [done|].
  destruct (field buffer ref id) as [f|] eqn:Hf; [|done].
  rewrite (Hfield _ _ Hf). simpl.
  destruct f as [region|]; simpl.
  - destruct (read_one shape region) as [t|] eqn:Ht; [|done].
    rewrite (Hone _ _ Ht). simpl.
    destruct (read_fields read_one buffer ref shapes (S id)) eqn:Hr; [|done].
    by rewrite (IH _ _ Hr).
  - destruct (read_fields read_one buffer ref shapes (S id)) eqn:Hr; [|done].
    by rewrite (IH _ _ Hr).
Qed.

Lemma mapM_extend {A B} (f g : A -> option B) l k :
  (forall x y, f x = Some y -> g x = Some y) ->
  mapM f l = Some k -> mapM g l = Some k.
Proof.
  intros Hfg. rewrite !mapM_Some. intros H.
  induction H; constructor; auto.
Qed.

(** What the reader finds in a buffer, it finds after more was written in
    front of it. *)
Lemma read_tree_extend shape : forall front buffer region t,
  read_tree shape buffer region = Some t ->
  read_tree shape (front ++ buffer) region = Some t.
Proof.
  induction shape as [width default| |element IH|shapes IH]
    using Shape_induction; intros front buffer region t; simpl.
  - done.
  - destruct (read_uint 4 region) as [ref|]; [simpl|done].
    destruct (string_bytes buffer ref) eqn:Hs; [|done].
    by rewrite (string_bytes_extend _ _ _ _ Hs).
  - destruct (read_uint 4 region) as [ref|]; [simpl|done].
    destruct (vector_length buffer ref) as [n|] eqn:Hn; [|done].
    rewrite (vector_length_extend _ _ _ _ Hn). simpl.
    destruct (mapM _ (seq 0 n)) as [ts|] eqn:Hts; [|done].
    intros Ht. erewrite mapM_extend; [exact Ht| |exact Hts].
    intros index y. simpl.
    destruct (vector_get buffer ref _ index) as [e|] eqn:He; [|done].
    rewrite (vector_get_extend _ _ _ _ _ _ He). simpl. apply IH.
  - destruct (read_uint 4 region) as [ref|]; [simpl|done].
    destruct (read_fields _ buffer ref shapes 0) as [fs|] eqn:Hfs; [|done].
    intros Ht. erewrite read_fields_extend; [exact Ht| | |exact Hfs].
    + intros id f. apply field_extend.
    + eapply Forall_impl; [exact IH|]. simpl. intros shape Hs region' t'.
      apply Hs.
Qed.

(** ** The builder operations *)

#[local] Arguments le_bytes : simpl never.
#[local] Arguments u32 : simpl never.
#[local] Arguments u16 : simpl never.
#[local] Arguments vtable_bytes : simpl never.

Lemma Some_pair {A B} (a a' : A) (b b' : B) :
  Some (a, b) = Some (a', b') -> a = a' /\ b = b'.
Proof. by intros [= -> ->]. Qed.

Lemma push_buf bytes b b' :
  push bytes b = Some b' ->
  buf b' = bytes ++ buf b /\ vtables b' = vtables b /\ pending b' = pending b.
Proof.
  unfold push. destruct (finished b); [done|].
  destruct (addressable _); [|done]. by intros [= <-].
Qed.

Lemma push_all_buf elements : forall b b',
  foldr (fun element acc => acc ≫= push element) (Some b) elements = Some b' ->
  buf b' = List.concat elements ++ buf b /\ vtables b' = vtables b.
Proof.
  induction elements as [|e elements IH]; intros b b'; simpl.
  - by intros [= <-].
  - destruct (foldr _ (Some b) elements) as [b1|] eqn:H1; [simpl|done].
    intros (Hb & Hv & _)%push_buf. destruct (IH _ _ H1) as [Hb1 Hv1].
    rewrite Hb, Hb1, Hv, Hv1. by rewrite app_assoc.
Qed.

Lemma create_string_buf bytes b b' ref :
  create_string bytes b = Some (b', ref) ->
  buf b' = u32 (List.length bytes) ++ bytes ++ buf b /\
  vtables b' = vtables b /\ ref = List.length (buf b').
Proof.
  unfold create_string.
  destruct (push bytes b) as [b1|] eqn:H1; [simpl|done].
  destruct (push _ b1) as [b2|] eqn:H2; [simpl|done].
  intros [= <- <-].
  apply push_buf in H1 as (Hb1 & Hv1 & _).
  apply push_buf in H2 as (Hb2 & Hv2 & _).
  by rewrite Hb2, Hb1, Hv2, Hv1.
Qed.

Lemma create_vector_buf elements b b' ref :
  create_vector elements b = Some (b', ref) ->
  buf b' = u32 (List.length elements) ++ List.concat elements ++ buf b /\
  vtables b' = vtables b /\ ref = List.length (buf b').
Proof.
  unfold create_vector.
  destruct (foldr _ (Some b) elements) as [b1|] eqn:H1; [simpl|done].
  destruct (push _ b1) as [b2|] eqn:H2; [simpl|done].
  intros [= <- <-].
  apply push_all_buf in H1 as (Hb1 & Hv1).
  apply push_buf in H2 as (Hb2 & Hv2 & _).
  by rewrite Hb2, Hb1, Hv2, Hv1.
Qed.

Lemma start_table_buf b b' :
  start_table b = Some b' ->
  buf b' = buf b /\ vtables b' = vtables b /\ pending b' = Some [].
Proof.
  unfold start_table. destruct (finished b); [done|].
  destruct (pending b); [done|]. by intros [= <-].
Qed.

Lemma add_field_buf id value b b' :
  add_field id value b = Some b' ->
  exists fields, pending b = Some fields /\
  buf b' = buf b /\ vtables b' = vtables b /\
  pending b' = Some (fields ++ [(id, value)]).
Proof.
  unfold add_field. destruct (finished b); [done|].
  destruct (pending b) as [fields|]; [|done].
  destruct (forallb _ fields); [|done]. intros [= <-]. by exists fields.
Qed.

Lemma add_fields_buf added : forall b b' fields,
  add_fields added b = Some b' ->
  pending b = Some fields ->
  buf b' = buf b /\ vtables b' = vtables b /\
  pending b' = Some (fields ++ added).
Proof.
  induction added as [|[id value] added IH]; intros b b' fields; simpl.
  - intros [= <-] ->. by rewrite app_nil_r.
  - destruct (add_field id value b) as [b1|] eqn:H1; [simpl|done].
    intros Hrest Hp.
    apply add_field_buf in H1 as (fields' & Hp' & Hb1 & Hv1 & Hp1).
    rewrite Hp in Hp'. injection Hp' as <-.
    destruct (IH _ _ _ Hrest Hp1) as (Hb & Hv & Hp2).
    rewrite Hb, Hv, Hp2, Hb1, Hv1. by rewrite <- app_assoc.
Qed.

(** The vtables of the cache are in the buffer, each at its offset. *)
Definition cache_ok (b : Builder) : Prop :=
  Forall (fun entry => exists rest,
            object_at (buf b) entry.2 = Some (entry.1 ++ rest))
         (vtables b).

Lemma cache_ok_extend b b' front :
  buf b' = front ++ buf b -> vtables b' = vtables b ->
  cache_ok b -> cache_ok b'.
Proof.
  unfold cache_ok. intros -> -> Hok. eapply Forall_impl; [exact Hok|].
  intros entry [rest H]. exists rest. by apply object_at_extend.
Qed.

Lemma find_vtable_ok vt cache offset :
  find_vtable vt cache = Some offset -> (vt, offset) ∈ cache.
Proof.
  induction cache as [|[vt' offset'] cache IH]; simpl; [done|].
  destruct (decide (vt' = vt)) as [->|].
  - intros [= ->]. left.
  - intros H. right. auto.
Qed.

Lemma end_table_buf b b' ref :
  end_table b = Some (b', ref) ->
  cache_ok b ->
  exists fields vt_ref front rest,
    pending b = Some fields /\
    table_fits fields = true /\
    buf b' = u32 vt_ref ++ List.concat (map snd fields) ++ front ++ buf b /\
    object_at (front ++ buf b) vt_ref = Some (vtable_bytes fields ++ rest) /\
    ref = List.length (buf b') /\
    cache_ok b'.
Proof.
  unfold end_table. destruct (finished b); [done|].
  destruct (pending b) as [fields|]; [|done].
  destruct (table_fits fields) eqn:Hfits; [|done].
  intros H Hok. exists fields.
  destruct (find_vtable (vtable_bytes fields) (vtables b)) as [offset|] eqn:Hf.
  - cbv beta iota zeta in H.
    destruct (addressable _) in H; [|done].
    apply Some_pair in H as [<- <-].
    apply find_vtable_ok in Hf.
    pose proof Hok as Hok'.
    unfold cache_ok in Hok'. rewrite Forall_forall in Hok'.
    destruct (Hok' _ Hf) as [rest Hrest]. simpl in Hrest.
    exists offset, [], rest. split_and!; try done.
    eapply (cache_ok_extend b _ (u32 offset ++ List.concat (map snd fields)));
      [cbn [buf]; by rewrite <- app_assoc|done|done].
  - cbv beta iota zeta in H.
    destruct (addressable _) in H; [|done].
    apply Some_pair in H as [<- <-].
    exists (List.length (vtable_bytes fields ++ buf b)),
      (vtable_bytes fields), (buf b).
    split_and!; try done.
    + apply object_at_whole.
    + unfold cache_ok. cbn [buf vtables]. rewrite Forall_app. split.
      * eapply Forall_impl; [exact Hok|]. intros entry [rest Hrest].
        exists rest. rewrite !app_assoc. by apply object_at_extend.
      * constructor; [|constructor]. cbn [fst snd]. exists (buf b).
        rewrite app_assoc.
        apply object_at_extend, object_at_whole.
Qed.

(** ** Regions of equal chunks *)

Lemma drop_concat_uniform size (chunks : list (list Z)) :
  forall j chunk rest,
  Forall (fun c => List.length c = size) chunks ->
  chunks !! j = Some chunk ->
  exists more, drop (j * size) (List.concat chunks ++ rest) = chunk ++ more.
Proof.
  induction chunks as [|c chunks IH]; intros j chunk rest Hall Hj; [done|].
  apply Forall_cons in Hall as [Hc Hall].
  destruct j as [|j]; cbn [List.concat lookup list_lookup] in *.
  - injection Hj as ->. eexists. cbn [Nat.mul drop]. by rewrite <- app_assoc.
  - destruct (IH j chunk rest Hall Hj) as [more Hmore]. exists more.
    rewrite <- app_assoc. cbn [Nat.mul]. rewrite <- Hc at 1.
    by rewrite drop_app_add.
Qed.

Lemma length_concat_uniform size (chunks : list (list Z)) :
  Forall (fun c => List.length c = size) chunks ->
  List.length (List.concat chunks) = List.length chunks * size.
Proof.
  induction 1 as [|c chunks Hc _ IH]; [done|].
  cbn [List.concat List.length Nat.mul]. rewrite length_app. lia.
Qed.

Lemma u32_length n : List.length (u32 n) = 4.
Proof. apply le_bytes_length. Qed.

Lemma u16_length n : List.length (u16 n) = 2.
Proof. apply le_bytes_length. Qed.

Lemma drop_u32 n k rest : drop (4 + k) (u32 n ++ rest) = drop k rest.
Proof. rewrite <- (u32_length n) at 1. apply drop_app_add. Qed.

Lemma drop_u16 n k rest : drop (2 + k) (u16 n ++ rest) = drop k rest.
Proof. rewrite <- (u16_length n) at 1. apply drop_app_add. Qed.

Lemma inline_size_pos shape : 0 < inline_size shape.
Proof. destruct shape as [[] ?| | |]; simpl; lia. Qed.

(** ** Reading what was written *)

(** A value as it is stored in line, and what the reader makes of it. *)
Definition stored (shape : Shape) (buffer : list Z) (t : Tree)
    (value : list Z) : Prop :=
  List.length value = inline_size shape /\
  forall rest,
    read_tree shape buffer (value ++ rest) = Some (with_defaults shape t).

Lemma stored_extend shape front buffer t value :
  stored shape buffer t value -> stored shape (front ++ buffer) t value.
Proof.
  intros [Hlen Hread]. split; [done|].
  intros rest. apply read_tree_extend, Hread.
Qed.

Lemma read_scalar kind default buffer v value :
  encode_scalar kind v = Some value ->
  stored (SScalar kind default) buffer (Scalar v) value.
Proof.
  intros Hv. destruct (scalar_round_trip _ _ _ Hv) as [Hlen Hdecode].
  split; [done|].
  intros rest. cbn [read_tree with_defaults].
  rewrite decide_True by (rewrite length_app; lia).
  rewrite take_app_length' by done.
  by rewrite Hdecode.
Qed.

Lemma read_string bytes tail :
  let buffer := u32 (List.length bytes) ++ bytes ++ tail in
  (Z.of_nat (List.length buffer) < 2 ^ 32)%Z ->
  stored SString buffer (Str bytes) (u32 (List.length buffer)).
Proof.
  intros buffer Hlen. split; [apply u32_length|].
  intros rest. cbn [read_tree with_defaults].
  rewrite read_u32 by done. cbn [mbind option_bind].
  unfold string_bytes. rewrite object_at_whole. cbn [mbind option_bind].
  assert (List.length buffer = 4 + List.length bytes + List.length tail)
    as Hb by (unfold buffer; rewrite !length_app, u32_length; lia).
  assert (read_uint 4 buffer = Some (List.length bytes)) as ->
    by (apply read_u32; lia).
  cbn [mbind option_bind].
  rewrite decide_True by lia. cbn [fmap option_fmap option_map].
  assert (drop 4 buffer = bytes ++ tail) as ->
    by (unfold buffer; by rewrite <- (Nat.add_0_r 4), drop_u32).
  by rewrite take_app_length.
Qed.

Lemma stored_lengths shape buffer trees values :
  Forall2 (stored shape buffer) trees values ->
  Forall (fun c => List.length c = inline_size shape) values.
Proof. induction 1 as [|t v ts vs [Hv _] _ IH]; constructor; auto. Qed.

Lemma read_vector element trees values tail :
  let buffer := u32 (List.length values) ++ List.concat values ++ tail in
  (Z.of_nat (List.length buffer) < 2 ^ 32)%Z ->
  (values <> [] -> 0 < inline_size element) ->
  Forall2 (stored element buffer) trees values ->
  stored (SVector element) buffer (Vec trees) (u32 (List.length buffer)).
Proof.
  intros buffer Hlen Hsize Hall. split; [apply u32_length|].
  intros rest. cbn [read_tree with_defaults].
  rewrite read_u32 by done. cbn [mbind option_bind].
  pose proof (stored_lengths _ _ _ _ Hall) as Huniform.
  assert (List.length buffer =
          4 + List.length values * inline_size element + List.length tail)
    as Hb.
  { unfold buffer. rewrite !length_app, u32_length.
    rewrite (length_concat_uniform _ _ Huniform). lia. }
  assert (List.length values <= List.length values * inline_size element)
    as Hcount.
  { destruct values as [|v values]; [simpl; lia|].
    specialize (Hsize ltac:(done)). nia. }
  assert (read_uint 4 buffer = Some (List.length values)) as Hcount4
    by (apply read_u32; lia).
  unfold vector_length. rewrite object_at_whole. cbn [mbind option_bind].
  rewrite Hcount4. cbn [mbind option_bind].
  assert (mapM (fun index =>
                  vector_get buffer (List.length buffer)
                    (inline_size element) index ≫= read_tree element buffer)
               (seq 0 (List.length values))
          = Some (map (with_defaults element) trees)) as ->; [|done].
  apply mapM_Some, Forall2_same_length_lookup. split.
  { rewrite length_seq, length_map. symmetry. by eapply Forall2_length. }
  intros i index t' Hindex Ht'.
  apply lookup_seq in Hindex as [-> Hi]. cbn [Nat.add] in *.
  rewrite list_lookup_fmap in Ht'.
  destruct (trees !! i) as [t|] eqn:Ht; [|done].
  injection Ht' as <-.
  destruct (Forall2_lookup_l _ _ _ _ _ Hall Ht) as (v & Hv & Hlenv & Hread).
  unfold vector_get. rewrite object_at_whole. cbn [mbind option_bind].
  rewrite Hcount4. cbn [mbind option_bind].
  rewrite decide_True by done.
  rewrite decide_True by nia.
  destruct (drop_concat_uniform _ _ _ _ tail Huniform Hv) as [more Hmore].
  assert (drop (4 + i * inline_size element) buffer = v ++ more) as ->
    by (unfold buffer; by rewrite drop_u32).
  rewrite take_app_length' by done. cbn [mbind option_bind].
  specialize (Hread []). by rewrite app_nil_r in Hread.
Qed.

(** ** Tables *)

(** The fields added to a table, from the values of its fields by id. *)
Fixpoint present (id : nat) (slots : list (option (list Z)))
  : list (nat * list Z) :=
  match slots with
  | [] => []
  | None :: slots => present (S id) slots
  | Some value :: slots => (id, value) :: present (S id) slots
  end.

Lemma present_ids slots : forall id,
  Forall (fun f => id <= f.1) (present id slots).
Proof.
  induction slots as [|[value|] slots IH]; intros id; cbn [present].
  - constructor.
  - constructor; [simpl; lia|].
    eapply Forall_impl; [apply IH|]. simpl. lia.
  - eapply Forall_impl; [apply IH|]. simpl. lia.
Qed.

Lemma vtable_entries_skip fields id position :
  Forall (fun f => S id <= f.1) fields ->
  vtable_entries fields id position =
    match fields with
    | [] => []
    | _ => 0 :: vtable_entries fields (S id) position
    end.
Proof.
  destruct 1 as [|[id' value] fields Hid _]; [done|].
  cbn [vtable_entries]. simpl in Hid.
  replace (id' - id) with (S (id' - S id)) by lia. done.
Qed.

Lemma vtable_entries_bound fields : forall id position,
  Forall (fun e => e <= position + List.length (List.concat (map snd fields)))
         (vtable_entries fields id position).
Proof.
  induction fields as [|[id' value] fields IH]; intros id position;
    cbn [vtable_entries map List.concat snd]; [constructor|].
  rewrite length_app. apply Forall_app. split.
  - apply Forall_replicate. lia.
  - constructor; [lia|].
    eapply Forall_impl; [apply IH|]. simpl. lia.
Qed.

(** Where the vtable sends the reader for each field id. *)
Lemma vtable_entries_present slots : forall id position j,
  let fields := present id slots in
  let entries := vtable_entries fields id position in
  let data := List.concat (map snd fields) in
  match slots !! j with
  | Some (Some value) =>
      exists p more,
        entries !! j = Some p /\ position <= p /\
        p <= position + List.length data /\
        drop (p - position) data = value ++ more
  | _ => entries !! j = None \/ entries !! j = Some 0
  end.
Proof.
  induction slots as [|[value|] slots IH]; intros id position j;
    cbn zeta; cbn [present].
  - rewrite lookup_nil. by left.
  - cbn [vtable_entries map List.concat snd]. rewrite Nat.sub_diag.
    cbn [replicate app]. destruct j as [|j]; cbn [lookup list_lookup].
    + exists position, (List.concat (map snd (present (S id) slots))).
      split_and!; [done|lia|lia|]. by rewrite Nat.sub_diag.
    + specialize (IH (S id) (position + List.length value) j).
      cbn zeta in IH.
      change ((Some value :: slots) !! S j) with (slots !! j).
      change ((position :: ?l) !! S j) with (l !! j).
      destruct (slots !! j) as [[value'|]|]; [|done|done].
      destruct IH as (p & more & Hp & Hle & Hin & Hdrop).
      exists p, more. split_and!; [done|lia|rewrite length_app; lia|].
      replace (p - position)
        with (List.length value + (p - (position + List.length value)))
        by lia.
      by rewrite drop_app_add.
  - rewrite vtable_entries_skip by apply present_ids.
    specialize (IH (S id) position).
    destruct j as [|j].
    + cbn [lookup list_lookup].
      destruct (present (S id) slots); [by left|by right].
    + change ((None :: slots) !! S j) with (slots !! j).
      specialize (IH j). cbn zeta in IH.
      destruct (present (S id) slots) eqn:Hp.
      * cbn [vtable_entries] in *. rewrite lookup_nil in *.
        destruct (slots !! j) as [[value'|]|]; [|by left|by left].
        by destruct IH as (p & more & [=] & _).
      * exact IH.
Qed.

(** The reader's field, at a table written over [tail], where the vtable
    of the fields is. *)
Lemma field_of_table fields vt_ref tail rest id :
  let entries := vtable_entries fields 0 4 in
  let data := List.concat (map snd fields) in
  let buffer := u32 vt_ref ++ data ++ tail in
  object_at tail vt_ref = Some (vtable_bytes fields ++ rest) ->
  (Z.of_nat (List.length buffer) < 2 ^ 32)%Z ->
  (Z.of_nat (List.length entries) < 2 ^ 16)%Z ->
  (Z.of_nat (4 + List.length data) < 2 ^ 16)%Z ->
  field buffer (List.length buffer) id =
    Some (match entries !! id with
          | Some (S p) => Some (drop (S p) buffer)
          | _ => None
          end).
Proof.
  intros entries data buffer Hvt Hlen Hcount Hdata.
  assert (List.length buffer = 4 + List.length data + List.length tail)
    as Hb by (unfold buffer; rewrite !length_app, u32_length; lia).
  pose proof (object_at_inside _ _ _ Hvt) as Hinside.
  unfold field. rewrite object_at_whole. cbn [mbind option_bind].
  assert (read_uint 4 buffer = Some vt_ref) as ->
    by (apply read_u32; lia).
  cbn [mbind option_bind].
  assert (object_at buffer vt_ref = Some (vtable_bytes fields ++ rest)) as ->.
  { unfold buffer. rewrite (app_assoc (u32 vt_ref)).
    by apply object_at_extend. }
  cbn [mbind option_bind].
  unfold vtable_bytes. fold entries. rewrite <- !app_assoc.
  rewrite read_u16 by done. cbn [mbind option_bind].
  destruct (decide (id < List.length entries)) as [Hid|Hid].
  - destruct (lookup_lt_is_Some_2 entries id Hid) as [p Hp].
    rewrite Hp. rewrite drop_u16.
    assert (Forall (fun c => List.length c = 2) (map u16 entries)) as Huniform.
    { apply Forall_fmap, Forall_true. intros e. apply u16_length. }
    assert (map u16 entries !! id = Some (u16 p)) as Hchunk
      by (by rewrite list_lookup_fmap, Hp).
    destruct (drop_concat_uniform _ _ _ _ rest Huniform Hchunk)
      as [more Hmore].
    rewrite (Nat.mul_comm 2 id), Hmore.
    pose proof (vtable_entries_bound fields 0 4) as Hbound.
    rewrite Forall_forall in Hbound.
    assert (p <= 4 + List.length data) as Hpb.
    { apply (Hbound p). rewrite list_elem_of_lookup. by exists id. }
    rewrite read_u16 by lia. cbn [mbind option_bind].
    destruct p as [|p]; [done|].
    rewrite decide_False by lia. by rewrite decide_True by lia.
  - rewrite lookup_ge_None_2 by lia. done.
Qed.

(** What the reader makes of a field of a table: the tree written for it,
    or the default of an absent field. *)
Definition stored_field (buffer : list Z) (shape : Shape)
    (f : option Tree) (slot : option (list Z)) : Prop :=
  match f, slot with
  | Some t, Some value => stored shape buffer t value
  | None, None => True
  | _, _ => False
  end.

Lemma read_fields_stored buffer ref shapes fields slots :
  Forall3 (stored_field buffer) shapes fields slots ->
  forall id,
  (forall j,
     match slots !! j with
     | Some (Some value) =>
         exists more, field buffer ref (id + j) = Some (Some (value ++ more))
     | _ => field buffer ref (id + j) = Some None
     end) ->
  read_fields (fun shape => read_tree shape buffer) buffer ref shapes id =
    Some (fields_with_defaults with_defaults shapes fields).
Proof.
  induction 1 as [|shape f slot shapes fields slots Hone _ IH];
    intros id Hfield; [done|].
  cbn [read_fields].
  pose proof (Hfield 0) as Hhead. rewrite Nat.add_0_r in Hhead.
  cbn [lookup list_lookup] in Hhead.
  rewrite (IH (S id)); cycle 1.
  { intros j. specialize (Hfield (S j)).
    by rewrite Nat.add_succ_r in Hfield. }
  destruct f as [t|], slot as [value|]; try done.
  - destruct Hhead as [more ->]. cbn [mbind option_bind].
    destruct Hone as [_ Hread]. rewrite Hread. done.
  - rewrite Hhead. done.
Qed.

(** A table, read where it was written. *)
Lemma read_table shapes fields slots vt_ref tail rest :
  let added := present 0 slots in
  let buffer := u32 vt_ref ++ List.concat (map snd added) ++ tail in
  object_at tail vt_ref = Some (vtable_bytes added ++ rest) ->
  (Z.of_nat (List.length buffer) < 2 ^ 32)%Z ->
  table_fits added = true ->
  Forall3 (stored_field buffer) shapes fields slots ->
  stored (STable shapes) buffer (Table fields) (u32 (List.length buffer)).
Proof.
  intros added buffer Hvt Hlen Hfits Hall.
  apply andb_true_iff in Hfits as [Hcount%Z.ltb_lt Hsize%Z.ltb_lt].
  split; [apply u32_length|].
  intros rest'. cbn [read_tree with_defaults].
  rewrite read_u32 by done. cbn [mbind option_bind].
  rewrite (read_fields_stored _ _ _ _ _ Hall); [done|].
  intros j. cbn [Nat.add].
  unfold buffer.
  rewrite (field_of_table added vt_ref tail rest j Hvt); [|done|done|done].
  pose proof (vtable_entries_present slots 0 4 j) as Hj. cbn zeta in Hj.
  fold added in Hj.
  destruct (slots !! j) as [[value|]|].
  - destruct Hj as (p & more & -> & Hp & Hin & Hdrop).
    destruct p as [|p]; [lia|].
    exists (more ++ tail). f_equal. f_equal.
    replace (S p) with (4 + (S p - 4)) by lia.
    rewrite drop_u32, drop_app_le by lia.
    by rewrite Hdrop, <- app_assoc.
  - by destruct Hj as [-> | ->].
  - by destruct Hj as [-> | ->].
Qed.

(** ** Writing a tree *)

Lemma end_table_grows b b' ref :
  end_table b = Some (b', ref) -> exists front, buf b' = front ++ buf b.
Proof.
  unfold end_table. destruct (finished b); [done|].
  destruct (pending b) as [fields|]; [|done].
  destruct (table_fits fields); [|done].
  destruct (find_vtable (vtable_bytes fields) (vtables b));
    cbv beta iota zeta; (destruct (addressable _); [|done]);
    intros [<- _]%Some_pair; cbn [buf].
  - exists (u32 n ++ List.concat (map snd fields)). by rewrite <- app_assoc.
  - eexists (u32 _ ++ List.concat (map snd fields) ++ vtable_bytes fields).
    by rewrite <- !app_assoc.
Qed.

Definition in_range (b : Builder) : Prop :=
  (Z.of_nat (List.length (buf b)) < 2 ^ 32)%Z.

Lemma in_range_before b b' front :
  buf b' = front ++ buf b -> in_range b' -> in_range b.
Proof. unfold in_range. intros ->. rewrite length_app. lia. Qed.

(** What writing a tree does: the buffer grows at its front, and, while
    offsets fit in 4 bytes, the reader finds the tree at the value that was
    answered. *)
Definition write_correct (t : Tree) : Prop :=
  forall shape b b' slot,
    write shape t b = Some (b', slot) ->
    (exists front, buf b' = front ++ buf b) /\
    (in_range b' -> cache_ok b ->
     cache_ok b' /\ stored shape (buf b') t (slot_bytes slot)).

Lemma write_elements_ok element elements :
  Forall write_correct elements ->
  forall b b' values,
    write_elements (write element) elements b = Some (b', values) ->
    (exists front, buf b' = front ++ buf b) /\
    (in_range b' -> cache_ok b ->
     cache_ok b' /\ Forall2 (stored element (buf b')) elements values).
Proof.
  induction 1 as [|t ts Ht _ IH]; intros b b' values;
    cbn [write_elements].
  - intros [<- <-]%Some_pair. split; [by exists []|].
    intros _ Hok. split; [done|constructor].
  - destruct (write element t b) as [[b1 slot]|] eqn:H1; [|done].
    cbn [mbind option_bind fst snd].
    destruct (write_elements (write element) ts b1) as [[b2 vs]|] eqn:H2;
      [|done].
    cbn [mbind option_bind fst snd]. intros [<- <-]%Some_pair.
    destruct (Ht _ _ _ _ H1) as [[front1 Hb1] Hcond1].
    destruct (IH _ _ _ H2) as [[front2 Hb2] Hcond2].
    split; [exists (front2 ++ front1); by rewrite Hb2, Hb1, app_assoc|].
    intros Hrange Hok.
    destruct (Hcond1 (in_range_before _ _ _ Hb2 Hrange) Hok)
      as [Hok1 Hstored1].
    destruct (Hcond2 Hrange Hok1) as [Hok2 Hstored2].
    split; [done|]. constructor; [|done].
    rewrite Hb2. by apply stored_extend.
Qed.

Lemma stored_field_extend front buffer shape f slot :
  stored_field buffer shape f slot ->
  stored_field (front ++ buffer) shape f slot.
Proof.
  destruct f, slot; try done. apply stored_extend.
Qed.

Lemma write_fields_ok fields :
  Forall (fun f => match f with
                   | Some t => write_correct t
                   | None => True
                   end) fields ->
  forall shapes id b b' added,
    write_fields write shapes fields id b = Some (b', added) ->
    (exists front, buf b' = front ++ buf b) /\
    (in_range b' -> cache_ok b ->
     cache_ok b' /\
     exists slots, added = present id slots /\
                   Forall3 (stored_field (buf b')) shapes fields slots).
Proof.
  induction 1 as [|f fields Hf _ IH]; intros shapes id b b' added.
  - destruct shapes as [|shape shapes']; cbn [write_fields]; [|done].
    intros [<- <-]%Some_pair. split; [by exists []|].
    intros _ Hok. split; [done|]. exists []. split; [done|constructor].
  - destruct shapes as [|shape shapes']; cbn [write_fields];
      [by destruct f|].
    destruct f as [t|].
    + destruct (write shape t b) as [[b1 slot]|] eqn:H1; [|done].
      cbn [mbind option_bind fst snd].
      destruct (write_fields write shapes' fields (S id) b1)
        as [[b2 rest]|] eqn:H2; [|done].
      cbn [mbind option_bind fst snd]. intros [<- <-]%Some_pair.
      destruct (Hf _ _ _ _ H1) as [[front1 Hb1] Hcond1].
      destruct (IH _ _ _ _ _ H2) as [[front2 Hb2] Hcond2].
      split; [exists (front2 ++ front1); by rewrite Hb2, Hb1, app_assoc|].
      intros Hrange Hok.
      destruct (Hcond1 (in_range_before _ _ _ Hb2 Hrange) Hok)
        as [Hok1 Hstored1].
      destruct (Hcond2 Hrange Hok1) as (Hok2 & slots & -> & Hstored2).
      split; [done|]. exists (Some (slot_bytes slot) :: slots).
      split; [done|]. constructor; [|done].
      cbn [stored_field]. rewrite Hb2. by apply stored_extend.
    + intros H2.
      destruct (IH _ _ _ _ _ H2) as [Hgrow Hcond].
      split; [done|]. intros Hrange Hok.
      destruct (Hcond Hrange Hok) as (Hok2 & slots & -> & Hstored2).
      split; [done|]. exists (None :: slots).
      split; [done|]. by constructor.
Qed.

Lemma write_ok t : write_correct t.
Proof.
  induction t as [v|bytes|elements IH|fields IH] using Tree_induction;
    intros shape b b' slot Hwrite;
    destruct shape as [kind default| |element|shapes];
    cbn [write] in Hwrite; try done.
  - destruct (encode_scalar kind v) as [value|] eqn:Hvalue; [|done].
    cbn [mbind option_bind] in Hwrite.
    apply Some_pair in Hwrite as [<- <-]. split; [by exists []|].
    intros _ Hok. split; [done|]. by apply read_scalar.
  - destruct (create_string bytes b) as [[b1 ref]|] eqn:H1; [|done].
    cbn [mbind option_bind fst snd] in Hwrite.
    apply Some_pair in Hwrite as [<- <-].
    apply create_string_buf in H1 as (Hb & Hv & ->).
    split; [eexists (u32 _ ++ bytes); by rewrite Hb, <- app_assoc|].
    intros Hrange Hok. split.
    + eapply (cache_ok_extend b _ (u32 _ ++ bytes)); [|done..].
      by rewrite Hb, <- app_assoc.
    + unfold in_range in Hrange. cbn [slot_bytes]. rewrite Hb in *.
      by apply read_string.
  - destruct (write_elements _ elements b) as [[b1 values]|] eqn:H1; [|done].
    cbn [mbind option_bind fst snd] in Hwrite.
    destruct (create_vector values b1) as [[b2 ref]|] eqn:H2; [|done].
    cbn [mbind option_bind fst snd] in Hwrite.
    apply Some_pair in Hwrite as [<- <-].
    apply create_vector_buf in H2 as (Hb2 & Hv2 & ->).
    destruct (write_elements_ok _ _ IH _ _ _ H1)
      as [[front1 Hb1] Hcond1].
    split.
    { eexists (u32 _ ++ List.concat values ++ front1).
      by rewrite Hb2, Hb1, <- !app_assoc. }
    intros Hrange Hok.
    assert (buf b2 = (u32 (List.length values) ++ List.concat values)
                       ++ buf b1) as Hb2'
      by (by rewrite Hb2, <- app_assoc).
    destruct (Hcond1 (in_range_before _ _ _ Hb2' Hrange) Hok)
      as [Hok1 Hstored].
    split; [by eapply cache_ok_extend|].
    unfold in_range in Hrange. cbn [slot_bytes]. rewrite Hb2 in *.
    apply read_vector; [done| |].
    + intros _. apply inline_size_pos.
    + eapply Forall2_impl; [exact Hstored|]. intros t v.
      rewrite app_assoc. apply stored_extend.
  - destruct (write_fields write shapes fields 0 b) as [[b1 added]|] eqn:H1;
      [|done].
    cbn [mbind option_bind fst snd] in Hwrite.
    destruct (start_table b1) as [b2|] eqn:H2; [|done].
    cbn [mbind option_bind] in Hwrite.
    destruct (add_fields added b2) as [b3|] eqn:H3; [|done].
    cbn [mbind option_bind] in Hwrite.
    destruct (end_table b3) as [[b4 ref]|] eqn:H4; [|done].
    cbn [mbind option_bind fst snd] in Hwrite.
    apply Some_pair in Hwrite as [<- <-].
    destruct (write_fields_ok _ IH _ _ _ _ _ H1) as [[front1 Hb1] Hcond1].
    apply start_table_buf in H2 as (Hb2 & Hv2 & Hp2).
    destruct (add_fields_buf _ _ _ _ H3 Hp2) as (Hb3 & Hv3 & Hp3).
    cbn [app] in Hp3.
    assert (buf b3 = buf b1) as Hb31 by congruence.
    assert (vtables b3 = vtables b1) as Hv31 by congruence.
    destruct (end_table_grows _ _ _ H4) as [front4 Hb4].
    split; [exists (front4 ++ front1); by rewrite Hb4, Hb31, Hb1, app_assoc|].
    intros Hrange Hok.
    rewrite Hb31 in Hb4.
    destruct (Hcond1 (in_range_before _ _ _ Hb4 Hrange) Hok)
      as (Hok1 & slots & -> & Hstored).
    assert (cache_ok b3) as Hok3
      by (by eapply (cache_ok_extend b1 b3 [])).
    apply end_table_buf in H4
      as (fields' & vt_ref & front & rest & Hp & Hfits & Hbuf & Hvt & -> &
          Hok4);
      [|done].
    rewrite Hp3 in Hp. injection Hp as <-.
    split; [done|].
    unfold in_range in Hrange. cbn [slot_bytes]. rewrite Hbuf in *.
    eapply read_table; [exact Hvt|done|done|].
    eapply Forall3_impl; [exact Hstored|]. intros shape f slot.
    rewrite Hb31, !app_assoc. apply stored_field_extend.
Qed.

Lemma with_defaults_explicit t : forall shape,
  explicit shape t -> with_defaults shape t = t.
Proof.
  induction t as [v|bytes|elements IH|fields IH] using Tree_induction;
    intros shape Hexplicit;
    inversion Hexplicit as [| |element elements' Hall|shapes fields' Hall];
    subst; cbn [with_defaults]; try done.
  - f_equal. clear Hexplicit. induction Hall as [|t ts Ht _ IHts]; [done|].
    apply Forall_cons in IH as [IHt IH].
    cbn [map]. by rewrite (IHt _ Ht), (IHts IH).
  - f_equal. clear Hexplicit.
    induction Hall as [|shape f shapes fields Hf _ IHfs]; [done|].
    apply Forall_cons in IH as [IHf IH].
    cbn [fields_with_defaults]. destruct Hf as [Hsome Hnone].
    destruct f as [t|].
    + by rewrite (IHf _ (Hsome _ eq_refl)), (IHfs IH).
    + by rewrite (Hnone eq_refl), (IHfs IH).
Qed.

(** C8: a finished buffer that the builder made of a data tree reads back
    as that tree: the reader gives the scalar values (truth values, signed
    and unsigned integers, floating-point numbers), the contents of the
    strings, and the vectors with their lengths and their elements in
    order. A scalar field the tree leaves absent reads as its declared
    default, so a tree that sets every scalar field reads back as itself. *)
Theorem round_trip shape t buffer :
  build shape t = Some buffer ->
  read_buffer shape buffer = Some (with_defaults shape t) /\
  (explicit shape t -> read_buffer shape buffer = Some t).
Proof.
  intros Hbuild.
  assert (read_buffer shape buffer = Some (with_defaults shape t)) as Hread.
  { unfold build in Hbuild.
    destruct (write shape t new_builder) as [[b slot]|] eqn:Hwrite; [|done].
    cbn [mbind option_bind fst snd] in Hbuild.
    destruct slot as [bytes|ref]; [done|].
    unfold finish in Hbuild. destruct (finished b); [done|].
    destruct (pending b); [done|].
    destruct (decide (ref = 0)); [done|].
    destruct (addressable (u32 ref ++ buf b)) eqn:Hlen; [|done].
    cbn [fmap option_fmap option_map buf] in Hbuild.
    assert (buffer = u32 ref ++ buf b) as -> by congruence.
    unfold addressable in Hlen. apply Z.ltb_lt in Hlen.
    destruct (write_ok t _ _ _ _ Hwrite) as [_ Hcond].
    destruct Hcond as [_ [_ Hstored]].
    - unfold in_range. rewrite length_app in Hlen. lia.
    - constructor.
    - unfold read_buffer. apply read_tree_extend, Hstored. }
  split; [done|].
  intros Hexplicit. by rewrite Hread, with_defaults_explicit.
Qed.

Lemma round_trip_witness :
  exists buffer,
    build Sample.monster Sample.goblin = Some buffer /\
    read_buffer Sample.monster buffer = Some Sample.goblin.
Proof.
  eexists. split; [vm_compute; reflexivity|].
  apply (round_trip Sample.monster Sample.goblin).
  - vm_compute. reflexivity.
  - repeat first
      [ progress (intros ? [= <-]) | intros ? [=] | intros [=]
      | constructor | reflexivity ].
Defined.

End Wire.
